(** * trust-infra: the trust core, embedded and verified

    A shallow embedding of the TypeScript sources of the audit-trail
    service: the event verifier ([packages/crypto/src/verification.ts]),
    the event ledger service, the capability engine, the keystore, the
    reputation engine, the request authenticator and the event query
    route.  Each section names the source function it embeds.

    Conventions.
    - A JavaScript [Date] is an integer number of milliseconds ([Z]).
    - [undefined]/[null] results of repository lookups are [option].
    - A thrown [Error] is the [inr] side of a sum, or an error constructor.
    - Library code that is not part of the repository (SHA-256, Ed25519,
      scrypt, AES-GCM, json-canonicalize, [Date.toISOString],
      [JSON.stringify]) is an interface: the class [Primitives]. *)

From Stdlib Require Import ZArith QArith Qminmax Lqa Lia.
From Stdlib Require Import String Ascii List.
From Stdlib.Strings Require Import Byte.
From stdpp Require Import base option list sorting gmap strings pretty.

Set Warnings "-register-all".
Local Open Scope string_scope.
Local Open Scope list_scope.
Local Open Scope Z_scope.

(** ** JavaScript values *)

(** The dynamic values that reach the core: event payloads, capability
    scopes and request bodies.  [JFun] stands for a built-in function
    object, which only appears as an inherited property of an object. *)
Inductive jsval : Type :=
| JUndefined
| JNull
| JBool (b : bool)
| JNum (n : Z)
| JStr (s : string)
| JArr (items : list jsval)
| JObj (fields : list (string * jsval))
| JFun (name : string).

(** ECMAScript [ToBoolean]. *)
Definition truthy (v : jsval) : bool :=
  match v with
  | JUndefined | JNull => false
  | JBool b => b
  | JNum n => negb (Z.eqb n 0)
  | JStr s => negb (String.eqb s EmptyString)
  | JArr _ | JObj _ | JFun _ => true
  end.

(** A JavaScript number that may be [NaN]: [None] is [NaN]. *)
Definition jsnum : Type := option Z.

(** [x > y] on numbers: any comparison with [NaN] is false. *)
Definition js_gt (x y : jsnum) : bool :=
  match x, y with
  | Some a, Some b => Z.ltb b a
  | _, _ => false
  end.

(** Truthiness of a number: [0] and [NaN] are falsy. *)
Definition jsnum_truthy (x : jsnum) : bool :=
  match x with
  | Some n => negb (Z.eqb n 0)
  | None => false
  end.

(** Truthiness of an optional string ([undefined] and the empty string
    are falsy). *)
Definition str_truthy (s : option string) : bool :=
  match s with
  | Some s => negb (String.eqb s EmptyString)
  | None => false
  end.

(** [parseInt(s, 10)]: leading white space is skipped, an optional sign
    is read, then the longest run of decimal digits; [NaN] when there is
    no digit.  (Values beyond 2^53 are exact here and rounded in
    JavaScript.) *)
Definition is_whitespace (c : ascii) : bool :=
  let n := nat_of_ascii c in
  existsb (Nat.eqb n) [9; 10; 11; 12; 13; 32]%nat.

Fixpoint trim_start (s : string) : string :=
  match s with
  | String c rest => if is_whitespace c then trim_start rest else s
  | EmptyString => s
  end.

Definition digit_value (c : ascii) : option Z :=
  let n := Z.of_nat (nat_of_ascii c) in
  if (48 <=? n) && (n <=? 57) then Some (n - 48) else None.

Fixpoint parse_digits (s : string) (acc : option Z) : option Z :=
  match s with
  | String c rest =>
    match digit_value c with
    | Some d => parse_digits rest (Some (10 * default 0 acc + d))
    | None => acc
    end
  | EmptyString => acc
  end.

Definition parseInt (s : string) : jsnum :=
  match trim_start s with
  | String "-" rest => Z.opp <$> parse_digits rest None
  | String "+" rest => parse_digits rest None
  | t => parse_digits t None
  end.

(** ** External primitives *)

Definition bytes : Type := list byte.

#[global] Instance byte_eq_decision : EqDecision byte := Byte.byte_eq_dec.

(** Options of [crypto.scrypt]. *)
Record ScryptOptions : Type := mkScryptOptions {
  cost : Z;
  blockSize : Z;
  parallelization : Z
}.

Class Primitives : Type := {
  (** [sha256] of [keys.ts] on a string: lowercase hex digest. *)
  sha256 : string -> string;
  (** [createHash('sha256').update(buffer).digest('hex')]. *)
  sha256_buffer : bytes -> string;
  (** [canonicalize] of json-canonicalize (RFC 8785). *)
  canonicalize : jsval -> string;
  (** [ed25519.verifyAsync] on the hex-decoded signature, the UTF-8
      encoded message and the hex-decoded public key: a boolean, or a
      thrown error with its message. *)
  ed25519_verify : string -> string -> string -> bool + string;
  (** [crypto.scrypt password salt keylen options]. *)
  scrypt : string -> bytes -> Z -> ScryptOptions -> bytes;
  (** AES-256-GCM: [update]/[final]/[getAuthTag] of a cipher, and
      [update]/[final] of a decipher ([None]: it throws). *)
  aes_256_gcm_encrypt : bytes -> bytes -> bytes -> bytes * bytes;
  aes_256_gcm_decrypt : bytes -> bytes -> bytes -> bytes -> option bytes;
  (** [Date.prototype.toISOString]. *)
  toISOString : Z -> string;
  (** [new Date(s)] on a string: [None] is an invalid date. *)
  Date_parse : string -> option Z;
  (** [JSON.stringify]. *)
  JSON_stringify : jsval -> string
}.

(** ** Event verification ([packages/crypto/src/verification.ts]) *)

Module Verification.

Record UnsignedEvent : Type := {
  u_agent_id : string;
  u_event_type : string;
  u_timestamp : string;
  u_prev_hash : option string;
  u_payload : jsval;
  u_correlation_id : option string
}.

Record SignedEvent : Type := {
  agent_id : string;
  event_type : string;
  timestamp : string;
  prev_hash : option string;
  payload : jsval;
  correlation_id : option string;
  hash : string;
  signature : string
}.

(** [prepareForSigning]: the event without [hash] and [signature]. *)
Definition prepareForSigning (event : SignedEvent) : UnsignedEvent :=
  {| u_agent_id := agent_id event;
     u_event_type := event_type event;
     u_timestamp := timestamp event;
     u_prev_hash := prev_hash event;
     u_payload := payload event;
     u_correlation_id := correlation_id event |}.

Definition nullable (s : option string) : jsval :=
  match s with Some s => JStr s | None => JNull end.

Definition optional (s : option string) : jsval :=
  match s with Some s => JStr s | None => JUndefined end.

(** The object handed to the canonicalizer. *)
Definition event_object (u : UnsignedEvent) : jsval :=
  JObj [ ("agent_id", JStr (u_agent_id u));
         ("event_type", JStr (u_event_type u));
         ("timestamp", JStr (u_timestamp u));
         ("prev_hash", nullable (u_prev_hash u));
         ("payload", u_payload u);
         ("correlation_id", optional (u_correlation_id u)) ].

Section WithPrimitives.
Context `{Primitives}.

Definition toCanonicalJSON (u : UnsignedEvent) : string :=
  canonicalize (event_object u).

Inductive VerifyError : Type :=
| HashMismatch (expected got : string)
| InvalidSignature
| VerificationError (msg : string).

Record VerificationResult : Type := {
  valid : bool;
  errors : list VerifyError
}.

Definition is_nil {A} (l : list A) : bool :=
  match l with [] => true | _ => false end.

(** [verifyEvent]. *)
Definition verifyEvent (event : SignedEvent) (publicKeyHex : string)
  : VerificationResult :=
  let unsignedEvent := prepareForSigning event in
  let canonicalJSON := toCanonicalJSON unsignedEvent in
  let computedHash := sha256 canonicalJSON in
  let errors1 :=
    if String.eqb computedHash (hash event) then []
    else [HashMismatch (hash event) computedHash] in
  let errors2 :=
    match ed25519_verify (signature event) canonicalJSON publicKeyHex with
    | inl true => []
    | inl false => [InvalidSignature]
    | inr msg => [VerificationError msg]
    end in
  {| valid := is_nil (errors1 ++ errors2); errors := errors1 ++ errors2 |}.

Inductive ChainError : Type :=
| FirstPrevHashNotNull
| EventInvalid (i : nat) (errs : list VerifyError)
| PrevHashMismatch (i : nat) (expected : string) (got : option string).

Record ChainVerificationResult : Type := {
  c_valid : bool;
  c_errors : list ChainError;
  firstInvalidEvent : option nat;
  totalEvents : nat
}.

(** The two mutable locals of [verifyEventChain]. *)
Record ChainState : Type := {
  st_errors : list ChainError;
  st_first : option nat
}.

(** [if (firstInvalidEvent === undefined) firstInvalidEvent = i]. *)
Definition mark (first : option nat) (i : nat) : option nat :=
  match first with Some j => Some j | None => Some i end.

Definition option_string_eqb (a b : option string) : bool :=
  match a, b with
  | Some x, Some y => String.eqb x y
  | None, None => true
  | _, _ => false
  end.

(** The signature-and-hash part of one loop iteration. *)
Definition check_event (publicKeyHex : string) (i : nat)
    (event : SignedEvent) (st : ChainState) : ChainState :=
  let result := verifyEvent event publicKeyHex in
  if valid result then st
  else {| st_errors := st_errors st ++ [EventInvalid i (errors result)];
          st_first := mark (st_first st) i |}.

(** The linkage part of one loop iteration ([if (i > 0)]). *)
Definition check_link (events : list SignedEvent) (i : nat)
    (event : SignedEvent) (st : ChainState) : ChainState :=
  match i with
  | O => st
  | S j =>
    match events !! j with
    | None => st
    | Some previous =>
      let previousHash := hash previous in
      if option_string_eqb (prev_hash event) (Some previousHash) then st
      else {| st_errors :=
                st_errors st ++ [PrevHashMismatch i previousHash (prev_hash event)];
              st_first := mark (st_first st) i |}
    end
  end.

(** The body of [for (let i = 0; i < events.length; i++)]. *)
Definition chain_step (events : list SignedEvent) (publicKeyHex : string)
    (i : nat) (st : ChainState) : ChainState :=
  match events !! i with
  | None => st
  | Some event => check_link events i event (check_event publicKeyHex i event st)
  end.

(** The loop, from index [i], with [n] iterations left. *)
Fixpoint chain_loop (events : list SignedEvent) (publicKeyHex : string)
    (n i : nat) (st : ChainState) : ChainState :=
  match n with
  | O => st
  | S n' => chain_loop events publicKeyHex n' (S i)
              (chain_step events publicKeyHex i st)
  end.

(** The check made before the loop. *)
Definition check_first (events : list SignedEvent) : ChainState :=
  match events !! 0%nat with
  | Some first =>
    match prev_hash first with
    | Some _ => {| st_errors := [FirstPrevHashNotNull]; st_first := Some 0%nat |}
    | None => {| st_errors := []; st_first := None |}
    end
  | None => {| st_errors := []; st_first := None |}
  end.

(** [verifyEventChain]. *)
Definition verifyEventChain (events : list SignedEvent) (publicKeyHex : string)
  : ChainVerificationResult :=
  match events with
  | [] => {| c_valid := true; c_errors := []; firstInvalidEvent := None;
             totalEvents := 0 |}
  | _ =>
    let st := chain_loop events publicKeyHex (length events) 0 (check_first events) in
    {| c_valid := is_nil (st_errors st);
       c_errors := st_errors st;
       firstInvalidEvent := st_first st;
       totalEvents := length events |}
  end.

End WithPrimitives.
End Verification.

(** ** Relational store

    The tables of [db/schema] as lists of rows, in insertion order.  An
    [ORDER BY] is a stable sort of the selected rows. *)

Fixpoint insert_by {A} (le : A -> A -> bool) (x : A) (l : list A) : list A :=
  match l with
  | [] => [x]
  | y :: l' => if le x y then x :: l else y :: insert_by le x l'
  end.

Definition sort_by {A} (le : A -> A -> bool) (l : list A) : list A :=
  foldr (insert_by le) [] l.

Module Agents.

Inductive AgentStatus : Type := active | revoked.

Definition status_eqb (a b : AgentStatus) : bool :=
  match a, b with
  | active, active | revoked, revoked => true
  | _, _ => false
  end.

Record Agent : Type := {
  agentId : string;
  publicKey : string;
  status : AgentStatus
}.

(** [AgentRepository.findById]: [select ... where agent_id = ? limit 1]. *)
Definition findById (agents : list Agent) (id : string) : option Agent :=
  head (filter (fun a => agentId a = id) agents).

End Agents.

Module Events.

Record Event : Type := {
  id : Z;
  agentId : string;
  eventType : string;
  timestamp : Z;
  prevHash : option string;
  hash : string;
  payload : jsval;
  signature : string;
  correlationId : option string
}.

(** A row to insert: the [id] is assigned by the store. *)
Record NewEvent : Type := {
  n_agentId : string;
  n_eventType : string;
  n_timestamp : Z;
  n_prevHash : option string;
  n_hash : string;
  n_payload : jsval;
  n_signature : string;
  n_correlationId : option string
}.

Inductive DbError : Type :=
| UniqueViolation (column : string)
| InvalidRowCount (clause : string)
| InvalidDatetime.

Definition next_id (events : list Event) : Z :=
  Z.succ (foldr Z.max 0 (map id events)).

(** [EventRepository.append]: the insert fails on a duplicate [hash]
    (unique column) and returns the stored row otherwise. *)
Definition append (events : list Event) (data : NewEvent)
  : list Event * (Event + DbError) :=
  if existsb (fun e => String.eqb (hash e) (n_hash data)) events
  then (events, inr (UniqueViolation "hash"))
  else
    let event :=
      {| id := next_id events;
         agentId := n_agentId data;
         eventType := n_eventType data;
         timestamp := n_timestamp data;
         prevHash := n_prevHash data;
         hash := n_hash data;
         payload := n_payload data;
         signature := n_signature data;
         correlationId := n_correlationId data |} in
    (events ++ [event], inl event).

(** [orderBy(desc(timestamp), desc(id))]. *)
Definition later_first (x y : Event) : bool :=
  (timestamp y <? timestamp x)%Z
  || ((timestamp y =? timestamp x)%Z && (id y <=? id x)%Z).

(** [orderBy(timestamp, id)]. *)
Definition earlier_first (x y : Event) : bool :=
  (timestamp x <? timestamp y)%Z
  || ((timestamp x =? timestamp y)%Z && (id x <=? id y)%Z).

(** [EventRepository.getLastEventForAgent]. *)
Definition getLastEventForAgent (events : list Event) (agent : string)
  : option Event :=
  head (sort_by later_first (filter (fun e => agentId e = agent) events)).

(** [EventRepository.getAgentChain]. *)
Definition getAgentChain (events : list Event) (agent : string) : list Event :=
  sort_by earlier_first (filter (fun e => agentId e = agent) events).

(** [EventFilters].  A date is [None] when the property is undefined,
    [Some None] for an invalid [Date] and [Some (Some t)] otherwise. *)
Record EventFilters : Type := {
  f_agentId : option string;
  f_eventType : option string;
  f_correlationId : option string;
  f_since : option (option Z);
  f_until : option (option Z);
  f_limit : option jsnum;
  f_offset : option jsnum
}.

(** One pushed condition: [if (filters.x) conditions.push(eq(col, x))]. *)
Definition cond_eq (f : option string) (col : string) : bool :=
  if str_truthy f then bool_decide (f = Some col) else true.

Definition cond_opt_eq (f : option string) (col : option string) : bool :=
  if str_truthy f then bool_decide (f = col) else true.

Definition cond_since (f : option (option Z)) (t : Z) : bool :=
  match f with Some (Some s) => (s <=? t)%Z | _ => true end.

Definition cond_until (f : option (option Z)) (t : Z) : bool :=
  match f with Some (Some u) => (t <=? u)%Z | _ => true end.

(** The conjunction of the pushed conditions on one row. *)
Definition matches (filters : EventFilters) (e : Event) : bool :=
  cond_eq (f_agentId filters) (agentId e)
  && cond_eq (f_eventType filters) (eventType e)
  && cond_opt_eq (f_correlationId filters) (correlationId e)
  && cond_since (f_since filters) (timestamp e)
  && cond_until (f_until filters) (timestamp e).

(** [orderBy(desc(events.timestamp))]. *)
Definition newest_first (x y : Event) : bool := (timestamp y <=? timestamp x)%Z.

Definition has_invalid_date (filters : EventFilters) : bool :=
  match f_since filters, f_until filters with
  | Some None, _ | _, Some None => true
  | _, _ => false
  end.

(** The [LIMIT] clause added by [if (filters.limit)]. *)
Definition limit_clause (filters : EventFilters) : option Z :=
  match f_limit filters with
  | Some n => if jsnum_truthy n then n else None
  | None => None
  end.

(** The [OFFSET] clause added by [if (filters.offset)]. *)
Definition offset_clause (filters : EventFilters) : option Z :=
  match f_offset filters with
  | Some n => if jsnum_truthy n then n else None
  | None => None
  end.

Definition negative (n : option Z) : bool :=
  match n with Some n => (n <? 0)%Z | None => false end.

Definition apply_limit (l : option Z) (rows : list Event) : list Event :=
  match l with Some n => take (Z.to_nat n) rows | None => rows end.

Definition apply_offset (o : option Z) (rows : list Event) : list Event :=
  match o with Some n => drop (Z.to_nat n) rows | None => rows end.

(** [EventRepository.query].  The store rejects a negative [LIMIT] or
    [OFFSET] and an invalid date. *)
Definition query (events : list Event) (filters : EventFilters)
  : list Event + DbError :=
  if has_invalid_date filters then inr InvalidDatetime
  else
    let rows := sort_by newest_first (filter (fun e => matches filters e = true) events) in
    let l := limit_clause filters in
    let o := offset_clause filters in
    if negative l then inr (InvalidRowCount "LIMIT")
    else if negative o then inr (InvalidRowCount "OFFSET")
    else inl (apply_limit l (apply_offset o rows)).

(** [EventRepository.count]. *)
Definition count (events : list Event) (filters : EventFilters) : nat + DbError :=
  if has_invalid_date filters then inr InvalidDatetime
  else inl (length (filter (fun e => matches filters e = true) events)).

End Events.

(** ** Event ledger service ([services/event.service.ts]) *)

Module EventService.
Import Verification.

Record AppendEventRequest : Type := {
  agentId : string;
  eventType : string;
  timestamp : option Z;
  payload : jsval;
  correlationId : option string;
  hash : string;
  signature : string
}.

Inductive AppendError : Type :=
| AgentNotFound (agentId : string)
| AgentNotActive (status : Agents.AgentStatus)
| EventVerificationFailed (errs : list VerifyError)
| HashChainBroken (expected got : option string)
| Database (e : Events.DbError).

(** The two tables the service reads and writes. *)
Record Db : Type := {
  agents : list Agents.Agent;
  events : list Events.Event
}.

Section WithPrimitives.
Context `{Primitives}.

(** [appendEvent].  [now1] and [now2] are the two readings of the clock
    ([new Date()]) made when the request carries no timestamp. *)
Definition appendEvent (db : Db) (now1 now2 : Z) (request : AppendEventRequest)
  : Db * (Events.Event + AppendError) :=
  (* 1. Verify agent exists and is active *)
  match Agents.findById (agents db) (agentId request) with
  | None => (db, inr (AgentNotFound (agentId request)))
  | Some agent =>
    if negb (Agents.status_eqb (Agents.status agent) Agents.active)
    then (db, inr (AgentNotActive (Agents.status agent)))
    else
      (* 2. Get last event for hash chain linkage *)
      let lastEvent := Events.getLastEventForAgent (events db) (agentId request) in
      let prevHash := Events.hash <$> lastEvent in
      (* 3. Build signed event for verification *)
      let signedEvent :=
        {| agent_id := agentId request;
           event_type := eventType request;
           Verification.timestamp := toISOString (default now1 (timestamp request));
           prev_hash := prevHash;
           Verification.payload := payload request;
           correlation_id := correlationId request;
           Verification.hash := hash request;
           Verification.signature := signature request |} in
      (* 4. Verify signature and hash *)
      let verification := verifyEvent signedEvent (Agents.publicKey agent) in
      if negb (valid verification)
      then (db, inr (EventVerificationFailed (errors verification)))
      else
        (* 5. Verify prev_hash matches last event *)
        if negb (option_string_eqb (prev_hash signedEvent) prevHash)
        then (db, inr (HashChainBroken prevHash (prev_hash signedEvent)))
        else
          (* 6. Insert event into database *)
          let newEvent :=
            {| Events.n_agentId := agentId request;
               Events.n_eventType := eventType request;
               Events.n_timestamp := default now2 (timestamp request);
               Events.n_prevHash := prevHash;
               Events.n_hash := hash request;
               Events.n_payload := payload request;
               Events.n_signature := signature request;
               Events.n_correlationId := correlationId request |} in
          match Events.append (events db) newEvent with
          | (events', inl event) =>
            ({| agents := agents db; events := events' |}, inl event)
          | (events', inr e) =>
            ({| agents := agents db; events := events' |}, inr (Database e))
          end
  end.

(** The conversion to [SignedEvent] inside [verifyAgentChain];
    [e.correlationId || undefined] drops an empty string too. *)
Definition toSignedEvent (e : Events.Event) : SignedEvent :=
  {| agent_id := Events.agentId e;
     event_type := Events.eventType e;
     Verification.timestamp := toISOString (Events.timestamp e);
     prev_hash := Events.prevHash e;
     Verification.hash := Events.hash e;
     Verification.payload := Events.payload e;
     correlation_id :=
       if str_truthy (Events.correlationId e) then Events.correlationId e else None;
     Verification.signature := Events.signature e |}.

(** [verifyAgentChain]: the error is the thrown [Agent not found]. *)
Definition verifyAgentChain (db : Db) (agent_id : string)
  : ChainVerificationResult + AppendError :=
  match Agents.findById (agents db) agent_id with
  | None => inr (AgentNotFound agent_id)
  | Some agent =>
    let chain := Events.getAgentChain (events db) agent_id in
    if is_nil chain
    then inl {| c_valid := true; c_errors := []; firstInvalidEvent := None;
                totalEvents := 0 |}
    else inl (verifyEventChain (map toSignedEvent chain) (Agents.publicKey agent))
  end.

End WithPrimitives.
End EventService.

(** ** Capability engine ([services/capability.service.ts],
       [repositories/capability.repository.ts]) *)

Module Capabilities.

Inductive CapabilityStatus : Type := active | expired | revoked.

Definition status_eqb (a b : CapabilityStatus) : bool :=
  match a, b with
  | active, active | expired, expired | revoked, revoked => true
  | _, _ => false
  end.

Record Capability : Type := {
  id : string;
  agentId : string;
  scope : gmap string jsval;
  issuedBy : string;
  issuedAt : Z;
  expiresAt : Z;
  status : CapabilityStatus;
  tokenHash : string;
  revokedAt : option Z
}.

(** [findByTokenHash]: [where token_hash = ? limit 1]. *)
Definition findByTokenHash (caps : list Capability) (h : string)
  : option Capability :=
  head (filter (fun c => tokenHash c = h) caps).

(** [findActiveForAgent]: [agent_id = ? and status = 'active' and
    expires_at >= now]. *)
Definition findActiveForAgent (caps : list Capability) (now : Z) (agent : string)
  : list Capability :=
  filter (fun c => String.eqb (agentId c) agent
                   && status_eqb (status c) active
                   && (now <=? expiresAt c)%Z = true) caps.

(** [expireOldCapabilities]: [status = 'active' and expires_at <= now]
    become [expired]. *)
Definition expireOldCapabilities (caps : list Capability) (now : Z)
  : list Capability :=
  map (fun c =>
         if status_eqb (status c) active && (expiresAt c <=? now)%Z
         then {| id := id c; agentId := agentId c; scope := scope c;
                 issuedBy := issuedBy c; issuedAt := issuedAt c;
                 expiresAt := expiresAt c; status := expired;
                 tokenHash := tokenHash c; revokedAt := revokedAt c |}
         else c) caps.

(** The own and inherited properties of a plain object: the names that
    [Object.prototype] defines are found on every scope object. *)
Definition Object_prototype_keys : list string :=
  [ "constructor"; "hasOwnProperty"; "isPrototypeOf"; "propertyIsEnumerable";
    "toLocaleString"; "toString"; "valueOf"; "__defineGetter__";
    "__defineSetter__"; "__lookupGetter__"; "__lookupSetter__"; "__proto__" ].

(** [scope[key]]. *)
Definition js_get (o : gmap string jsval) (key : string) : jsval :=
  match o !! key with
  | Some v => v
  | None =>
    if bool_decide (key ∈ Object_prototype_keys)
    then (if String.eqb key "__proto__" then JObj [] else JFun key)
    else JUndefined
  end.

(** [s.split(':')[0]]: the characters before the first colon. *)
Fixpoint split_head (s : string) : string :=
  match s with
  | EmptyString => EmptyString
  | String c rest =>
    if Ascii.eqb c ":"%char then EmptyString else String c (split_head rest)
  end.

Inductive ValidateResult : Type :=
| Invalid (capability : option Capability) (reason : string)
| Valid (capability : Capability).

Inductive PermissionResult : Type :=
| Allowed (scope : jsval)
| Denied (reason : string).

(** The [for (const cap of capabilities)] loop of [checkPermission]. *)
Fixpoint check_capabilities (caps : list Capability) (action : string)
  : PermissionResult :=
  match caps with
  | [] => Denied ("No capability grants permission for: " +:+ action)
  | cap :: rest =>
    if truthy (js_get (scope cap) action)
    then Allowed (js_get (scope cap) action)
    else
      let actionPrefix := split_head action in
      if truthy (js_get (scope cap) (actionPrefix +:+ ":*"))
      then Allowed (js_get (scope cap) (actionPrefix +:+ ":*"))
      else check_capabilities rest action
  end.

Section WithPrimitives.
Context `{Primitives}.

(** [validateToken].  [new Date() > capability.expiresAt] is a
    comparison of the two times. *)
Definition validateToken (caps : list Capability) (now : Z) (token : string)
  : ValidateResult :=
  let tokenHash := sha256 token in
  match findByTokenHash caps tokenHash with
  | None => Invalid None "Token not found"
  | Some capability =>
    if status_eqb (status capability) revoked
    then Invalid (Some capability) "Token revoked"
    else if status_eqb (status capability) expired
            || (expiresAt capability <? now)%Z
    then Invalid (Some capability) "Token expired"
    else Valid capability
  end.

End WithPrimitives.

(** [checkPermission]. *)
Definition checkPermission (caps : list Capability) (now : Z)
    (agent action : string) : PermissionResult :=
  check_capabilities (findActiveForAgent caps now agent) action.

End Capabilities.

(** ** Keystore ([packages/crypto/src/signing.ts], second part) *)

Module Keystore.

(** [Buffer.toString('hex')]. *)
Definition hex_char (n : N) : ascii :=
  match String.get (N.to_nat n) "0123456789abcdef" with
  | Some c => c
  | None => "0"%char
  end.

Definition byte_to_hex (b : byte) : string :=
  let n := Byte.to_N b in
  String (hex_char (n / 16)) (String (hex_char (n mod 16)) EmptyString).

Fixpoint to_hex (b : bytes) : string :=
  match b with
  | [] => EmptyString
  | x :: rest => byte_to_hex x +:+ to_hex rest
  end.

Definition hex_value (c : ascii) : option N :=
  let n := N_of_ascii c in
  if ((48 <=? n) && (n <=? 57))%N then Some (n - 48)%N
  else if ((97 <=? n) && (n <=? 102))%N then Some (n - 87)%N
  else if ((65 <=? n) && (n <=? 70))%N then Some (n - 55)%N
  else None.

(** [Buffer.from(s, 'hex')]: decoding stops at the first pair that is
    not two hex digits. *)
Fixpoint from_hex (s : string) : bytes :=
  match s with
  | String a (String b rest) =>
    match hex_value a, hex_value b with
    | Some hi, Some lo =>
      match Byte.of_N (16 * hi + lo) with
      | Some x => x :: from_hex rest
      | None => []
      end
    | _, _ => []
    end
  | _ => []
  end.

(** [TypedArray.prototype.subarray(begin, end)]: a negative index counts
    from the end, and both are clamped to the buffer. *)
Definition relative_index (len i : Z) : Z :=
  if i <? 0 then Z.max (len + i) 0 else Z.min i len.

Definition subarray (b : bytes) (begin end_ : Z) : bytes :=
  let len := Z.of_nat (length b) in
  let from := relative_index len begin in
  let to := relative_index len end_ in
  take (Z.to_nat (to - from)) (drop (Z.to_nat from) b).

Record KdfParams : Type := {
  salt : string;
  n : Z;
  r : Z;
  p : Z;
  dklen : Z
}.

Record CryptoSection : Type := {
  cipher : string;
  ciphertext : string;
  kdf : string;
  kdfparams : KdfParams;
  mac : string
}.

Record EncryptedKeystore : Type := {
  version : string;
  crypto : CryptoSection;
  id : string;
  agent_id : string
}.

(** The three results of [randomBytes] in [encryptKeystore]. *)
Record Entropy : Type := {
  random_salt : bytes;   (* randomBytes(32) *)
  random_iv : bytes;     (* randomBytes(16) *)
  random_id : bytes      (* randomBytes(16) *)
}.

Inductive KeystoreError : Type :=
| UnsupportedVersion (v : string)
| MacMismatch
| AuthenticationFailed.

(** The cost parameters [crypto.scrypt] takes when it is called without
    an [options] argument. *)
Definition node_scrypt_defaults : ScryptOptions :=
  {| cost := 16384; blockSize := 8; parallelization := 1 |}.

Section WithPrimitives.
Context `{Primitives}.

(** [promisify(scrypt)] called with three arguments. *)
Definition scryptAsync (password : string) (salt : bytes) (keylen : Z) : bytes :=
  scrypt password salt keylen node_scrypt_defaults.

(** The key [encryptKeystore] derives. *)
Definition derivedKey (password : string) (salt : bytes) : bytes :=
  scryptAsync password salt 32.

(** [ciphertext + authTag + iv]. *)
Definition combined (key iv : bytes) (privateKeyHex : string) : bytes :=
  let '(ciphertext, authTag) :=
    aes_256_gcm_encrypt key iv (list_byte_of_string privateKeyHex) in
  ciphertext ++ authTag ++ iv.

Definition compute_mac (key data : bytes) : string :=
  sha256_buffer (subarray key 16 32 ++ data).

(** [encryptKeystore]. *)
Definition encryptKeystore (rnd : Entropy) (privateKeyHex agentId password : string)
  : EncryptedKeystore :=
  let salt := random_salt rnd in
  let iv := random_iv rnd in
  let key := derivedKey password salt in
  let data := combined key iv privateKeyHex in
  {| version := "1";
     crypto :=
       {| cipher := "aes-256-gcm";
          ciphertext := to_hex data;
          kdf := "scrypt";
          kdfparams :=
            {| salt := to_hex salt; n := 262144; r := 8; p := 1; dklen := 32 |};
          mac := compute_mac key data |};
     id := to_hex (random_id rnd);
     agent_id := agentId |}.

(** [decryptKeystore]. *)
Definition decryptKeystore (keystore : EncryptedKeystore) (password : string)
  : string + KeystoreError :=
  if negb (String.eqb (version keystore) "1")
  then inr (UnsupportedVersion (version keystore))
  else
    let c := crypto keystore in
    let salt := from_hex (salt (kdfparams c)) in
    let key := scryptAsync password salt (dklen (kdfparams c)) in
    let data := from_hex (ciphertext c) in
    let computedMac := compute_mac key data in
    if negb (String.eqb computedMac (mac c)) then inr MacMismatch
    else
      let len := Z.of_nat (length data) in
      let iv := subarray data (len - 16) len in
      let authTag := subarray data (len - 32) (len - 16) in
      let ciphertext := subarray data 0 (len - 32) in
      match aes_256_gcm_decrypt key iv authTag ciphertext with
      | Some plain => inl (string_of_list_byte plain)
      | None => inr AuthenticationFailed
      end.

End WithPrimitives.

(** The idealised laws of the primitives under which the keystore
    rejects corruption and wrong passwords: the first three hold of the
    real primitives, the last two are the perfect-cryptography
    assumptions (no digest collision; a GCM tag made under one key is
    rejected under every other key). *)
Class IdealPrimitives `{Primitives} : Prop := {
  scrypt_length : forall password salt keylen opts,
    0 <= keylen -> Z.of_nat (length (scrypt password salt keylen opts)) = keylen;
  gcm_tag_length : forall key iv plain,
    length (snd (aes_256_gcm_encrypt key iv plain)) = 16%nat;
  gcm_correct : forall key iv plain,
    length key = 32%nat ->
    aes_256_gcm_decrypt key iv (snd (aes_256_gcm_encrypt key iv plain))
      (fst (aes_256_gcm_encrypt key iv plain)) = Some plain;
  sha256_collision_free : forall a b,
    sha256_buffer a = sha256_buffer b -> a = b;
  gcm_key_binding : forall key key' iv plain,
    length key = 32%nat -> length key' = 32%nat -> key <> key' ->
    aes_256_gcm_decrypt key' iv (snd (aes_256_gcm_encrypt key iv plain))
      (fst (aes_256_gcm_encrypt key iv plain)) = None
}.

End Keystore.

(** ** Reputation engine ([services/reputation.service.ts],
       [repositories/reputation.repository.ts])

    Scores and rates are exact rationals: the rounding of IEEE doubles
    and of the [numeric] columns of the store is not part of the model. *)

Module Reputation.

Inductive OutcomeType : Type :=
| success | partial_success | failure | user_corrected | harmful.

Definition OUTCOME_IMPACT_SCORES (t : OutcomeType) : Q :=
  match t with
  | success => 5 # 10
  | partial_success => 2 # 10
  | failure => - (3 # 10)
  | user_corrected => - (5 # 10)
  | harmful => - (2 # 1)
  end.

Record Reputation : Type := {
  agentId : string;
  overallScore : Q;
  totalActions : Z;
  successRate : Q;
  failureRate : Q;
  harmfulActions : Z;
  userCorrections : Z;
  breakdown : gmap string Q;
  lastUpdated : Z
}.

(** The row the store creates for a new agent (column defaults). *)
Definition initial (agent : string) (now : Z) : Reputation :=
  {| agentId := agent; overallScore := 50 # 1; totalActions := 0;
     successRate := 0 # 1; failureRate := 0 # 1; harmfulActions := 0;
     userCorrections := 0; breakdown := ∅; lastUpdated := now |}.

(** [['success', 'partial_success'].includes(outcomeType)]. *)
Definition isSuccess (t : OutcomeType) : bool :=
  match t with success | partial_success => true | _ => false end.

(** [['failure', 'user_corrected', 'harmful'].includes(outcomeType)]. *)
Definition isFailure (t : OutcomeType) : bool :=
  match t with failure | user_corrected | harmful => true | _ => false end.

Definition isHarmful (t : OutcomeType) : bool :=
  match t with harmful => true | _ => false end.

Definition isUserCorrected (t : OutcomeType) : bool :=
  match t with user_corrected => true | _ => false end.

Definition one_if (b : bool) : Z := if b then 1 else 0.

(** [customImpactScore ?? OUTCOME_IMPACT_SCORES[outcomeType]]. *)
Definition impactScore (t : OutcomeType) (customImpactScore : option Q) : Q :=
  match customImpactScore with
  | Some q => q
  | None => OUTCOME_IMPACT_SCORES t
  end.

(** The row [recordOutcome] writes, from the row it read. *)
Definition updated (current : Reputation) (outcomeType : OutcomeType)
    (customImpactScore : option Q) (now : Z) : Reputation :=
  let impact := impactScore outcomeType customImpactScore in
  let newOverallScore :=
    Qmax (0 # 1) (Qmin (100 # 1) (overallScore current + impact)) in
  let newTotalActions := totalActions current + 1 in
  let currentSuccesses := (successRate current * inject_Z (totalActions current))%Q in
  let currentFailures := (failureRate current * inject_Z (totalActions current))%Q in
  let newSuccesses := (currentSuccesses + inject_Z (one_if (isSuccess outcomeType)))%Q in
  let newFailures := (currentFailures + inject_Z (one_if (isFailure outcomeType)))%Q in
  let newSuccessRate := (newSuccesses / inject_Z newTotalActions)%Q in
  let newFailureRate := (newFailures / inject_Z newTotalActions)%Q in
  let newHarmfulActions := harmfulActions current + one_if (isHarmful outcomeType) in
  let newUserCorrections :=
    userCorrections current + one_if (isUserCorrected outcomeType) in
  {| agentId := agentId current;
     overallScore := newOverallScore;
     totalActions := newTotalActions;
     successRate := newSuccessRate;
     failureRate := newFailureRate;
     harmfulActions := newHarmfulActions;
     userCorrections := newUserCorrections;
     breakdown := breakdown current;
     lastUpdated := now |}.

(** [ReputationRepository.findByAgentId]. *)
Definition findByAgentId (rows : list Reputation) (agent : string)
  : option Reputation :=
  head (filter (fun r => agentId r = agent) rows).

Inductive ReputationError : Type :=
| ReputationNotFound (agent : string).

(** [recordOutcome]: read the row, write the updated row back. *)
Definition recordOutcome (rows : list Reputation) (now : Z) (agent : string)
    (outcomeType : OutcomeType) (customImpactScore : option Q)
  : list Reputation * (Reputation + ReputationError) :=
  match findByAgentId rows agent with
  | None => (rows, inr (ReputationNotFound agent))
  | Some current =>
    let row := updated current outcomeType customImpactScore now in
    (map (fun r => if String.eqb (agentId r) agent then row else r) rows, inl row)
  end.

(** One recorded outcome: its type and the optional custom impact. *)
Definition Outcome : Type := OutcomeType * option Q.

(** The row after a sequence of [recordOutcome] calls, oldest first. *)
Definition record_all (row : Reputation) (outcomes : list (Outcome * Z)) : Reputation :=
  foldl (fun r o => updated r (fst (fst o)) (snd (fst o)) (snd o)) row outcomes.

(** The spec's [clamp(x, lo, hi)]. *)
Definition clamp (x lo hi : Q) : Q :=
  if Qlt_le_dec x lo then lo else if Qlt_le_dec hi x then hi else x.

Definition count_where (f : OutcomeType -> bool) (outcomes : list (Outcome * Z)) : Z :=
  Z.of_nat (length (filter (fun o => f (fst (fst o)) = true) outcomes)).

End Reputation.

(** ** Request authenticator ([middleware/auth.ts]) and configuration *)

Module Auth.

Record Config : Type := {
  signatureTimestampWindow : jsnum
}.

(** [parseInt(process.env.SIGNATURE_TIMESTAMP_WINDOW || '300', 10)]. *)
Definition loadConfig (env : option string) : Config :=
  {| signatureTimestampWindow :=
       parseInt (if str_truthy env then default "300" env else "300") |}.

Record Request : Type := {
  method : string;
  url : string;
  body : option jsval;
  x_agent_id : option string;
  x_timestamp : option string;
  x_signature : option string
}.

(** A reply sent by the hook: the status code and the [error] field. *)
Record Reply : Type := {
  statusCode : Z;
  error : string
}.

Section WithPrimitives.
Context `{Primitives}.

(** [request.body ? JSON.stringify(request.body) : ''] *)
Definition body_text (body : option jsval) : string :=
  match body with
  | Some v => if truthy v then JSON_stringify v else EmptyString
  | None => EmptyString
  end.

(** [verifyAgentSignature]: either a reply is sent, or the agent is
    attached to the request and the handler runs. *)
Definition verifyAgentSignature (config : Config) (agents : list Agents.Agent)
    (now_ms : Z) (request : Request) : Agents.Agent + Reply :=
  if negb (str_truthy (x_agent_id request))
     || negb (str_truthy (x_timestamp request))
     || negb (str_truthy (x_signature request))
  then inr {| statusCode := 401; error := "Unauthorized" |}
  else
    let agentId := default EmptyString (x_agent_id request) in
    let timestamp := default EmptyString (x_timestamp request) in
    let signature := default EmptyString (x_signature request) in
    (* 1. Check timestamp *)
    let now := now_ms / 1000 in
    match parseInt timestamp with
    | None => inr {| statusCode := 401; error := "Invalid timestamp" |}
    | Some requestTime =>
      let timeDiff := Z.abs (now - requestTime) in
      if js_gt (Some timeDiff) (signatureTimestampWindow config)
      then inr {| statusCode := 401; error := "Timestamp expired" |}
      else
        (* 2. Get agent and verify active status *)
        match Agents.findById agents agentId with
        | None => inr {| statusCode := 401; error := "Agent not found" |}
        | Some agent =>
          if negb (Agents.status_eqb (Agents.status agent) Agents.active)
          then inr {| statusCode := 403; error := "Agent not active" |}
          else
            (* 3. Build signed payload *)
            let payload :=
              method request +:+ ":" +:+ url request +:+ ":"
              +:+ body_text (body request) +:+ ":" +:+ timestamp in
            (* 4. Verify signature *)
            match ed25519_verify signature payload (Agents.publicKey agent) with
            | inr _ => inr {| statusCode := 500; error := "Verification error" |}
            | inl false => inr {| statusCode := 401; error := "Invalid signature" |}
            | inl true => inl agent
            end
        end
    end.

End WithPrimitives.
End Auth.

(** ** Event query route ([api/events.ts], [GET /events]) *)

Module EventRoutes.

Record Query : Type := {
  agentId : option string;
  eventType : option string;
  correlationId : option string;
  since : option string;
  until : option string;
  limit : option string;
  offset : option string
}.

Inductive Reply : Type :=
| Ok (events : list Events.Event) (count : nat) (total : nat)
| QueryFailed (e : Events.DbError).

Section WithPrimitives.
Context `{Primitives}.

(** [query.since ? new Date(query.since) : undefined]. *)
Definition date_param (s : option string) : option (option Z) :=
  if str_truthy s then Some (Date_parse (default EmptyString s)) else None.

(** [query.limit ? parseInt(query.limit, 10) : 100]. *)
Definition number_param (s : option string) (dflt : Z) : jsnum :=
  if str_truthy s then parseInt (default EmptyString s) else Some dflt.

(** The filters the handler passes to [queryEvents]. *)
Definition query_filters (query : Query) : Events.EventFilters :=
  {| Events.f_agentId := agentId query;
     Events.f_eventType := eventType query;
     Events.f_correlationId := correlationId query;
     Events.f_since := date_param (since query);
     Events.f_until := date_param (until query);
     Events.f_limit := Some (number_param (limit query) 100);
     Events.f_offset := Some (number_param (offset query) 0) |}.

(** The filters the handler passes to [countEvents]. *)
Definition count_filters (query : Query) : Events.EventFilters :=
  {| Events.f_agentId := agentId query;
     Events.f_eventType := eventType query;
     Events.f_correlationId := correlationId query;
     Events.f_since := date_param (since query);
     Events.f_until := date_param (until query);
     Events.f_limit := None;
     Events.f_offset := None |}.

(** The handler of [GET /events]. *)
Definition get_events (events : list Events.Event) (query : Query) : Reply :=
  match Events.query events (query_filters query) with
  | inr e => QueryFailed e
  | inl rows =>
    match Events.count events (count_filters query) with
    | inr e => QueryFailed e
    | inl total => Ok rows (length rows) total
    end
  end.

End WithPrimitives.
End EventRoutes.

(** ** A reference instance of the primitives

    An executable instance of [Primitives] on which the embedded
    functions can be run: digests and signatures are symbolic terms, so
    that two digests are equal only if their inputs are. *)

Module Model.

Fixpoint render (v : jsval) : string :=
  match v with
  | JUndefined => "undefined"
  | JNull => "null"
  | JBool true => "true"
  | JBool false => "false"
  | JNum n => pretty n
  | JStr s => "'" +:+ s +:+ "'"
  | JArr items =>
    "[" +:+ (fix go (l : list jsval) : string :=
               match l with
               | [] => EmptyString
               | x :: rest => render x +:+ "," +:+ go rest
               end) items +:+ "]"
  | JObj fields =>
    "{" +:+ (fix go (l : list (string * jsval)) : string :=
               match l with
               | [] => EmptyString
               | (k, x) :: rest => k +:+ ":" +:+ render x +:+ "," +:+ go rest
               end) fields +:+ "}"
  | JFun name => "function " +:+ name
  end.

(** The signature of [msg] under the key pair whose public key is [pub]. *)
Definition sign (pub msg : string) : string :=
  "sig(" +:+ pub +:+ "," +:+ msg +:+ ")".

Definition verify (sig msg pub : string) : bool + string :=
  if String.eqb sig EmptyString then inr "bad signature length"
  else inl (String.eqb sig (sign pub msg)).

Definition zeros (n : nat) : bytes := repeat x00 n.

(** A key derivation of the requested length that depends on the
    password, the cost and the salt. *)
Definition kdf (password : string) (salt : bytes) (keylen : Z)
    (opts : ScryptOptions) : bytes :=
  take (Z.to_nat keylen)
       (list_byte_of_string password
        ++ list_byte_of_string (pretty (cost opts))
        ++ salt ++ zeros (Z.to_nat keylen)).

Definition tag : bytes := zeros 16.

Definition bytes_eqb (a b : bytes) : bool := bool_decide (a = b).

Definition seal (key iv plain : bytes) : bytes * bytes := (key ++ plain, tag).

Definition open (key iv authTag data : bytes) : option bytes :=
  if (length key =? 32)%nat && bytes_eqb (take 32 data) key && bytes_eqb authTag tag
  then Some (drop 32 data) else None.

#[export] Instance primitives : Primitives :=
  {| sha256 := fun s => "sha256(" +:+ s +:+ ")";
     sha256_buffer := Keystore.to_hex;
     canonicalize := render;
     ed25519_verify := verify;
     scrypt := kdf;
     aes_256_gcm_encrypt := seal;
     aes_256_gcm_decrypt := open;
     toISOString := fun t => pretty t;
     Date_parse := parseInt;
     JSON_stringify := render |}.

End Model.

(** ** Concrete ledgers and requests *)

Module Examples.
Import Model.

Definition alice : Agents.Agent :=
  {| Agents.agentId := "a11ce"; Agents.publicKey := "pkA";
     Agents.status := Agents.active |}.

(** What a client signs: the canonical form of the unsigned event with
    the client's own view of [prev_hash]. *)
Definition client_event (prev : option string) (i : Z) (t : Z)
  : Verification.UnsignedEvent :=
  {| Verification.u_agent_id := "a11ce";
     Verification.u_event_type := "input_received";
     Verification.u_timestamp := toISOString t;
     Verification.u_prev_hash := prev;
     Verification.u_payload := JObj [("i", JNum i)];
     Verification.u_correlation_id := None |}.

(** The request a client submits for that event. *)
Definition client_request (prev : option string) (i : Z) (t : Z)
  : EventService.AppendEventRequest :=
  let canonical := Verification.toCanonicalJSON (client_event prev i t) in
  {| EventService.agentId := "a11ce";
     EventService.eventType := "input_received";
     EventService.timestamp := Some t;
     EventService.payload := JObj [("i", JNum i)];
     EventService.correlationId := None;
     EventService.hash := sha256 canonical;
     EventService.signature := sign "pkA" canonical |}.

Definition empty_ledger : EventService.Db :=
  {| EventService.agents := [alice]; EventService.events := [] |}.

(** Three events, each signed over the hash of the one before. *)
Definition request1 : EventService.AppendEventRequest := client_request None 1 1000.
Definition request2 : EventService.AppendEventRequest :=
  client_request (Some (EventService.hash request1)) 2 2000.
Definition request3 : EventService.AppendEventRequest :=
  client_request (Some (EventService.hash request2)) 3 3000.

(** The ledger after the first event has been admitted. *)
Definition ledger1 : EventService.Db :=
  fst (EventService.appendEvent empty_ledger 5000 5000 request1).

(** The ledger after all three have been admitted. *)
Definition ledger3 : EventService.Db :=
  foldl (fun db request => fst (EventService.appendEvent db 5000 5000 request))
        empty_ledger [request1; request2; request3].

(** The same ledger after the payload of its second row was changed. *)
Definition tamper (e : Events.Event) : Events.Event :=
  if (Events.id e =? 2)%Z
  then {| Events.id := Events.id e; Events.agentId := Events.agentId e;
          Events.eventType := Events.eventType e;
          Events.timestamp := Events.timestamp e;
          Events.prevHash := Events.prevHash e; Events.hash := Events.hash e;
          Events.payload := JObj [("i", JNum 99)];
          Events.signature := Events.signature e;
          Events.correlationId := Events.correlationId e |}
  else e.

Definition tampered_ledger : EventService.Db :=
  {| EventService.agents := EventService.agents ledger3;
     EventService.events := map tamper (EventService.events ledger3) |}.

(** A second event, signed by a client that has not seen the first one:
    its view of [prev_hash] is still [null]. *)
Definition stale_request : EventService.AppendEventRequest :=
  client_request None 2 2000.

(** A capability that expires at time [1000], and its token. *)
Definition boundary_capability : Capabilities.Capability :=
  {| Capabilities.id := "c1"; Capabilities.agentId := "a11ce";
     Capabilities.scope := {[ "tool:web.read" := JBool true ]};
     Capabilities.issuedBy := "admin"; Capabilities.issuedAt := 0;
     Capabilities.expiresAt := 1000; Capabilities.status := Capabilities.active;
     Capabilities.tokenHash := sha256 "tok"; Capabilities.revokedAt := None |}.

(** The capability of the specification's enforcement scenario. *)
Definition wallet_capability : Capabilities.Capability :=
  {| Capabilities.id := "c2"; Capabilities.agentId := "a11ce";
     Capabilities.scope :=
       {[ "tool:web.read" := JBool true;
          "tool:wallet.send" := JObj [("max_value", JNum 100)] ]};
     Capabilities.issuedBy := "admin"; Capabilities.issuedAt := 0;
     Capabilities.expiresAt := 3600000; Capabilities.status := Capabilities.active;
     Capabilities.tokenHash := sha256 "tok2"; Capabilities.revokedAt := None |}.

(** The random bytes of one [encryptKeystore] call. *)
Definition entropy : Keystore.Entropy :=
  {| Keystore.random_salt := repeat x2a 32;
     Keystore.random_iv := repeat x17 16;
     Keystore.random_id := repeat x01 16 |}.

(** A request signed by the agent at second [1000000]. *)
Definition signed_request : Auth.Request :=
  {| Auth.method := "GET"; Auth.url := "/api/events"; Auth.body := None;
     Auth.x_agent_id := Some "a11ce";
     Auth.x_timestamp := Some "1000000";
     Auth.x_signature := Some (sign "pkA" "GET:/api/events::1000000") |}.

(** A ledger of [n] events of one agent, at times [n], .., [1]. *)
Fixpoint many_events (n : nat) : list Events.Event :=
  match n with
  | O => []
  | S n' =>
    {| Events.id := Z.of_nat n; Events.agentId := "a11ce";
       Events.eventType := "system_event"; Events.timestamp := Z.of_nat n;
       Events.prevHash := None; Events.hash := pretty n;
       Events.payload := JObj []; Events.signature := "s";
       Events.correlationId := None |} :: many_events n'
  end.

(** [GET /events?agentId=a11ce&limit=...]. *)
Definition events_query (limit : option string) : EventRoutes.Query :=
  {| EventRoutes.agentId := Some "a11ce"; EventRoutes.eventType := None;
     EventRoutes.correlationId := None; EventRoutes.since := None;
     EventRoutes.until := None; EventRoutes.limit := limit;
     EventRoutes.offset := None |}.

End Examples.

(** ** Specification predicates

    The properties of the specification, in its own words, against
    which the embedded functions are compared. *)

Module ChainSpec.
Import Verification.

Section WithPrimitives.
Context `{Primitives}.

(** The hash is the digest of the canonical unsigned form and the
    signature verifies under the public key. *)
Definition event_ok (pk : string) (e : SignedEvent) : Prop :=
  sha256 (toCanonicalJSON (prepareForSigning e)) = hash e
  /\ ed25519_verify (signature e) (toCanonicalJSON (prepareForSigning e)) pk
     = inl true.

(** A chain without any violation. *)
Definition chain_ok (events : list SignedEvent) (pk : string) : Prop :=
  (forall e, events !! 0%nat = Some e -> prev_hash e = None)
  /\ (forall i e, events !! i = Some e -> event_ok pk e)
  /\ (forall i p e, events !! i = Some p -> events !! S i = Some e ->
        prev_hash e = Some (hash p)).

(** What an entry of the error list reports. *)
Definition reported (events : list SignedEvent) (pk : string) (err : ChainError)
  : Prop :=
  match err with
  | FirstPrevHashNotNull =>
    exists e, events !! 0%nat = Some e /\ prev_hash e <> None
  | EventInvalid i errs =>
    exists e, events !! i = Some e /\ ~ event_ok pk e
              /\ errs = errors (verifyEvent e pk)
  | PrevHashMismatch i expected got =>
    exists j p e, i = S j /\ events !! j = Some p /\ events !! i = Some e
                  /\ expected = hash p /\ got = prev_hash e
                  /\ prev_hash e <> Some (hash p)
  end.

(** The event index an error is about. *)
Definition error_index (err : ChainError) : nat :=
  match err with
  | FirstPrevHashNotNull => 0
  | EventInvalid i _ => i
  | PrevHashMismatch i _ _ => i
  end.

(** Event [i] of the chain violates some rule. *)
Definition violation (events : list SignedEvent) (pk : string) (i : nat) : Prop :=
  exists err, reported events pk err /\ error_index err = i.

(** The errors the loop adds at index [i]. *)
Definition event_violations (pk : string) (i : nat) (e : SignedEvent)
  : list ChainError :=
  if valid (verifyEvent e pk) then []
  else [EventInvalid i (errors (verifyEvent e pk))].

Definition link_violations (events : list SignedEvent) (i : nat) (e : SignedEvent)
  : list ChainError :=
  match i with
  | O => []
  | S j =>
    match events !! j with
    | Some p =>
      if option_string_eqb (prev_hash e) (Some (hash p)) then []
      else [PrevHashMismatch i (hash p) (prev_hash e)]
    | None => []
    end
  end.

Definition violations_at (events : list SignedEvent) (pk : string) (i : nat)
  : list ChainError :=
  match events !! i with
  | Some e => event_violations pk i e ++ link_violations events i e
  | None => []
  end.

(** The loop adds an error at index [i]. *)
Definition flagged (events : list SignedEvent) (pk : string) (i : nat) : bool :=
  negb (is_nil (violations_at events pk i)).

End WithPrimitives.
End ChainSpec.

Module CapabilitySpec.
Import Capabilities.

(** The action has the shape [<namespace>:<verb>]. *)
Fixpoint has_colon (s : string) : bool :=
  match s with
  | EmptyString => false
  | String c rest => Ascii.eqb c ":"%char || has_colon rest
  end.

(** A scope value is [true] or a constraint object. *)
Definition scope_value (v : jsval) : Prop :=
  v = JBool true \/ exists fields, v = JObj fields.

Definition scope_wellformed (c : Capability) : Prop :=
  forall key v, scope c !! key = Some v -> scope_value v.

(** An active, non-expired capability of the agent, as
    [findActiveForAgent] selects them. *)
Definition active_for (caps : list Capability) (now : Z) (agent : string)
    (c : Capability) : Prop :=
  c ∈ caps /\ agentId c = agent /\ status c = active /\ now <= expiresAt c.

(** The wildcard key for an action. *)
Definition wildcard (action : string) : string := split_head action +:+ ":*".

(** The capability's scope contains the action or its wildcard. *)
Definition grants (c : Capability) (action : string) : Prop :=
  is_Some (scope c !! action) \/ is_Some (scope c !! wildcard action).

(** The value a granting capability carries for the action: the entry
    of the action itself, or else the entry of the wildcard. *)
Definition granted_value (c : Capability) (action : string) (v : jsval) : Prop :=
  scope c !! action = Some v
  \/ (scope c !! action = None /\ scope c !! wildcard action = Some v).

Section WithPrimitives.
Context `{Primitives}.

(** The boundary rule as the specification words it: a capability whose
    [expires_at] is at or before the current time does not validate. *)
Definition expiry_inclusive (caps : list Capability) (now : Z) (token : string)
  : Prop :=
  forall c, findByTokenHash caps (sha256 token) = Some c ->
            expiresAt c <= now ->
            exists c' reason, validateToken caps now token = Invalid c' reason.

End WithPrimitives.
End CapabilitySpec.

Module KeystoreSpec.
Import Keystore.

(** The keystore with its stored ciphertext replaced. *)
Definition with_ciphertext (ks : EncryptedKeystore) (s : string) : EncryptedKeystore :=
  {| version := version ks;
     crypto := {| cipher := cipher (crypto ks); ciphertext := s;
                  kdf := kdf (crypto ks); kdfparams := kdfparams (crypto ks);
                  mac := mac (crypto ks) |};
     id := id ks; agent_id := agent_id ks |}.

(** The keystore with its stored MAC replaced. *)
Definition with_mac (ks : EncryptedKeystore) (m : string) : EncryptedKeystore :=
  {| version := version ks;
     crypto := {| cipher := cipher (crypto ks); ciphertext := ciphertext (crypto ks);
                  kdf := kdf (crypto ks); kdfparams := kdfparams (crypto ks);
                  mac := m |};
     id := id ks; agent_id := agent_id ks |}.

(** The keystore with other recorded cost parameters. *)
Definition with_cost (ks : EncryptedKeystore) (opts : ScryptOptions)
  : EncryptedKeystore :=
  {| version := version ks;
     crypto := {| cipher := cipher (crypto ks); ciphertext := ciphertext (crypto ks);
                  kdf := kdf (crypto ks);
                  kdfparams :=
                    {| salt := salt (kdfparams (crypto ks));
                       n := cost opts; r := blockSize opts;
                       p := parallelization opts;
                       dklen := dklen (kdfparams (crypto ks)) |};
                  mac := mac (crypto ks) |};
     id := id ks; agent_id := agent_id ks |}.

(** The cost parameters a keystore records. *)
Definition recorded_options (ks : EncryptedKeystore) : ScryptOptions :=
  {| cost := n (kdfparams (crypto ks));
     blockSize := r (kdfparams (crypto ks));
     parallelization := p (kdfparams (crypto ks)) |}.

(** The parameters of the specification: [N=262144, r=8, p=1]. *)
Definition spec_options : ScryptOptions :=
  {| cost := 262144; blockSize := 8; parallelization := 1 |}.

End KeystoreSpec.

Module AuthSpec.

(** The reply to a request whose timestamp is outside the window. *)
Definition expired_reply : Auth.Reply :=
  {| Auth.statusCode := 401; Auth.error := "Timestamp expired" |}.

End AuthSpec.

Module QuerySpec.
Import Events.

(** The same filters with the [limit] property absent. *)
Definition without_limit (filters : EventFilters) : EventFilters :=
  {| f_agentId := f_agentId filters;
     f_eventType := f_eventType filters;
     f_correlationId := f_correlationId filters;
     f_since := f_since filters;
     f_until := f_until filters;
     f_limit := None;
     f_offset := f_offset filters |}.

(** The events a query is about. *)
Definition matching (events : list Event) (filters : EventFilters) : list Event :=
  filter (fun e => matches filters e = true) events.

(** The [limit] parameter is omitted or empty. *)
Definition limit_omitted (query : EventRoutes.Query) : Prop :=
  EventRoutes.limit query = None \/ EventRoutes.limit query = Some EmptyString.

End QuerySpec.

(** * Further functions of the same sources *)

(** ** Linkage-only verification ([verification.ts], [verifyChainLinkage]) *)

Module Linkage.
Import Verification.

Inductive LinkError : Type :=
| FirstNotNull
| ChainBroken (i : nat) (expected : string) (got : option string).

Record LinkageResult : Type := {
  l_valid : bool;
  l_errors : list LinkError
}.

(** The body of [for (let i = 1; i < events.length; i++)]. *)
Definition link_step (events : list SignedEvent) (i : nat)
    (errors : list LinkError) : list LinkError :=
  match events !! i, events !! (i - 1)%nat with
  | Some event, Some previous =>
    let previousHash := hash previous in
    if option_string_eqb (prev_hash event) (Some previousHash) then errors
    else errors ++ [ChainBroken i previousHash (prev_hash event)]
  | _, _ => errors
  end.

Fixpoint link_loop (events : list SignedEvent) (n i : nat)
    (errors : list LinkError) : list LinkError :=
  match n with
  | O => errors
  | S n' => link_loop events n' (S i) (link_step events i errors)
  end.

(** [verifyChainLinkage]. *)
Definition verifyChainLinkage (events : list SignedEvent) : LinkageResult :=
  match events with
  | [] => {| l_valid := true; l_errors := [] |}
  | first :: _ =>
    let errors0 :=
      match prev_hash first with
      | Some _ => [FirstNotNull]
      | None => []
      end in
    let errors := link_loop events (length events - 1) 1 errors0 in
    {| l_valid := is_nil errors; l_errors := errors |}
  end.

End Linkage.

(** ** Signing ([signing.ts]) *)

(** The signing side of Ed25519: [signAsync] on the UTF-8 message and
    the hex-decoded private key, rendered in hex ([None]: it throws),
    and the public key of a private key. *)
Class Signer : Type := {
  ed25519_sign : string -> string -> option string;
  ed25519_getPublicKey : string -> string
}.

(** A signature that was produced verifies under the public key of the
    signing key. *)
Class SignatureScheme `{Primitives} `{Signer} : Prop := {
  sign_verify : forall privateKeyHex message sig,
    ed25519_sign privateKeyHex message = Some sig ->
    ed25519_verify sig message (ed25519_getPublicKey privateKeyHex) = inl true
}.

Module Signing.
Import Verification.

Section WithPrimitives.
Context `{Primitives} `{Signer}.

(** [{...event, hash, signature}]. *)
Definition with_signature (event : UnsignedEvent) (hash signature : string)
  : SignedEvent :=
  {| agent_id := u_agent_id event;
     event_type := u_event_type event;
     timestamp := u_timestamp event;
     prev_hash := u_prev_hash event;
     payload := u_payload event;
     correlation_id := u_correlation_id event;
     Verification.hash := hash;
     Verification.signature := signature |}.

(** [signEvent]: on an unsigned event [prepareForSigning] removes
    nothing. *)
Definition signEvent (event : UnsignedEvent) (privateKeyHex : string)
  : option SignedEvent :=
  let canonicalJSON := toCanonicalJSON event in
  let hash := sha256 canonicalJSON in
  match ed25519_sign privateKeyHex canonicalJSON with
  | Some signature => Some (with_signature event hash signature)
  | None => None
  end.

(** [linkToPrevious]: [{...event, prev_hash: previousHash}]. *)
Definition linkToPrevious (event : UnsignedEvent) (previousHash : option string)
  : UnsignedEvent :=
  {| u_agent_id := u_agent_id event;
     u_event_type := u_event_type event;
     u_timestamp := u_timestamp event;
     u_prev_hash := previousHash;
     u_payload := u_payload event;
     u_correlation_id := u_correlation_id event |}.

(** [signEventInChain]. *)
Definition signEventInChain (event : UnsignedEvent) (previousHash : option string)
    (privateKeyHex : string) : option SignedEvent :=
  signEvent (linkToPrevious event previousHash) privateKeyHex.

(** The loop with which a chain is built ([verification.test.ts], and
    [TrustClient.appendEvent] with its [lastEventHash]): each event is
    signed over the hash of the one before. *)
Fixpoint sign_chain (privateKeyHex : string) (prevHash : option string)
    (events : list UnsignedEvent) : option (list SignedEvent) :=
  match events with
  | [] => Some []
  | event :: rest =>
    match signEventInChain event prevHash privateKeyHex with
    | None => None
    | Some signed =>
      match sign_chain privateKeyHex (Some (Verification.hash signed)) rest with
      | None => None
      | Some chain => Some (signed :: chain)
      end
    end
  end.

End WithPrimitives.
End Signing.

(** ** More of the event repository and service *)

Module Ledger.

(** [EventRepository.findByHash]. *)
Definition findByHash (events : list Events.Event) (h : string)
  : option Events.Event :=
  head (filter (fun e => Events.hash e = h) events).

(** [EventRepository.findById]. *)
Definition findById (events : list Events.Event) (id : Z) : option Events.Event :=
  head (filter (fun e => Events.id e = id) events).

(** [EventService.getLastEventHash]. *)
Definition getLastEventHash (db : EventService.Db) (agent : string)
  : option string :=
  Events.hash <$> Events.getLastEventForAgent (EventService.events db) agent.

(** [EventService.getEvent]: the error is the thrown [Event not found]. *)
Definition getEvent (db : EventService.Db) (id : Z) : Events.Event + Z :=
  match findById (EventService.events db) id with
  | Some event => inl event
  | None => inr id
  end.

Section WithPrimitives.
Context `{Primitives} `{Signer}.

(** The request [TrustClient.appendEvent] submits, as it reaches
    [EventService.appendEvent]: the event is signed over the client's
    [lastEventHash], and the body carries the signed timestamp, the
    hash and the signature.  The body holds the timestamp as the ISO
    string that was signed and the route reads it back with [new Date];
    that this gives the signed instant again is taken for granted
    here. *)
Definition client_append (agentId privateKey : string) (lastEventHash : option string)
    (eventType : string) (timestamp : Z) (payload : jsval)
    (correlationId : option string) : option EventService.AppendEventRequest :=
  match Signing.signEventInChain
          {| Verification.u_agent_id := agentId;
             Verification.u_event_type := eventType;
             Verification.u_timestamp := toISOString timestamp;
             Verification.u_prev_hash := None;
             Verification.u_payload := payload;
             Verification.u_correlation_id := correlationId |}
          lastEventHash privateKey with
  | None => None
  | Some signedEvent =>
    Some {| EventService.agentId := agentId;
            EventService.eventType := eventType;
            EventService.timestamp := Some timestamp;
            EventService.payload := payload;
            EventService.correlationId := correlationId;
            EventService.hash := Verification.hash signedEvent;
            EventService.signature := Verification.signature signedEvent |}
  end.

End WithPrimitives.
End Ledger.

(** The signing side of the reference instance: the public key of a
    private key is the key itself, and the empty key is refused. *)
Module ModelSigner.

#[export] Instance signer : Signer :=
  {| ed25519_sign := fun privateKeyHex message =>
       if String.eqb privateKeyHex EmptyString then None
       else Some (Model.sign privateKeyHex message);
     ed25519_getPublicKey := fun privateKeyHex => privateKeyHex |}.

End ModelSigner.

(** ** Capability lifecycle ([capability.service.ts],
    [capability.repository.ts]) *)

Module CapabilityService.
Import Capabilities.

Record MintCapabilityRequest : Type := {
  m_agentId : string;
  m_scope : gmap string jsval;
  m_issuedBy : string;
  m_expiresAt : Z
}.

Inductive CapabilityError : Type :=
| ForeignKeyViolation (column : string)
| UniqueViolation (column : string)
| CapabilityNotFound (capabilityId : string)
| AlreadyRevoked.

(** What one [mintCapability] call draws: [randomBytes(32)], and the
    uuid the [id] column defaults to. *)
Record MintEntropy : Type := {
  random_token : bytes;
  random_uuid : string
}.

(** [CapabilityRepository.create]: the insert fails when [agent_id]
    names no agent (foreign key), or when the [id] (primary key) or the
    [token_hash] (unique) is taken; otherwise the row is stored. *)
Definition create (agents : list Agents.Agent) (caps : list Capability)
    (row : Capability) : list Capability * (Capability + CapabilityError) :=
  match Agents.findById agents (agentId row) with
  | None => (caps, inr (ForeignKeyViolation "agent_id"))
  | Some _ =>
    if existsb (fun c => String.eqb (id c) (id row)) caps
    then (caps, inr (UniqueViolation "id"))
    else if existsb (fun c => String.eqb (tokenHash c) (tokenHash row)) caps
    then (caps, inr (UniqueViolation "token_hash"))
    else (caps ++ [row], inl row)
  end.

(** [CapabilityRepository.findById]. *)
Definition findById (caps : list Capability) (capabilityId : string)
  : option Capability :=
  head (filter (fun c => id c = capabilityId) caps).

(** [CapabilityRepository.findAllForAgent]. *)
Definition findAllForAgent (caps : list Capability) (agent : string)
  : list Capability :=
  filter (fun c => agentId c = agent) caps.

(** [set({status: 'revoked', revokedAt: new Date()})] on one row. *)
Definition revoked_row (now : Z) (c : Capability) : Capability :=
  {| id := id c; agentId := agentId c; scope := scope c;
     issuedBy := issuedBy c; issuedAt := issuedAt c;
     expiresAt := expiresAt c; status := revoked;
     tokenHash := tokenHash c; revokedAt := Some now |}.

(** [CapabilityRepository.revoke]: the table after the update, and the
    first returned row. *)
Definition revoke (caps : list Capability) (now : Z) (capabilityId : string)
  : list Capability * option Capability :=
  (map (fun c => if String.eqb (id c) capabilityId then revoked_row now c else c) caps,
   head (map (revoked_row now) (filter (fun c => id c = capabilityId) caps))).

(** [CapabilityRepository.revokeAllForAgent]: the table after the
    update.  The number the method returns is read off the driver's
    result object and is left out. *)
Definition revokeAllForAgent (caps : list Capability) (now : Z) (agent : string)
  : list Capability :=
  map (fun c => if String.eqb (agentId c) agent && status_eqb (status c) active
                then revoked_row now c else c) caps.

Section WithPrimitives.
Context `{Primitives}.

(** [mintCapability]: the token is the hex form of the random bytes and
    only its digest is stored. *)
Definition mintCapability (agents : list Agents.Agent) (caps : list Capability)
    (entropy : MintEntropy) (now : Z) (request : MintCapabilityRequest)
  : list Capability * (Capability * string + CapabilityError) :=
  let token := Keystore.to_hex (random_token entropy) in
  let tokenHash := sha256 token in
  let newCapability :=
    {| id := random_uuid entropy;
       agentId := m_agentId request;
       scope := m_scope request;
       issuedBy := m_issuedBy request;
       issuedAt := now;
       expiresAt := m_expiresAt request;
       status := active;
       Capabilities.tokenHash := tokenHash;
       revokedAt := None |} in
  match create agents caps newCapability with
  | (caps', inl capability) => (caps', inl (capability, token))
  | (caps', inr e) => (caps', inr e)
  end.

End WithPrimitives.

(** [listCapabilities]. *)
Definition listCapabilities (caps : list Capability) (now : Z) (agent : string)
    (activeOnly : bool) : list Capability :=
  if activeOnly then findActiveForAgent caps now agent
  else findAllForAgent caps agent.

(** [revokeCapability]. *)
Definition revokeCapability (caps : list Capability) (now : Z)
    (capabilityId : string)
  : list Capability * (option Capability + CapabilityError) :=
  match findById caps capabilityId with
  | None => (caps, inr (CapabilityNotFound capabilityId))
  | Some capability =>
    if status_eqb (status capability) revoked then (caps, inr AlreadyRevoked)
    else
      let (caps', returned) := revoke caps now capabilityId in
      (caps', inl returned)
  end.

End CapabilityService.

Module LifecycleSpec.
Import Capabilities.

(** The parts of a validation answer that do not depend on the stored
    status: whether it is valid, the reason, and the capability's id. *)
Definition verdict (r : ValidateResult) : option string * option string :=
  match r with
  | Valid c => (None, Some (id c))
  | Invalid c reason => (Some reason, id <$> c)
  end.

Definition is_valid (r : ValidateResult) : bool :=
  match r with Valid _ => true | Invalid _ _ => false end.

End LifecycleSpec.

(** ** Keys ([keys.ts]) and the agent registry ([agent.service.ts],
    [agent.repository.ts]) *)

Module Keys.

(** [bytesToHex]: [Buffer.from(bytes).toString('hex')]. *)
Definition bytesToHex (b : bytes) : string := Keystore.to_hex b.

(** [hexToBytes]: [Uint8Array.from(Buffer.from(hex, 'hex'))]. *)
Definition hexToBytes (hex : string) : bytes := Keystore.from_hex hex.

Section WithPrimitives.
Context `{Primitives}.

(** [deriveAgentId]: the hex digest of the public key bytes. *)
Definition deriveAgentId (publicKey : bytes) : string := sha256_buffer publicKey.

Record AgentIdentity : Type := {
  i_agentId : string;
  i_privateKey : string;
  i_publicKey : string
}.

(** [generateAgentIdentity], for the key pair [generateKeypair] gave. *)
Definition generateAgentIdentity (privateKey publicKey : bytes) : AgentIdentity :=
  {| i_agentId := deriveAgentId publicKey;
     i_privateKey := bytesToHex privateKey;
     i_publicKey := bytesToHex publicKey |}.

End WithPrimitives.
End Keys.

Module AgentService.
Import Agents.

Inductive RegistryError : Type :=
| InvalidPublicKeyFormat
| AlreadyRegistered
| UniqueViolation (column : string)
| AgentNotFound (agentId : string)
| AlreadyRevoked
| NotActive (status : AgentStatus).

(** [[0-9a-f]] under the [i] flag. *)
Definition hex_digit (c : ascii) : bool :=
  match Keystore.hex_value c with Some _ => true | None => false end.

Fixpoint all_hex (s : string) : bool :=
  match s with
  | EmptyString => true
  | String c rest => hex_digit c && all_hex rest
  end.

(** [/^[0-9a-f]{64}$/i.test(publicKey)]. *)
Definition public_key_format (publicKey : string) : bool :=
  (String.length publicKey =? 64)%nat && all_hex publicKey.

(** [AgentRepository.findByPublicKey]. *)
Definition findByPublicKey (agents : list Agent) (key : string) : option Agent :=
  head (filter (fun a => publicKey a = key) agents).

(** [AgentRepository.create]: [agent_id] is the primary key and
    [public_key] is unique. *)
Definition create (agents : list Agent) (row : Agent)
  : list Agent * (Agent + RegistryError) :=
  if existsb (fun a => String.eqb (agentId a) (agentId row)) agents
  then (agents, inr (UniqueViolation "agent_id"))
  else if existsb (fun a => String.eqb (publicKey a) (publicKey row)) agents
  then (agents, inr (UniqueViolation "public_key"))
  else (agents ++ [row], inl row).

Definition revoked_row (a : Agent) : Agent :=
  {| agentId := agentId a; publicKey := publicKey a; status := revoked |}.

(** [AgentRepository.revoke]: the table after the update, and the first
    returned row. *)
Definition revoke (agents : list Agent) (id : string)
  : list Agent * option Agent :=
  (map (fun a => if String.eqb (agentId a) id then revoked_row a else a) agents,
   head (map revoked_row (filter (fun a => agentId a = id) agents))).

Section WithPrimitives.
Context `{Primitives}.

(** [registerAgent].  Of the row only the id, the key and the status
    are kept here; name, owner and metadata play no part in what
    follows. *)
Definition registerAgent (agents : list Agent) (key : string)
  : list Agent * (Agent + RegistryError) :=
  if negb (public_key_format key) then (agents, inr InvalidPublicKeyFormat)
  else
    match findByPublicKey agents key with
    | Some _ => (agents, inr AlreadyRegistered)
    | None =>
      let publicKeyBytes := Keystore.from_hex key in
      let agentId := Keys.deriveAgentId publicKeyBytes in
      create agents {| Agents.agentId := agentId; publicKey := key;
                       status := active |}
    end.

End WithPrimitives.

(** [getAgent]. *)
Definition getAgent (agents : list Agent) (id : string) : Agent + RegistryError :=
  match findById agents id with
  | Some agent => inl agent
  | None => inr (AgentNotFound id)
  end.

(** [revokeAgent]; the optional reason only goes into the metadata. *)
Definition revokeAgent (agents : list Agent) (id : string)
  : list Agent * (option Agent + RegistryError) :=
  match getAgent agents id with
  | inr e => (agents, inr e)
  | inl agent =>
    if status_eqb (status agent) revoked then (agents, inr AlreadyRevoked)
    else
      let (agents', returned) := revoke agents id in
      (agents', inl returned)
  end.

(** [verifyAgentActive]: [None] when it returns, the thrown error
    otherwise. *)
Definition verifyAgentActive (agents : list Agent) (id : string)
  : option RegistryError :=
  match getAgent agents id with
  | inr e => Some e
  | inl agent =>
    if negb (status_eqb (status agent) active) then Some (NotActive (status agent))
    else None
  end.

End AgentService.

Module HexSpec.

(** [String.prototype.toLowerCase] on the letters of a hex string. *)
Definition lower (c : ascii) : ascii :=
  let n := N_of_ascii c in
  if ((65 <=? n) && (n <=? 90))%N then ascii_of_N (n + 32) else c.

Fixpoint toLowerCase (s : string) : string :=
  match s with
  | EmptyString => EmptyString
  | String c rest => String (lower c) (toLowerCase rest)
  end.

(** An even number of hex digits. *)
Definition wellformed (hex : string) : Prop :=
  AgentService.all_hex hex = true /\ Nat.Even (String.length hex).

End HexSpec.

(** ** Specification predicates for the further functions *)

Module LedgerSpec.
Import Verification.

(** The linkage rules alone. *)
Definition linkage_ok (events : list SignedEvent) : Prop :=
  (forall e, events !! 0%nat = Some e -> prev_hash e = None)
  /\ (forall i p e, events !! i = Some p -> events !! S i = Some e ->
        prev_hash e = Some (hash p)).

(** No stored event of the agent is later than [t]. *)
Definition not_before (events : list Events.Event) (agent : string) (t : Z) : Prop :=
  forall e, e ∈ events -> Events.agentId e = agent -> Events.timestamp e <= t.

Definition unique_ids (events : list Events.Event) : Prop :=
  NoDup (map Events.id events).

Definition unique_hashes (events : list Events.Event) : Prop :=
  NoDup (map Events.hash events).

Section WithPrimitives.
Context `{Primitives}.

(** The event as the server rebuilds it in [appendEvent]. *)
Definition server_view (db : EventService.Db) (now1 : Z)
    (request : EventService.AppendEventRequest) : SignedEvent :=
  {| agent_id := EventService.agentId request;
     event_type := EventService.eventType request;
     timestamp := toISOString (default now1 (EventService.timestamp request));
     prev_hash := Events.hash <$> Events.getLastEventForAgent
                                    (EventService.events db)
                                    (EventService.agentId request);
     payload := EventService.payload request;
     correlation_id := EventService.correlationId request;
     hash := EventService.hash request;
     signature := EventService.signature request |}.

(** The row [appendEvent] inserts. *)
Definition new_row (db : EventService.Db) (now2 : Z)
    (request : EventService.AppendEventRequest) : Events.Event :=
  {| Events.id := Events.next_id (EventService.events db);
     Events.agentId := EventService.agentId request;
     Events.eventType := EventService.eventType request;
     Events.timestamp := default now2 (EventService.timestamp request);
     Events.prevHash := Events.hash <$> Events.getLastEventForAgent
                                          (EventService.events db)
                                          (EventService.agentId request);
     Events.hash := EventService.hash request;
     Events.payload := EventService.payload request;
     Events.signature := EventService.signature request;
     Events.correlationId := EventService.correlationId request |}.

(** The conditions under which a request is admitted. *)
Definition admissible (db : EventService.Db) (now1 : Z)
    (request : EventService.AppendEventRequest) : Prop :=
  (exists agent,
      Agents.findById (EventService.agents db) (EventService.agentId request)
      = Some agent
      /\ Agents.status agent = Agents.active
      /\ ChainSpec.event_ok (Agents.publicKey agent) (server_view db now1 request))
  /\ forall e, e ∈ EventService.events db ->
               Events.hash e <> EventService.hash request.

(** The chain of the agent verifies. *)
Definition chain_valid (db : EventService.Db) (agent : string) : bool :=
  match EventService.verifyAgentChain db agent with
  | inl r => c_valid r
  | inr _ => false
  end.

(** The ledgers reached from an empty ledger by admitted requests that
    carry their own timestamp, no later event of the same agent being
    stored already. *)
Inductive reachable (agents : list Agents.Agent) : EventService.Db -> Prop :=
| reachable_empty :
    reachable agents {| EventService.agents := agents; EventService.events := [] |}
| reachable_append db now1 now2 request t db' event :
    reachable agents db ->
    EventService.appendEvent db now1 now2 request = (db', inl event) ->
    EventService.timestamp request = Some t ->
    EventService.correlationId request <> Some EmptyString ->
    not_before (EventService.events db) (EventService.agentId request) t ->
    reachable agents db'.

End WithPrimitives.
End LedgerSpec.

(** ** The other authentication hooks ([middleware/auth.ts]) *)

Module AuthHooks.
Import Auth.

(** [process.env.SERVICE_API_KEY || 'dev-service-key-change-in-production']. *)
Definition serviceApiKey (env : option string) : string :=
  if str_truthy env then default EmptyString env
  else "dev-service-key-change-in-production".

(** A request with all four authentication headers. *)
Record AuthRequest : Type := {
  x_service_key : option string;
  request : Request
}.

Definition unauthorized : Reply := {| statusCode := 401; error := "Unauthorized" |}.

(** [verifyServiceKey]: [None] when the hook returns without a reply. *)
Definition verifyServiceKey (key : string) (serviceKey : option string)
  : option Reply :=
  if negb (str_truthy serviceKey) || negb (bool_decide (serviceKey = Some key))
  then Some unauthorized
  else None.

Section WithPrimitives.
Context `{Primitives}.

(** [verifyAuth]: a reply, or the request goes on, with the agent
    attached when it came in by signature. *)
Definition verifyAuth (key : string) (config : Config) (agents : list Agents.Agent)
    (now_ms : Z) (r : AuthRequest) : option Agents.Agent + Reply :=
  let hasServiceKey := str_truthy (x_service_key r) in
  let hasAgentAuth :=
    str_truthy (x_agent_id (request r))
    && str_truthy (x_timestamp (request r))
    && str_truthy (x_signature (request r)) in
  if hasServiceKey then
    match verifyServiceKey key (x_service_key r) with
    | Some reply => inr reply
    | None => inl None
    end
  else if hasAgentAuth then
    match verifyAgentSignature config agents now_ms (request r) with
    | inl agent => inl (Some agent)
    | inr reply => inr reply
    end
  else inr unauthorized.

End WithPrimitives.
End AuthHooks.

(** ** Rate limiter ([middleware/ratelimit.ts]) *)

Module RateLimit.

Record Entry : Type := {
  count : Z;
  resetAt : Z
}.

(** [rateLimitStore]: one [Map] of the module, shared by every limiter
    that [createRateLimiter] returns. *)
Abbreviation Store := (gmap string Entry) (only parsing).

Record Options : Type := {
  maxRequests : jsnum;
  windowMs : Z
}.

(** What the hook does to the reply: a 429 with its [retryAfter], or
    the three headers. *)
Inductive Outcome : Type :=
| TooManyRequests (retryAfter : Z)
| Passed (limit remaining : jsnum) (reset : Z).

(** [Math.ceil(x / 1000)] for an integer [x]. *)
Definition ceil_seconds (x : Z) : Z := - ((- x) / 1000).

Definition js_sub (a : jsnum) (b : Z) : jsnum :=
  match a with Some a => Some (a - b) | None => None end.

(** The record the request is counted on: the stored one, or a new one
    when there is none or its window has expired. *)
Definition current (options : Options) (store : Store) (key : string) (now : Z)
  : Entry :=
  match store !! key with
  | Some record =>
    if (resetAt record <? now)%Z
    then {| count := 0; resetAt := now + windowMs options |}
    else record
  | None => {| count := 0; resetAt := now + windowMs options |}
  end.

(** The hook [rateLimiter], for the key of the request and the reading
    of the clock.  [record.count++] updates the record held by the
    store. *)
Definition rateLimiter (options : Options) (store : Store) (key : string) (now : Z)
  : Store * Outcome :=
  let record := current options store key now in
  let record := {| count := count record + 1; resetAt := resetAt record |} in
  let store := <[key := record]> store in
  if js_gt (Some (count record)) (maxRequests options)
  then (store, TooManyRequests (ceil_seconds (resetAt record - now)))
  else (store, Passed (maxRequests options)
                 (js_sub (maxRequests options) (count record))
                 (ceil_seconds (resetAt record))).

(** The [setInterval] callback: records more than a minute past their
    reset are deleted. *)
Definition cleanup (store : Store) (now : Z) : Store :=
  filter (fun kv => ~ (resetAt kv.2 + 60000 < now)) store.

(** The key of the global limiter ([index.ts]):
    [agentId || request.ip]. *)
Definition keyGenerator (x_agent_id : option string) (ip : string) : string :=
  if str_truthy x_agent_id then default EmptyString x_agent_id else ip.

(** The hook run on a sequence of requests, each with its key and the
    reading of the clock. *)
Fixpoint run (options : Options) (store : Store) (requests : list (string * Z))
  : Store * list Outcome :=
  match requests with
  | [] => (store, [])
  | (key, now) :: rest =>
    let (store', outcome) := rateLimiter options store key now in
    let (store'', outcomes) := run options store' rest in
    (store'', outcome :: outcomes)
  end.

End RateLimit.

Module RateLimitSpec.
Import RateLimit.

(** The number of requests with the key. *)
Definition requests_of (key : string) (requests : list (string * Z)) : Z :=
  Z.of_nat (length (filter (fun r => r.1 = key) requests)).

(** The store holds no record of the key that is still running at
    [now]. *)
Definition no_window (store : Store) (key : string) (now : Z) : Prop :=
  forall record, store !! key = Some record -> resetAt record < now.

Definition passed (o : Outcome) : bool :=
  match o with Passed _ _ _ => true | TooManyRequests _ => false end.

End RateLimitSpec.

(** ** Hashes that stand for their events *)

Module BindingSpec.
Import Verification.

(** Between the two chains, events with the same hash have the same
    signed content: there is no collision of the digest among them. *)
Definition collision_free (a b : list SignedEvent) : Prop :=
  forall x y, x ∈ a -> y ∈ b -> hash x = hash y ->
              prepareForSigning x = prepareForSigning y.

End BindingSpec.

(** ** Reading of the event filters *)

Module FilterSpec.
Import Events.

(** What the pushed conditions ask of a row: an absent or empty string
    filter asks nothing. *)
Definition satisfies (filters : EventFilters) (e : Event) : Prop :=
  (forall a, f_agentId filters = Some a -> a <> EmptyString -> agentId e = a)
  /\ (forall ty, f_eventType filters = Some ty -> ty <> EmptyString ->
        eventType e = ty)
  /\ (forall c, f_correlationId filters = Some c -> c <> EmptyString ->
        correlationId e = Some c)
  /\ (forall s, f_since filters = Some (Some s) -> s <= timestamp e)
  /\ (forall u, f_until filters = Some (Some u) -> timestamp e <= u).

(** The rows skipped by the [OFFSET] clause, if there is one. *)
Definition skipped (filters : EventFilters) : nat :=
  match offset_clause filters with Some m => Z.to_nat m | None => 0%nat end.

(** The number of rows of a page when [total] rows match. *)
Definition page_size (filters : EventFilters) (total : nat) : nat :=
  match limit_clause filters with
  | Some n => Nat.min (Z.to_nat n) (total - skipped filters)
  | None => (total - skipped filters)%nat
  end.

End FilterSpec.

(** ** More of the reputation service ([reputation.service.ts]) *)

Module ReputationService.
Import Reputation.

(** [getReputation]. *)
Definition getReputation (rows : list Reputation) (agent : string)
  : Reputation + ReputationError :=
  match findByAgentId rows agent with
  | Some reputation => inl reputation
  | None => inr (ReputationNotFound agent)
  end.

(** The reason of a downgrade, with the number its message quotes. *)
Inductive DowngradeReason : Type :=
| ScoreTooLow (overallScore : Q)
| FailureRateTooHigh (failureRate : Q)
| TooManyHarmful (harmfulActions : Z).

Definition CRITICAL_SCORE : Q := 20 # 1.
Definition HIGH_FAILURE_RATE : Q := 5 # 10.
Definition HARMFUL_THRESHOLD : Z := 5.

(** The three tests of [shouldDowngrade] on the row; [None] is
    [shouldDowngrade: false]. *)
Definition downgrade (reputation : Reputation) : option DowngradeReason :=
  if Qlt_le_dec (overallScore reputation) CRITICAL_SCORE
  then Some (ScoreTooLow (overallScore reputation))
  else if Qlt_le_dec HIGH_FAILURE_RATE (failureRate reputation)
  then Some (FailureRateTooHigh (failureRate reputation))
  else if (HARMFUL_THRESHOLD <=? harmfulActions reputation)%Z
  then Some (TooManyHarmful (harmfulActions reputation))
  else None.

(** [shouldDowngrade]. *)
Definition shouldDowngrade (rows : list Reputation) (agent : string)
  : option DowngradeReason + ReputationError :=
  match getReputation rows agent with
  | inl reputation => inl (downgrade reputation)
  | inr e => inr e
  end.

(** The row [updateDomainScore] writes:
    [{...current.breakdown, [domain]: score}]. *)
Definition with_domain (current : Reputation) (domain : string) (score : Q)
    (now : Z) : Reputation :=
  {| agentId := agentId current;
     overallScore := overallScore current;
     totalActions := totalActions current;
     successRate := successRate current;
     failureRate := failureRate current;
     harmfulActions := harmfulActions current;
     userCorrections := userCorrections current;
     breakdown := <[domain := score]> (breakdown current);
     lastUpdated := now |}.

(** [updateDomainScore]. *)
Definition updateDomainScore (rows : list Reputation) (now : Z) (agent : string)
    (domain : string) (score : Q)
  : list Reputation * (Reputation + ReputationError) :=
  match getReputation rows agent with
  | inr e => (rows, inr e)
  | inl current =>
    let row := with_domain current domain score now in
    (map (fun r => if String.eqb (agentId r) agent then row else r) rows, inl row)
  end.

End ReputationService.

(** ** Concrete data for the further functions *)

Module MoreExamples.
Import Model ModelSigner.

(** An event as the caller of [signEvent] hands it over. *)
Definition unsigned (i t : Z) : Verification.UnsignedEvent :=
  Examples.client_event None i t.

(** The first event, signed with the key of [Examples.alice]. *)
Definition signed1 : Verification.SignedEvent :=
  Signing.with_signature (unsigned 1 1000)
    (sha256 (Verification.toCanonicalJSON (unsigned 1 1000)))
    (Model.sign "pkA" (Verification.toCanonicalJSON (unsigned 1 1000))).

(** Two events signed in sequence. *)
Definition chain2 : list Verification.SignedEvent :=
  default [] (Signing.sign_chain "pkA" None [unsigned 1 1000; unsigned 2 2000]).

(** The same two events signed with another key. *)
Definition chain2b : list Verification.SignedEvent :=
  default [] (Signing.sign_chain "pkB" None [unsigned 1 1000; unsigned 2 2000]).

(** A third event, signed by a writer that links it to nothing. *)
Definition unlinked3 : Verification.SignedEvent :=
  Signing.with_signature (unsigned 3 3000)
    (sha256 (Verification.toCanonicalJSON (unsigned 3 3000)))
    (Model.sign "pkA" (Verification.toCanonicalJSON (unsigned 3 3000))).

(** The ledger after the first two requests of [Examples]. *)
Definition ledger2 : EventService.Db :=
  fst (EventService.appendEvent Examples.ledger1 5000 5000 Examples.request2).

Definition row1 : Events.Event :=
  LedgerSpec.new_row Examples.empty_ledger 5000 Examples.request1.

Definition row2 : Events.Event :=
  LedgerSpec.new_row Examples.ledger1 5000 Examples.request2.

(** An event dated before the stored one, signed over the stored
    event's hash. *)
Definition backdated_request : EventService.AppendEventRequest :=
  Examples.client_request (Some (EventService.hash Examples.request1)) 2 500.

(** One [mintCapability] call for [Examples.alice]. *)
Definition mint_entropy : CapabilityService.MintEntropy :=
  {| CapabilityService.random_token := repeat x2a 32;
     CapabilityService.random_uuid := "c9" |}.

Definition mint_request : CapabilityService.MintCapabilityRequest :=
  {| CapabilityService.m_agentId := "a11ce";
     CapabilityService.m_scope := {[ "tool:web.read" := JBool true ]};
     CapabilityService.m_issuedBy := "admin";
     CapabilityService.m_expiresAt := 1000 |}.

Definition minted_token : string :=
  Keystore.to_hex (CapabilityService.random_token mint_entropy).

Definition minted : Capabilities.Capability :=
  {| Capabilities.id := "c9"; Capabilities.agentId := "a11ce";
     Capabilities.scope := {[ "tool:web.read" := JBool true ]};
     Capabilities.issuedBy := "admin"; Capabilities.issuedAt := 0;
     Capabilities.expiresAt := 1000; Capabilities.status := Capabilities.active;
     Capabilities.tokenHash := sha256 minted_token;
     Capabilities.revokedAt := None |}.

(** One public key, written in lower and in upper case. *)
Definition key_lower : string :=
  "abcdef0000000000000000000000000000000000000000000000000000000000".

Definition key_upper : string :=
  "ABCDEF0000000000000000000000000000000000000000000000000000000000".

Definition registered : Agents.Agent :=
  {| Agents.agentId := Keys.deriveAgentId (Keys.hexToBytes key_lower);
     Agents.publicKey := key_lower; Agents.status := Agents.active |}.

(** A limiter of two requests a minute, and four requests of two keys. *)
Definition two_a_minute : RateLimit.Options :=
  {| RateLimit.maxRequests := Some 2; RateLimit.windowMs := 60000 |}.

Definition later_requests : list (string * Z) := [("b", 5); ("a", 10); ("a", 20)].

(** A store with one record long past its reset. *)
Definition old_store : gmap string RateLimit.Entry :=
  {[ "k" := {| RateLimit.count := 3; RateLimit.resetAt := 1000 |} ]}.

End MoreExamples.

(** * Properties *)

(** ** Generic facts *)

Lemma option_string_eqb_eq (a b : option string) :
  Verification.option_string_eqb a b = true <-> a = b.
Proof.
  destruct a as [x|], b as [y|]; simpl; split; intros Hab;
    try discriminate; try reflexivity.
  - apply String.eqb_eq in Hab. by subst.
  - injection Hab as ->. apply String.eqb_refl.
Qed.

Lemma is_nil_true {A} (l : list A) : Verification.is_nil l = true <-> l = [].
Proof. destruct l; simpl; split; congruence. Qed.

(** The least element of an interval on which a test succeeds. *)
Lemma find_seq_least (f : nat -> bool) (n a i : nat) :
  List.find f (seq a n) = Some i <->
  (a <= i < a + n)%nat /\ f i = true /\ forall j, (a <= j < i)%nat -> f j = false.
Proof.
  revert a. induction n as [|n IH]; intros a; simpl.
  - split; [discriminate | lia].
  - destruct (f a) eqn:Ha.
    + split.
      * intros [= <-]. repeat split; try lia. done.
      * intros (Hi & Hfi & Hlt). f_equal.
        destruct (decide (a = i)) as [|Hne]; [done|].
        rewrite (Hlt a) in Ha; [discriminate | lia].
    + rewrite IH. split.
      * intros (Hi & Hfi & Hlt). repeat split; try lia; [done|].
        intros j Hj. destruct (decide (j = a)) as [->|]; [done|].
        apply Hlt. lia.
      * intros (Hi & Hfi & Hlt).
        assert (i <> a) by (intros ->; congruence).
        repeat split; try lia; [done|]. intros j Hj. apply Hlt. lia.
Qed.

Lemma find_seq_none (f : nat -> bool) (n a : nat) :
  List.find f (seq a n) = None <-> forall j, (a <= j < a + n)%nat -> f j = false.
Proof.
  revert a. induction n as [|n IH]; intros a; simpl.
  - split; [lia | done].
  - destruct (f a) eqn:Ha.
    + split; [discriminate|]. intros Hall. rewrite Hall in Ha; [done | lia].
    + rewrite IH. split; intros Hall j Hj.
      * destruct (decide (j = a)) as [->|]; [done|]. apply Hall. lia.
      * apply Hall. lia.
Qed.


(** The stable insertion sort that stands for [ORDER BY]. *)
Lemma insert_by_Permutation {A} (le : A -> A -> bool) (x : A) (l : list A) :
  Permutation (insert_by le x l) (x :: l).
Proof.
  induction l as [|y l IH]; simpl; [done|].
  destruct (le x y); [done|]. rewrite IH. apply perm_swap.
Qed.

Lemma sort_by_Permutation {A} (le : A -> A -> bool) (l : list A) :
  Permutation (sort_by le l) l.
Proof.
  induction l as [|x l IH]; simpl; [done|].
  rewrite insert_by_Permutation. by constructor.
Qed.

Lemma sort_by_length {A} (le : A -> A -> bool) (l : list A) :
  length (sort_by le l) = length l.
Proof. apply Permutation_length, sort_by_Permutation. Qed.

Lemma insert_by_Sorted {A} (le : A -> A -> bool) (x : A) (l : list A) :
  (forall a b, le a b = false -> le b a = true) ->
  Sorted (fun a b => le a b = true) l ->
  Sorted (fun a b => le a b = true) (insert_by le x l).
Proof.
  intros Htotal. induction 1 as [|y l Hsorted IH Hhd]; simpl.
  - by repeat constructor.
  - destruct (le x y) eqn:Hxy.
    + constructor; [by constructor | by constructor].
    + constructor; [done|].
      destruct l as [|z l]; simpl.
      * constructor. by apply Htotal.
      * destruct (le x z); constructor; [by apply Htotal|].
        by inversion Hhd.
Qed.

Lemma sort_by_Sorted {A} (le : A -> A -> bool) (l : list A) :
  (forall a b, le a b = false -> le b a = true) ->
  Sorted (fun a b => le a b = true) (sort_by le l).
Proof.
  intros Htotal. induction l as [|x l IH]; simpl; [constructor|].
  by apply insert_by_Sorted.
Qed.

Lemma earlier_first_total (a b : Events.Event) :
  Events.earlier_first a b = false -> Events.earlier_first b a = true.
Proof. unfold Events.earlier_first. lia. Qed.

(** ** Chain verification *)

Section ChainProofs.
Context `{Primitives}.
Import Verification ChainSpec.

Lemma verifyEvent_valid (e : SignedEvent) (pk : string) :
  valid (verifyEvent e pk) = true <-> event_ok pk e.
Proof.
  unfold verifyEvent, event_ok. simpl.
  destruct (String.eqb_spec
              (sha256 (toCanonicalJSON (prepareForSigning e))) (hash e)) as [Hh|Hh];
    destruct (ed25519_verify (signature e)
                (toCanonicalJSON (prepareForSigning e)) pk) as [[|]|msg];
    simpl; split; try done; intros [? ?]; congruence.
Qed.

Lemma verifyEvent_invalid (e : SignedEvent) (pk : string) :
  valid (verifyEvent e pk) = false <-> ~ event_ok pk e.
Proof.
  rewrite <- verifyEvent_valid. destruct (valid (verifyEvent e pk)); split; congruence.
Qed.

#[local] Arguments verifyEvent : simpl never.

Lemma chain_step_eq (events : list SignedEvent) (pk : string) (i : nat)
    (st : ChainState) :
  chain_step events pk i st =
  {| st_errors := st_errors st ++ violations_at events pk i;
     st_first := if is_nil (violations_at events pk i) then st_first st
                 else mark (st_first st) i |}.
Proof.
  unfold chain_step, violations_at.
  destruct (events !! i) as [e|] eqn:He; simpl.
  2: { rewrite app_nil_r. by destruct st. }
  unfold check_event, event_violations.
  destruct (valid (verifyEvent e pk)) eqn:Hv; simpl.
  - unfold check_link, link_violations. destruct i as [|j]; simpl.
    + rewrite app_nil_r. by destruct st.
    + destruct (events !! j) as [p|]; simpl.
      * destruct (option_string_eqb (prev_hash e) (Some (hash p))); simpl.
        -- rewrite app_nil_r. by destruct st.
        -- done.
      * rewrite app_nil_r. by destruct st.
  - unfold check_link, link_violations. destruct i as [|j]; simpl.
    + done.
    + destruct (events !! j) as [p|]; simpl.
      * destruct (option_string_eqb (prev_hash e) (Some (hash p))); simpl.
        -- done.
        -- rewrite <- app_assoc. simpl. by destruct (st_first st).
      * done.
Qed.

Lemma chain_loop_eq (events : list SignedEvent) (pk : string) (n i : nat)
    (st : ChainState) :
  chain_loop events pk n i st =
  {| st_errors := st_errors st ++ concat (map (violations_at events pk) (seq i n));
     st_first := match st_first st with
                 | Some j => Some j
                 | None => List.find (flagged events pk) (seq i n)
                 end |}.
Proof.
  revert i st. induction n as [|n IH]; intros i st; simpl.
  - rewrite app_nil_r. destruct st as [errs [j|]]; done.
  - rewrite IH, chain_step_eq. simpl. rewrite <- app_assoc. f_equal.
    unfold flagged.
    destruct (is_nil (violations_at events pk i)); simpl;
      destruct (st_first st); done.
Qed.

Lemma elem_of_concat_seq {A} (f : nat -> list A) (a n : nat) (x : A) :
  x ∈ concat (map f (seq a n)) <-> exists i, (a <= i < a + n)%nat /\ x ∈ f i.
Proof.
  rewrite list_elem_of_In, in_concat. split.
  - intros (l & Hl & Hx). apply in_map_iff in Hl as (i & <- & Hi).
    apply in_seq in Hi. exists i. by rewrite list_elem_of_In.
  - intros (i & Hi & Hx). exists (f i). split.
    + apply in_map_iff. exists i. split; [done|]. by apply in_seq.
    + by apply list_elem_of_In.
Qed.

Lemma violations_at_reported (events : list SignedEvent) (pk : string) (i : nat)
    (err : ChainError) :
  err ∈ violations_at events pk i <->
  reported events pk err /\ error_index err = i /\ err <> FirstPrevHashNotNull.
Proof.
  unfold violations_at. destruct (events !! i) as [e|] eqn:He.
  - rewrite elem_of_app. unfold event_violations, link_violations. split.
    + intros [Hin|Hin].
      * destruct (valid (verifyEvent e pk)) eqn:Hv; [by apply elem_of_nil in Hin|].
        apply list_elem_of_singleton in Hin as ->. simpl.
        repeat split; try done. exists e. repeat split; try done.
        by apply verifyEvent_invalid.
      * destruct i as [|j]; [by apply elem_of_nil in Hin|].
        destruct (events !! j) as [p|] eqn:Hp; [|by apply elem_of_nil in Hin].
        destruct (option_string_eqb (prev_hash e) (Some (hash p))) eqn:Hl;
          [by apply elem_of_nil in Hin|].
        apply list_elem_of_singleton in Hin as ->. simpl.
        repeat split; try done. exists j, p, e. repeat split; try done.
        intros Heq. apply option_string_eqb_eq in Heq. congruence.
    + intros (Hrep & Hidx & Hne).
      destruct err as [|k errs|k expected got]; simpl in Hidx, Hrep.
      * done.
      * subst k. destruct Hrep as (e' & He' & Hbad & ->).
        assert (e' = e) as -> by congruence.
        left. apply verifyEvent_invalid in Hbad. rewrite Hbad.
        by apply list_elem_of_singleton.
      * subst k. destruct Hrep as (j & p & e' & -> & Hp & He' & -> & -> & Hbad).
        assert (e' = e) as -> by congruence.
        right. rewrite Hp.
        destruct (option_string_eqb (prev_hash e) (Some (hash p))) eqn:Hl.
        -- apply option_string_eqb_eq in Hl. done.
        -- by apply list_elem_of_singleton.
  - split; [by intros Hin%elem_of_nil|].
    intros (Hrep & Hidx & Hne).
    destruct err as [|k errs|k expected got]; simpl in Hidx, Hrep.
    + done.
    + subst k. destruct Hrep as (e' & He' & _). congruence.
    + subst k. destruct Hrep as (j & p & e' & _ & _ & He' & _). congruence.
Qed.

Lemma check_first_reported (events : list SignedEvent) (pk : string)
    (err : ChainError) :
  err ∈ st_errors (check_first events) <->
  reported events pk err /\ err = FirstPrevHashNotNull.
Proof.
  unfold check_first. destruct (events !! 0%nat) as [e|] eqn:He.
  - destruct (prev_hash e) as [h|] eqn:Hp; simpl.
    + rewrite list_elem_of_singleton. split.
      * intros ->. split; [|done]. exists e. split; [done|]. congruence.
      * by intros [_ ->].
    + split; [by intros Hin%elem_of_nil|]. intros [Hrep ->].
      destruct Hrep as (e' & He' & Hbad). congruence.
  - simpl. split; [by intros Hin%elem_of_nil|]. intros [Hrep ->].
    destruct Hrep as (e' & He' & _). congruence.
Qed.

Lemma reported_in_range (events : list SignedEvent) (pk : string)
    (err : ChainError) :
  reported events pk err -> (error_index err < length events)%nat.
Proof.
  destruct err as [|k errs|k expected got]; simpl.
  - intros (e & He & _). by apply lookup_lt_Some in He.
  - intros (e & He & _). by apply lookup_lt_Some in He.
  - intros (j & p & e & _ & _ & He & _). by apply lookup_lt_Some in He.
Qed.

(** The errors of a non-empty chain, in the order they are pushed. *)
Lemma verifyEventChain_errors (events : list SignedEvent) (pk : string) :
  c_errors (verifyEventChain events pk) =
  st_errors (check_first events)
  ++ concat (map (violations_at events pk) (seq 0 (length events))).
Proof.
  unfold verifyEventChain. destruct events as [|e events]; [done|].
  by rewrite chain_loop_eq.
Qed.

Lemma verifyEventChain_first (events : list SignedEvent) (pk : string) :
  firstInvalidEvent (verifyEventChain events pk) =
  match st_first (check_first events) with
  | Some j => Some j
  | None => List.find (flagged events pk) (seq 0 (length events))
  end.
Proof.
  unfold verifyEventChain. destruct events as [|e events]; [done|].
  by rewrite chain_loop_eq.
Qed.

Lemma verifyEventChain_valid (events : list SignedEvent) (pk : string) :
  c_valid (verifyEventChain events pk) = is_nil (c_errors (verifyEventChain events pk)).
Proof. unfold verifyEventChain. by destruct events. Qed.

Lemma verifyEventChain_reported (events : list SignedEvent) (pk : string)
    (err : ChainError) :
  err ∈ c_errors (verifyEventChain events pk) <-> reported events pk err.
Proof.
  rewrite verifyEventChain_errors, elem_of_app, check_first_reported,
    elem_of_concat_seq.
  split.
  - intros [[Hrep _]|(i & _ & Hin)]; [done|].
    by apply violations_at_reported in Hin as (Hrep & _).
  - intros Hrep.
    assert (err = FirstPrevHashNotNull \/ err <> FirstPrevHashNotNull) as [->|Hne]
      by (destruct err; [by left | by right | by right]).
    + by left.
    + right. exists (error_index err). split.
      * apply reported_in_range in Hrep. lia.
      * by apply violations_at_reported.
Qed.

Lemma chain_ok_no_report (events : list SignedEvent) (pk : string) :
  chain_ok events pk <-> forall err, ~ reported events pk err.
Proof.
  split.
  - intros (Hfirst & Hev & Hlink) [|i errs|i expected got]; simpl.
    + intros (e & He & Hbad). by apply Hbad, Hfirst.
    + intros (e & He & Hbad & _). by apply Hbad, (Hev i).
    + intros (j & p & e & -> & Hp & He & _ & _ & Hbad). by apply Hbad, (Hlink j).
  - intros Hno. repeat split.
    + intros e He. destruct (prev_hash e) as [h|] eqn:Hp; [|done].
      exfalso. apply (Hno FirstPrevHashNotNull). exists e. split; [done|]. congruence.
    + destruct (decide (sha256 (toCanonicalJSON (prepareForSigning e)) = hash e))
        as [Hh|Hh]; [done|].
      exfalso. apply (Hno (EventInvalid i (errors (verifyEvent e pk)))).
      exists e. repeat split; try done. by intros [? _].
    + destruct (valid (verifyEvent e pk)) eqn:Hv.
      * by apply verifyEvent_valid in Hv as [_ ?].
      * exfalso. apply (Hno (EventInvalid i (errors (verifyEvent e pk)))).
        exists e. repeat split; try done. by apply verifyEvent_invalid.
    + intros i p e Hp He.
      destruct (decide (prev_hash e = Some (hash p))) as [|Hbad]; [done|].
      exfalso. apply (Hno (PrevHashMismatch (S i) (hash p) (prev_hash e))).
      by exists i, p, e.
Qed.


Lemma check_first_cases (events : list SignedEvent) :
  (st_first (check_first events) = Some 0%nat
   /\ st_errors (check_first events) = [FirstPrevHashNotNull])
  \/ (st_first (check_first events) = None /\ st_errors (check_first events) = []).
Proof.
  unfold check_first. destruct (events !! 0%nat) as [e|]; [|by right].
  destruct (prev_hash e); [by left | by right].
Qed.

Lemma flagged_true (events : list SignedEvent) (pk : string) (i : nat) :
  flagged events pk i = true <-> exists err, err ∈ violations_at events pk i.
Proof.
  unfold flagged. destruct (violations_at events pk i) as [|err l]; simpl.
  - split; [done|]. intros [err Hin]. by apply elem_of_nil in Hin.
  - split; [|done]. intros _. exists err. apply elem_of_cons. by left.
Qed.

Lemma violation_iff (events : list SignedEvent) (pk : string) (k : nat) :
  violation events pk k <->
  (k = 0%nat /\ st_first (check_first events) = Some 0%nat)
  \/ flagged events pk k = true.
Proof.
  unfold violation. split.
  - intros (err & Hrep & Hidx).
    assert (err = FirstPrevHashNotNull \/ err <> FirstPrevHashNotNull) as [->|Hne]
      by (destruct err; [by left | by right | by right]).
    + left. simpl in Hidx. split; [done|].
      assert (FirstPrevHashNotNull ∈ st_errors (check_first events)) as Hin
        by (by apply (check_first_reported events pk)).
      destruct (check_first_cases events) as [[Hf _]|[_ He]]; [done|].
      rewrite He in Hin. by apply elem_of_nil in Hin.
    + right. apply flagged_true. exists err. by apply violations_at_reported.
  - intros [[-> Hf]|Hfl].
    + exists FirstPrevHashNotNull. split; [|done].
      apply (check_first_reported events pk FirstPrevHashNotNull).
      destruct (check_first_cases events) as [[_ He]|[Hn _]]; [|congruence].
      rewrite He. by apply list_elem_of_singleton.
    + apply flagged_true in Hfl as [err Hin].
      apply violations_at_reported in Hin as (Hrep & Hidx & _). by exists err.
Qed.

Lemma violation_in_range (events : list SignedEvent) (pk : string) (k : nat) :
  violation events pk k -> (k < length events)%nat.
Proof. intros (err & Hrep & <-). by apply (reported_in_range events pk). Qed.

Lemma verifyEventChain_first_least (events : list SignedEvent) (pk : string)
    (i : nat) :
  firstInvalidEvent (verifyEventChain events pk) = Some i <->
  violation events pk i /\ forall j, (j < i)%nat -> ~ violation events pk j.
Proof.
  rewrite verifyEventChain_first.
  destruct (check_first_cases events) as [[Hf He]|[Hf He]]; rewrite Hf.
  - split.
    + intros [= <-]. split; [|lia]. apply violation_iff. by left.
    + intros [_ Hleast]. f_equal. destruct i as [|i]; [done|].
      exfalso. apply (Hleast 0%nat); [lia|]. apply violation_iff. by left.
  - rewrite find_seq_least. split.
    + intros (_ & Hfl & Hleast). split.
      * apply violation_iff. by right.
      * intros j Hj [[_ Hc]|Hc]%violation_iff; [congruence|].
        rewrite Hleast in Hc; [done | lia].
    + intros [Hv Hleast]. split; [|split].
      * apply violation_in_range in Hv. lia.
      * apply violation_iff in Hv as [[_ Hc]|Hv]; [congruence | done].
      * intros j Hj. destruct (flagged events pk j) eqn:Hfl; [|done].
        exfalso. apply (Hleast j); [lia|]. apply violation_iff. by right.
Qed.

Lemma verifyEventChain_valid_ok (events : list SignedEvent) (pk : string) :
  c_valid (verifyEventChain events pk) = true <-> chain_ok events pk.
Proof.
  rewrite verifyEventChain_valid, is_nil_true, chain_ok_no_report. split.
  - intros Hnil err Hrep. apply verifyEventChain_reported in Hrep.
    rewrite Hnil in Hrep. by apply elem_of_nil in Hrep.
  - intros Hno. apply elem_of_nil_inv. intros err Hin.
    by apply verifyEventChain_reported, Hno in Hin.
Qed.

Lemma verifyEventChain_first_none (events : list SignedEvent) (pk : string) :
  firstInvalidEvent (verifyEventChain events pk) = None <->
  c_valid (verifyEventChain events pk) = true.
Proof.
  rewrite verifyEventChain_valid_ok, chain_ok_no_report. split.
  - intros Hnone err Hrep. rewrite verifyEventChain_first in Hnone.
    assert (violation events pk (error_index err)) as Hv by (by exists err).
    pose proof (violation_in_range _ _ _ Hv) as Hlt.
    destruct (check_first_cases events) as [[Hf _]|[Hf _]]; rewrite Hf in Hnone;
      [done|].
    apply violation_iff in Hv as [[_ Hc]|Hfl]; [congruence|].
    rewrite find_seq_none in Hnone. rewrite Hnone in Hfl; [done | lia].
  - intros Hno.
    destruct (firstInvalidEvent (verifyEventChain events pk)) as [i|] eqn:Hfirst;
      [|done].
    apply verifyEventChain_first_least in Hfirst as [(err & Hrep & _) _].
    by apply Hno in Hrep.
Qed.

Lemma verifyAgentChain_eq (db : EventService.Db) (id : string)
    (agent : Agents.Agent) :
  Agents.findById (EventService.agents db) id = Some agent ->
  EventService.verifyAgentChain db id =
  inl (verifyEventChain
         (map EventService.toSignedEvent
              (Events.getAgentChain (EventService.events db) id))
         (Agents.publicKey agent)).
Proof.
  intros Hagent. unfold EventService.verifyAgentChain. rewrite Hagent.
  by destruct (Events.getAgentChain (EventService.events db) id).
Qed.

Lemma getAgentChain_elem_of (events : list Events.Event) (id : string)
    (e : Events.Event) :
  e ∈ Events.getAgentChain events id <-> e ∈ events /\ Events.agentId e = id.
Proof.
  unfold Events.getAgentChain. rewrite sort_by_Permutation, list_elem_of_filter.
  tauto.
Qed.

Lemma getAgentChain_chronological (events : list Events.Event) (id : string) :
  Sorted (fun a b => Events.earlier_first a b = true)
         (Events.getAgentChain events id).
Proof. apply sort_by_Sorted, earlier_first_total. Qed.

End ChainProofs.


(** ** Event admission *)

Section LedgerProofs.
Context `{Primitives}.
Import Verification.

(** The chain check of [appendEvent] compares the server's [prevHash]
    with itself: the chain-broken error cannot be produced. *)
Lemma appendEvent_never_chain_broken (db : EventService.Db) (now1 now2 : Z)
    (request : EventService.AppendEventRequest) (expected got : option string) :
  snd (EventService.appendEvent db now1 now2 request)
  <> inr (EventService.HashChainBroken expected got).
Proof.
  unfold EventService.appendEvent.
  destruct (Agents.findById _ _) as [agent|]; [|done].
  destruct (negb (Agents.status_eqb _ _)); [done|].
  destruct (negb (valid _)); [done|]. cbn [prev_hash].
  rewrite (proj2 (option_string_eqb_eq _ _) eq_refl). cbn [negb].
  destruct (Events.append _ _) as [events' [event|e]]; done.
Qed.

(** A request that is refused leaves the ledger as it was. *)
Lemma appendEvent_error_keeps_db (db : EventService.Db) (now1 now2 : Z)
    (request : EventService.AppendEventRequest) (e : EventService.AppendError) :
  snd (EventService.appendEvent db now1 now2 request) = inr e ->
  fst (EventService.appendEvent db now1 now2 request) = db.
Proof.
  unfold EventService.appendEvent.
  destruct (Agents.findById _ _) as [agent|]; [|done].
  destruct (negb (Agents.status_eqb _ _)); [done|].
  destruct (negb (valid _)); [done|].
  destruct (negb (option_string_eqb _ _)); [done|].
  unfold Events.append. destruct (existsb _ _); [|done].
  intros _. by destruct db.
Qed.

End LedgerProofs.

Section LedgerExamples.
Import Model.

(** C1.  The chain check of [appendEvent] can never fail, whatever the
    request: no input yields the chain-broken error; a refused request
    leaves the ledger unchanged.  At the concrete input: the ledger holds
    one event of the agent, so the server derives its hash as
    [prev_hash]; the client signed its second event with a null
    [prev_hash].  The request is refused and nothing is persisted, but
    the error is the hash and signature failure of [verifyEvent],
    computed on the bytes rebuilt with the server's [prev_hash]: it is
    not the chain-broken error, and it does not report the client's
    [prev_hash]. *)
Theorem appendEvent_stale_prev_hash :
  (forall (P : Primitives) (db : EventService.Db) (now1 now2 : Z)
          (request : EventService.AppendEventRequest)
          (expected got : option string),
     snd (@EventService.appendEvent P db now1 now2 request)
     <> inr (EventService.HashChainBroken expected got))
  /\ (forall (P : Primitives) (db : EventService.Db) (now1 now2 : Z)
             (request : EventService.AppendEventRequest)
             (e : EventService.AppendError),
        snd (@EventService.appendEvent P db now1 now2 request) = inr e ->
        fst (@EventService.appendEvent P db now1 now2 request) = db)
  /\ (let head := EventService.hash Examples.request1 in
      Events.hash <$> Events.getLastEventForAgent
                        (EventService.events Examples.ledger1) "a11ce" = Some head
      /\ Verification.u_prev_hash (Examples.client_event None 2 2000) = None
      /\ EventService.hash Examples.stale_request
         = sha256 (Verification.toCanonicalJSON (Examples.client_event None 2 2000))
      /\ EventService.signature Examples.stale_request
         = sign "pkA" (Verification.toCanonicalJSON (Examples.client_event None 2 2000))
      /\ @EventService.appendEvent Model.primitives Examples.ledger1 6000 6000
           Examples.stale_request
         = (Examples.ledger1,
            inr (EventService.EventVerificationFailed
                   [ Verification.HashMismatch
                       (EventService.hash Examples.stale_request)
                       (sha256 (Verification.toCanonicalJSON
                                  (Examples.client_event (Some head) 2 2000)));
                     Verification.InvalidSignature ]))).
Proof.
  split; [|split].
  - intros P db now1 now2 request expected got.
    apply appendEvent_never_chain_broken.
  - intros P db now1 now2 request e. apply appendEvent_error_keeps_db.
  - vm_compute. repeat split.
Qed.

(** The scenarios of the specification: a chain of three events is
    admitted and verifies; changing the stored payload of the second
    event is detected at index 1. *)
Example ledger3_verifies :
  map Events.id (EventService.events Examples.ledger3) = [1; 2; 3]
  /\ EventService.verifyAgentChain Examples.ledger3 "a11ce"
     = inl {| Verification.c_valid := true; Verification.c_errors := [];
              Verification.firstInvalidEvent := None;
              Verification.totalEvents := 3 |}.
Proof. vm_compute. split; reflexivity. Qed.

Example tampered_ledger_detected :
  match EventService.verifyAgentChain Examples.tampered_ledger "a11ce" with
  | inl r => (Verification.c_valid r, Verification.firstInvalidEvent r,
              Verification.totalEvents r)
  | inr _ => (true, None, 0%nat)
  end = (false, Some 1%nat, 3%nat).
Proof. vm_compute. reflexivity. Qed.

End LedgerExamples.

(** ** Capability engine *)

Section CapabilityProofs.
Context `{Primitives}.
Import Capabilities CapabilitySpec.

Lemma status_eqb_eq (a b : CapabilityStatus) : status_eqb a b = true <-> a = b.
Proof. destruct a, b; simpl; split; congruence. Qed.

Lemma findByTokenHash_Some (caps : list Capability) (h : string) (c : Capability) :
  findByTokenHash caps h = Some c -> c ∈ caps /\ tokenHash c = h.
Proof.
  unfold findByTokenHash. intros Hhead.
  apply head_Some_elem_of, list_elem_of_filter in Hhead. tauto.
Qed.

Lemma findByTokenHash_None (caps : list Capability) (h : string) :
  findByTokenHash caps h = None <-> forall c, c ∈ caps -> tokenHash c <> h.
Proof.
  unfold findByTokenHash. rewrite head_None. split.
  - intros Hnil c Hin Hh. by apply (filter_nil_not_elem_of _ _ c Hnil).
  - intros Hall. apply elem_of_nil_inv. intros c [Hh Hin]%list_elem_of_filter.
    by apply (Hall c).
Qed.


End CapabilityProofs.

Section CapabilityExamples.
Import Model Capabilities CapabilitySpec.


Example validateToken_at_expiry :
  validateToken [Examples.boundary_capability] 1000 "tok"
  = Valid Examples.boundary_capability.
Proof. reflexivity. Qed.

Example validateToken_after_expiry :
  validateToken [Examples.boundary_capability] 1001 "tok"
  = Invalid (Some Examples.boundary_capability) "Token expired".
Proof. reflexivity. Qed.

(** The expiry sweep, on the other hand, has the inclusive bound: run at
    [now = expires_at] it marks the capability expired, after which its
    token no longer validates. *)
Example sweep_at_expiry :
  map status (expireOldCapabilities [Examples.boundary_capability] 1000) = [expired]
  /\ (exists c, validateToken
                  (expireOldCapabilities [Examples.boundary_capability] 1000)
                  1000 "tok" = Invalid (Some c) "Token expired").
Proof. split; [reflexivity|]. eexists. reflexivity. Qed.

End CapabilityExamples.

(** ** Permission check *)

Section PermissionProofs.
Import Capabilities CapabilitySpec.

Lemma has_colon_wildcard (s : string) : has_colon (s +:+ ":*") = true.
Proof.
  induction s as [|c s IH]; simpl; [done|].
  rewrite IH. by destruct (Ascii.eqb c ":").
Qed.

Lemma has_colon_split_head (s : string) : has_colon (split_head s) = false.
Proof.
  induction s as [|c s IH]; simpl; [done|].
  destruct (Ascii.eqb c ":") eqn:Hc; simpl; [done|]. by rewrite Hc.
Qed.

(** [split_head] returns the part before the first colon. *)
Lemma split_head_prefix (s : string) :
  has_colon s = true -> exists rest, s = split_head s +:+ ":" +:+ rest.
Proof.
  induction s as [|c s IH]; simpl; [done|].
  destruct (Ascii.eqb_spec c ":") as [->|Hc]; simpl.
  - intros _. by exists s.
  - intros Hs. destruct (IH Hs) as [rest Hrest]. exists rest.
    rewrite Hrest at 1. reflexivity.
Qed.

(** No property of [Object.prototype] has a colon in its name. *)
Lemma prototype_key_no_colon (key : string) :
  key ∈ Object_prototype_keys -> has_colon key = false.
Proof.
  unfold Object_prototype_keys. rewrite !elem_of_cons, elem_of_nil.
  intros Hkey. repeat (destruct Hkey as [->|Hkey]; [reflexivity|]). done.
Qed.

Lemma js_get_own (o : gmap string jsval) (key : string) :
  has_colon key = true ->
  js_get o key = match o !! key with Some v => v | None => JUndefined end.
Proof.
  intros Hkey. unfold js_get. destruct (o !! key); [done|].
  rewrite bool_decide_eq_false_2; [done|].
  intros Hin%prototype_key_no_colon. congruence.
Qed.

Lemma scope_value_truthy (v : jsval) : scope_value v -> truthy v = true.
Proof. by intros [->|[fields ->]]. Qed.

Lemma truthy_lookup (c : Capability) (key : string) :
  scope_wellformed c -> has_colon key = true ->
  truthy (js_get (scope c) key) = true <-> is_Some (scope c !! key).
Proof.
  intros Hwf Hkey. rewrite js_get_own by done.
  destruct (scope c !! key) as [v|] eqn:Hv.
  - split; [by eauto|]. intros _. eapply scope_value_truthy, Hwf, Hv.
  - simpl. split; [done|]. by intros [? ?].
Qed.

Lemma check_capabilities_allowed (caps : list Capability) (action : string)
    (v : jsval) :
  has_colon action = true ->
  (forall c, c ∈ caps -> scope_wellformed c) ->
  check_capabilities caps action = Allowed v ->
  exists c, c ∈ caps /\ granted_value c action v.
Proof.
  intros Haction. induction caps as [|c caps IH]; intros Hwf; simpl; [done|].
  assert (scope_wellformed c) as Hc by (apply Hwf, elem_of_cons; by left).
  assert (forall c', c' ∈ caps -> scope_wellformed c') as Hrest
    by (intros c' Hin; apply Hwf, elem_of_cons; by right).
  pose proof (has_colon_wildcard (split_head action)) as Hwild.
  destruct (truthy (js_get (scope c) action)) eqn:Ha.
  - intros [= <-]. exists c. split; [apply elem_of_cons; by left|].
    apply truthy_lookup in Ha as [v Hv]; [|done..].
    left. by rewrite js_get_own, Hv.
  - destruct (truthy (js_get (scope c) (split_head action +:+ ":*"))) eqn:Hw.
    + intros [= <-]. exists c. split; [apply elem_of_cons; by left|].
      apply truthy_lookup in Hw as [v Hv]; [|done..].
      right. unfold wildcard. rewrite js_get_own, Hv by done. split; [|done].
      destruct (scope c !! action) as [w|] eqn:Hact; [|done].
      assert (truthy (js_get (scope c) action) = true) as Ht
        by (apply truthy_lookup; eauto).
      congruence.
    + intros Hres. destruct (IH Hrest Hres) as (c' & Hin & Hval).
      exists c'. split; [apply elem_of_cons; by right | done].
Qed.

Lemma check_capabilities_denied (caps : list Capability) (action reason : string) :
  has_colon action = true ->
  (forall c, c ∈ caps -> scope_wellformed c) ->
  check_capabilities caps action = Denied reason ->
  reason = "No capability grants permission for: " +:+ action
  /\ forall c, c ∈ caps -> ~ grants c action.
Proof.
  intros Haction. induction caps as [|c caps IH]; intros Hwf; simpl.
  - intros [= <-]. split; [done|]. by intros c Hin%elem_of_nil.
  - assert (scope_wellformed c) as Hc by (apply Hwf, elem_of_cons; by left).
    assert (forall c', c' ∈ caps -> scope_wellformed c') as Hrest
      by (intros c' Hin; apply Hwf, elem_of_cons; by right).
    pose proof (has_colon_wildcard (split_head action)) as Hwild.
    destruct (truthy (js_get (scope c) action)) eqn:Ha; [done|].
    destruct (truthy (js_get (scope c) (split_head action +:+ ":*"))) eqn:Hw;
      [done|].
    intros Hres. destruct (IH Hrest Hres) as [-> Hnone]. split; [done|].
    intros c' [->|Hin]%elem_of_cons; [|by apply Hnone].
    intros [Hsome|Hsome].
    + apply truthy_lookup in Hsome; [congruence | done..].
    + apply truthy_lookup in Hsome; [|done..]. unfold wildcard in *. congruence.
Qed.

Lemma findActiveForAgent_elem_of (caps : list Capability) (now : Z)
    (agent : string) (c : Capability) :
  c ∈ findActiveForAgent caps now agent <-> active_for caps now agent c.
Proof.
  unfold findActiveForAgent, active_for. rewrite list_elem_of_filter.
  rewrite !andb_true_iff, String.eqb_eq, Z.leb_le.
  destruct (status c); simpl; intuition congruence.
Qed.


Lemma wallet_capability_wellformed :
  forall c, c ∈ [Examples.wallet_capability] -> scope_wellformed c.
Proof.
  intros c ->%list_elem_of_singleton key v. simpl.
  rewrite lookup_insert_Some, lookup_singleton_Some.
  intros [[_ <-]|[_ [_ <-]]]; [by left | right; eauto].
Defined.


(** The enforcement scenario of the specification. *)
Example checkPermission_wallet_send :
  checkPermission [Examples.wallet_capability] 0 "a11ce" "tool:wallet.send"
  = Allowed (JObj [("max_value", JNum 100)]).
Proof. reflexivity. Qed.

Example checkPermission_x_post :
  checkPermission [Examples.wallet_capability] 0 "a11ce" "tool:x.post"
  = Denied "No capability grants permission for: tool:x.post".
Proof. reflexivity. Qed.

(** Outside the two side conditions the scope test is JavaScript
    truthiness of a property read: a [false] entry is no grant, and a
    name inherited from [Object.prototype] is one. *)
Example checkPermission_false_entry :
  checkPermission
    [ {| id := "c3"; agentId := "a11ce"; scope := {[ "tool:x.post" := JBool false ]};
         issuedBy := "admin"; issuedAt := 0; expiresAt := 10; status := active;
         tokenHash := "h"; revokedAt := None |} ]
    0 "a11ce" "tool:x.post"
  = Denied "No capability grants permission for: tool:x.post".
Proof. reflexivity. Qed.

Example checkPermission_inherited_name :
  checkPermission [Examples.wallet_capability] 0 "a11ce" "constructor"
  = Allowed (JFun "constructor").
Proof. reflexivity. Qed.

End PermissionProofs.

(** ** Keystore *)

Section HexProofs.
Import Keystore.

Lemma from_hex_byte (x : byte) (rest : string) :
  from_hex (byte_to_hex x +:+ rest) = x :: from_hex rest.
Proof. destruct x; reflexivity. Qed.

(** [Buffer.from(b.toString('hex'), 'hex')] is [b]. *)
Lemma from_hex_to_hex (b : bytes) : from_hex (to_hex b) = b.
Proof.
  induction b as [|x b IH]; [done|].
  cbn [to_hex]. by rewrite from_hex_byte, IH.
Qed.

Lemma to_hex_inj (a b : bytes) : to_hex a = to_hex b -> a = b.
Proof. intros Heq. by rewrite <- (from_hex_to_hex a), Heq, from_hex_to_hex. Qed.

Lemma relative_index_in (len i : Z) : 0 <= i <= len -> relative_index len i = i.
Proof. unfold relative_index. intros Hi. destruct (Z.ltb_spec i 0); lia. Qed.

(** The three parts of [ciphertext + authTag + iv] as [decryptKeystore]
    cuts them out. *)
Lemma subarray_parts (text authTag iv : bytes) :
  length authTag = 16%nat -> length iv = 16%nat ->
  let data := text ++ authTag ++ iv in
  let len := Z.of_nat (length data) in
  subarray data (len - 16) len = iv
  /\ subarray data (len - 32) (len - 16) = authTag
  /\ subarray data 0 (len - 32) = text.
Proof.
  intros Htag Hiv data len.
  assert (len = Z.of_nat (length text) + 32) as Hlen.
  { subst len data. rewrite !length_app. lia. }
  unfold subarray. fold len.
  rewrite !relative_index_in by lia.
  replace (Z.to_nat (len - (len - 16))) with 16%nat by lia.
  replace (Z.to_nat (len - 16 - (len - 32))) with 16%nat by lia.
  replace (Z.to_nat (len - 32 - 0)) with (length text) by lia.
  replace (Z.to_nat (len - 16)) with (length (text ++ authTag))
    by (rewrite length_app; lia).
  replace (Z.to_nat (len - 32)) with (length text) by lia.
  subst data. split; [|split].
  - rewrite app_assoc, drop_app_length. by apply take_ge; lia.
  - rewrite drop_app_length. by rewrite take_app_length' by done.
  - change (Z.to_nat 0) with 0%nat. by rewrite drop_0, take_app_length.
Qed.

End HexProofs.

Section KeystoreProofs.
Context `{Keystore.IdealPrimitives}.
Import Keystore KeystoreSpec.

Lemma derivedKey_length (password : string) (salt : bytes) :
  length (derivedKey password salt) = 32%nat.
Proof.
  unfold derivedKey, scryptAsync.
  pose proof (scrypt_length password salt 32 node_scrypt_defaults). lia.
Qed.

Lemma decryptKeystore_encryptKeystore (rnd : Entropy)
    (privateKeyHex agentId password : string) :
  length (random_iv rnd) = 16%nat ->
  decryptKeystore (encryptKeystore rnd privateKeyHex agentId password) password
  = inl privateKeyHex.
Proof.
  intros Hiv. unfold decryptKeystore, encryptKeystore.
  cbn [version crypto kdfparams salt dklen ciphertext mac].
  change (String.eqb "1" "1") with true. cbn [negb].
  rewrite !from_hex_to_hex.
  change (scryptAsync password (random_salt rnd) 32)
    with (derivedKey password (random_salt rnd)).
  rewrite String.eqb_refl. cbn [negb].
  set (key := derivedKey password (random_salt rnd)).
  pose proof (gcm_tag_length key (random_iv rnd) (list_byte_of_string privateKeyHex))
    as Htag.
  pose proof (gcm_correct key (random_iv rnd) (list_byte_of_string privateKeyHex)
                (derivedKey_length _ _)) as Hdec.
  unfold combined.
  destruct (aes_256_gcm_encrypt key (random_iv rnd)
              (list_byte_of_string privateKeyHex)) as [text authTag].
  simpl in Htag, Hdec.
  pose proof (subarray_parts text authTag (random_iv rnd) Htag Hiv) as Hparts.
  cbv zeta in Hparts. destruct Hparts as (-> & -> & ->).
  by rewrite Hdec, string_of_list_byte_of_string.
Qed.

Lemma decryptKeystore_wrong_password (rnd : Entropy)
    (privateKeyHex agentId password password' : string) :
  length (random_iv rnd) = 16%nat ->
  derivedKey password' (random_salt rnd) <> derivedKey password (random_salt rnd) ->
  decryptKeystore (encryptKeystore rnd privateKeyHex agentId password) password'
  = inr MacMismatch
  \/ decryptKeystore (encryptKeystore rnd privateKeyHex agentId password) password'
     = inr AuthenticationFailed.
Proof.
  intros Hiv Hkeys. unfold decryptKeystore, encryptKeystore.
  cbn [version crypto kdfparams salt dklen ciphertext mac].
  change (String.eqb "1" "1") with true. cbn [negb].
  rewrite !from_hex_to_hex.
  change (scryptAsync password' (random_salt rnd) 32)
    with (derivedKey password' (random_salt rnd)).
  set (key := derivedKey password (random_salt rnd)) in *.
  set (key' := derivedKey password' (random_salt rnd)) in *.
  destruct (String.eqb (compute_mac key' _) _); cbn [negb]; [|by left].
  right.
  pose proof (gcm_tag_length key (random_iv rnd) (list_byte_of_string privateKeyHex))
    as Htag.
  pose proof (gcm_key_binding key key' (random_iv rnd)
                (list_byte_of_string privateKeyHex)
                (derivedKey_length _ _) (derivedKey_length _ _)) as Hdec.
  unfold combined.
  destruct (aes_256_gcm_encrypt key (random_iv rnd)
              (list_byte_of_string privateKeyHex)) as [text authTag].
  simpl in Htag, Hdec.
  pose proof (subarray_parts text authTag (random_iv rnd) Htag Hiv) as Hparts.
  cbv zeta in Hparts. destruct Hparts as (-> & -> & ->).
  rewrite Hdec; [done|]. by intros Heq; apply Hkeys.
Qed.

Lemma decryptKeystore_mac_replaced (rnd : Entropy)
    (privateKeyHex agentId password m : string) :
  m <> mac (crypto (encryptKeystore rnd privateKeyHex agentId password)) ->
  decryptKeystore
    (with_mac (encryptKeystore rnd privateKeyHex agentId password) m) password
  = inr MacMismatch.
Proof.
  intros Hm. unfold decryptKeystore, with_mac, encryptKeystore in *.
  cbn [version crypto kdfparams salt dklen ciphertext mac] in *.
  change (String.eqb "1" "1") with true. cbn [negb].
  rewrite !from_hex_to_hex.
  change (scryptAsync password (random_salt rnd) 32)
    with (derivedKey password (random_salt rnd)).
  destruct (String.eqb_spec
              (compute_mac (derivedKey password (random_salt rnd))
                 (combined (derivedKey password (random_salt rnd))
                    (random_iv rnd) privateKeyHex)) m) as [Heq|Hne];
    [by destruct Hm | done].
Qed.

Lemma decryptKeystore_ciphertext_replaced (rnd : Entropy)
    (privateKeyHex agentId password s : string) :
  from_hex s
  <> from_hex (ciphertext (crypto (encryptKeystore rnd privateKeyHex agentId password))) ->
  decryptKeystore
    (with_ciphertext (encryptKeystore rnd privateKeyHex agentId password) s) password
  = inr MacMismatch.
Proof.
  intros Hs. unfold decryptKeystore, with_ciphertext, encryptKeystore in *.
  cbn [version crypto kdfparams salt dklen ciphertext mac] in *.
  change (String.eqb "1" "1") with true. cbn [negb].
  rewrite !from_hex_to_hex in *.
  change (scryptAsync password (random_salt rnd) 32)
    with (derivedKey password (random_salt rnd)).
  destruct (String.eqb_spec
              (compute_mac (derivedKey password (random_salt rnd)) (from_hex s))
              (compute_mac (derivedKey password (random_salt rnd))
                 (combined (derivedKey password (random_salt rnd))
                    (random_iv rnd) privateKeyHex))) as [Heq|Hne]; [|done].
  unfold compute_mac in Heq.
  apply sha256_collision_free, app_inv_head in Heq. by destruct Hs.
Qed.


End KeystoreProofs.

Section KeystoreModel.
Import Model Keystore KeystoreSpec.

(** The reference instance satisfies the idealised laws. *)
Lemma model_ideal : @IdealPrimitives Model.primitives.
Proof.
  split;
    cbn [scrypt aes_256_gcm_encrypt aes_256_gcm_decrypt sha256_buffer primitives].
  - intros password salt keylen opts Hlen. unfold Model.kdf, Model.zeros.
    rewrite length_take, !length_app, repeat_length. lia.
  - intros key iv plain. unfold Model.seal, Model.tag, Model.zeros. cbn [snd]. apply repeat_length.
  - intros key iv plain Hkey. unfold Model.open, Model.seal, Model.bytes_eqb. cbn [fst snd].
    rewrite Hkey, Nat.eqb_refl.
    rewrite (take_app_length' key plain 32) by done.
    rewrite !bool_decide_eq_true_2 by done. simpl.
    by rewrite (drop_app_length' key plain 32).
  - apply to_hex_inj.
  - intros key key' iv plain Hkey Hkey' Hne. unfold Model.open, Model.seal, Model.bytes_eqb.
    cbn [fst snd].
    rewrite Hkey', Nat.eqb_refl.
    rewrite (take_app_length' key plain 32) by done.
    by rewrite (bool_decide_eq_false_2 (key = key')).
Qed.


(** Here the two derived keys agree on the bytes the MAC covers, and it
    is the GCM tag that rejects the other password. *)
Example decryptKeystore_other_password :
  decryptKeystore (encryptKeystore Examples.entropy "00ff" "a11ce" "hunter2")
    "hunter3" = inr AuthenticationFailed.
Proof. vm_compute. reflexivity. Qed.

End KeystoreModel.

Section KeystoreCost.
Import Keystore KeystoreSpec.

(** [decryptKeystore] never reads the recorded cost parameters. *)
Lemma decryptKeystore_ignores_cost `{Primitives} (ks : EncryptedKeystore)
    (opts : ScryptOptions) (password : string) :
  decryptKeystore (with_cost ks opts) password = decryptKeystore ks password.
Proof. reflexivity. Qed.

(** C3.  [encryptKeystore] records [n = 262144, r = 8, p = 1] in
    [kdfparams], but the key it encrypts and authenticates with is
    derived with the cost parameters of an [scrypt] call without options
    ([N = 16384]); [decryptKeystore] derives its key with those same
    defaults whatever the keystore records.  On the reference instance
    the key of the recorded parameters is a different key. *)
Theorem keystore_kdf_cost :
  (forall `{Primitives} (rnd : Entropy) (privateKeyHex agentId password : string),
     let ks := encryptKeystore rnd privateKeyHex agentId password in
     let used := scrypt password (random_salt rnd) 32
                   {| cost := 16384; blockSize := 8; parallelization := 1 |} in
     recorded_options ks = spec_options
     /\ dklen (kdfparams (crypto ks)) = 32
     /\ from_hex (salt (kdfparams (crypto ks))) = random_salt rnd
     /\ derivedKey password (random_salt rnd) = used
     /\ from_hex (ciphertext (crypto ks))
        = combined used (random_iv rnd) privateKeyHex
     /\ mac (crypto ks)
        = compute_mac used (combined used (random_iv rnd) privateKeyHex))
  /\ (forall `{Primitives} (ks : EncryptedKeystore) (opts : ScryptOptions)
             (password : string),
        decryptKeystore (with_cost ks opts) password = decryptKeystore ks password)
  /\ @derivedKey Model.primitives "hunter2" (random_salt Examples.entropy)
     <> @scrypt Model.primitives "hunter2" (random_salt Examples.entropy) 32
          spec_options.
Proof.
  split; [|split].
  - intros P rnd privateKeyHex agentId password ks used. subst ks used.
    unfold encryptKeystore.
    cbn [version crypto kdfparams salt dklen ciphertext mac].
    by rewrite !from_hex_to_hex.
  - intros P ks opts password. apply decryptKeystore_ignores_cost.
  - vm_compute. discriminate.
Qed.

End KeystoreCost.

(** ** Reputation engine *)

Section ReputationProofs.
Import Reputation.

Lemma Qmax_min_clamp (x : Q) :
  (Qmax (0 # 1) (Qmin (100 # 1) x) == clamp x (0 # 1) (100 # 1))%Q.
Proof.
  unfold clamp.
  destruct (Qlt_le_dec x (0 # 1)) as [Hlo|Hlo];
    [|destruct (Qlt_le_dec (100 # 1) x) as [Hhi|Hhi]].
  - rewrite (Q.min_r (100 # 1) x) by lra. apply Q.max_l. lra.
  - rewrite (Q.min_l (100 # 1) x) by lra. apply Q.max_r. lra.
  - rewrite (Q.min_r (100 # 1) x) by lra. apply Q.max_r. lra.
Qed.

Lemma clamp_range (x : Q) :
  (0 # 1 <= clamp x (0 # 1) (100 # 1) <= 100 # 1)%Q.
Proof.
  unfold clamp.
  destruct (Qlt_le_dec x (0 # 1)); [lra|].
  destruct (Qlt_le_dec (100 # 1) x); lra.
Qed.


Lemma inject_Z_succ_nonzero (k : Z) : 0 <= k -> ~ (inject_Z (k + 1) == 0)%Q.
Proof. intros Hk. unfold Qeq. simpl. lia. Qed.

(** The recomputed rate, times the new total, is the new count. *)
Lemma rate_step (rate count : Q) (k b : Z) :
  0 <= k -> (rate * inject_Z k == count)%Q ->
  ((rate * inject_Z k + inject_Z b) / inject_Z (k + 1) * inject_Z (k + 1)
   == count + inject_Z b)%Q.
Proof.
  intros Hk Hrate. rewrite Hrate. field. by apply inject_Z_succ_nonzero.
Qed.

Lemma rate_bounds (rate : Q) (k c : Z) :
  0 < k -> 0 <= c <= k -> (rate * inject_Z k == inject_Z c)%Q ->
  (0 <= rate <= 1)%Q.
Proof.
  intros Hk Hc Hrate.
  assert (0 < inject_Z k)%Q as Hpos by (unfold Qlt; simpl; lia).
  assert (0 <= inject_Z c)%Q as Hc0 by (unfold Qle; simpl; lia).
  assert (inject_Z c <= inject_Z k)%Q as Hck by (unfold Qle; simpl; lia).
  assert (rate == inject_Z c / inject_Z k)%Q as ->.
  { rewrite <- Hrate. field. lra. }
  split.
  - apply Qle_shift_div_l; lra.
  - apply Qle_shift_div_r; lra.
Qed.

Lemma count_where_snoc (f : OutcomeType -> bool) (outcomes : list (Outcome * Z))
    (o : Outcome * Z) :
  count_where f (outcomes ++ [o]) = count_where f outcomes + one_if (f (fst (fst o))).
Proof.
  unfold count_where. rewrite filter_app, length_app.
  rewrite Nat2Z.inj_add. f_equal.
  destruct (f (fst (fst o))) eqn:Hf.
  - by rewrite filter_cons_True.
  - rewrite filter_cons_False; [done|]. intros Ht.
    pose proof (eq_trans (eq_sym Ht) Hf). discriminate.
Qed.

Lemma record_all_snoc (row : Reputation) (outcomes : list (Outcome * Z))
    (o : Outcome * Z) :
  record_all row (outcomes ++ [o])
  = updated (record_all row outcomes) (fst (fst o)) (snd (fst o)) (snd o).
Proof. unfold record_all. by rewrite foldl_app. Qed.

Lemma success_or_failure (t : OutcomeType) : isSuccess t = negb (isFailure t).
Proof. by destruct t. Qed.

(** The counts of a row reached from a fresh row. *)
Lemma record_all_counts (agent : string) (now : Z) (outcomes : list (Outcome * Z)) :
  let row := record_all (initial agent now) outcomes in
  totalActions row = Z.of_nat (length outcomes)
  /\ (successRate row * inject_Z (totalActions row)
      == inject_Z (count_where isSuccess outcomes))%Q
  /\ (failureRate row * inject_Z (totalActions row)
      == inject_Z (count_where isFailure outcomes))%Q
  /\ count_where isSuccess outcomes + count_where isFailure outcomes
     = Z.of_nat (length outcomes)
  /\ (0 <= successRate row <= 1)%Q
  /\ (0 <= failureRate row <= 1)%Q.
Proof.
  induction outcomes as [|o outcomes IH] using rev_ind.
  - cbn. repeat split; try reflexivity; by unfold Qle.
  - cbv zeta in IH. destruct IH as (Htotal & Hs & Hf & Hsum & _ & _).
    cbv zeta. rewrite record_all_snoc, !count_where_snoc, length_app.
    set (row := record_all (initial agent now) outcomes) in *.
    cbn [updated totalActions successRate failureRate length].
    assert (0 <= totalActions row) as Hk by lia.
    assert (0 <= count_where isSuccess outcomes) as Hcs
      by (unfold count_where; lia).
    assert (0 <= count_where isFailure outcomes) as Hcf
      by (unfold count_where; lia).
    assert (((successRate row * inject_Z (totalActions row)
               + inject_Z (one_if (isSuccess (fst (fst o)))))
             / inject_Z (totalActions row + 1) * inject_Z (totalActions row + 1)
             == inject_Z (count_where isSuccess outcomes
                          + one_if (isSuccess (fst (fst o)))))%Q) as Hs'.
    { rewrite (inject_Z_plus (count_where isSuccess outcomes)).
      by apply rate_step. }
    assert (((failureRate row * inject_Z (totalActions row)
               + inject_Z (one_if (isFailure (fst (fst o)))))
             / inject_Z (totalActions row + 1) * inject_Z (totalActions row + 1)
             == inject_Z (count_where isFailure outcomes
                          + one_if (isFailure (fst (fst o)))))%Q) as Hf'.
    { rewrite (inject_Z_plus (count_where isFailure outcomes)).
      by apply rate_step. }
    assert (one_if (isSuccess (fst (fst o))) + one_if (isFailure (fst (fst o))) = 1)
      as Hone by (by destruct (fst (fst o))).
    assert (0 <= one_if (isSuccess (fst (fst o))) <= 1) as Hb1
      by (destruct (isSuccess _); simpl; lia).
    assert (0 <= one_if (isFailure (fst (fst o))) <= 1) as Hb2
      by (destruct (isFailure _); simpl; lia).
    split; [simpl; lia|]. split; [done|]. split; [done|]. split; [simpl; lia|].
    split.
    + eapply (rate_bounds _ (totalActions row + 1)); [lia | | exact Hs']. lia.
    + eapply (rate_bounds _ (totalActions row + 1)); [lia | | exact Hf']. lia.
Qed.


(** The reputation scenario of the specification: a fresh row, then a
    success, then a harmful outcome. *)
Example reputation_scenario :
  let row1 := updated (initial "a11ce" 0) success None 1 in
  let row2 := updated row1 harmful None 2 in
  ((overallScore row1 == 50.5)%Q /\ totalActions row1 = 1
   /\ (successRate row1 == 1)%Q)
  /\ ((overallScore row2 == 48.5)%Q /\ totalActions row2 = 2
      /\ (successRate row2 == 0.5)%Q /\ (failureRate row2 == 0.5)%Q
      /\ harmfulActions row2 = 1).
Proof. vm_compute. repeat split; reflexivity. Qed.

End ReputationProofs.

(** ** Request authenticator *)

Section AuthProofs.
Context `{Primitives}.
Import Auth AuthSpec.

(** C7.  On the agent-signature path, for a request that carries the
    three headers and a numeric timestamp, the reply is "Timestamp
    expired" exactly when [|now - ts| > W]; at [|now - ts| = W] a request
    of an active agent with a valid signature is accepted, and at
    [|now - ts| = W + 1] it is rejected as expired.  The default window
    is 300 seconds. *)
Theorem verifyAgentSignature_window (config : Config)
    (agents : list Agents.Agent) (now_ms : Z) (request : Request)
    (requestTime W : Z) :
  str_truthy (x_agent_id request) = true ->
  str_truthy (x_timestamp request) = true ->
  str_truthy (x_signature request) = true ->
  parseInt (default EmptyString (x_timestamp request)) = Some requestTime ->
  signatureTimestampWindow config = Some W ->
  let now := now_ms / 1000 in
  let timeDiff := Z.abs (now - requestTime) in
  (verifyAgentSignature config agents now_ms request = inr expired_reply
   <-> timeDiff > W)
  /\ (timeDiff = W ->
      forall agent,
        Agents.findById agents (default EmptyString (x_agent_id request)) = Some agent ->
        Agents.status agent = Agents.active ->
        ed25519_verify (default EmptyString (x_signature request))
          (method request +:+ ":" +:+ url request +:+ ":"
           +:+ body_text (body request) +:+ ":"
           +:+ default EmptyString (x_timestamp request))
          (Agents.publicKey agent) = inl true ->
        verifyAgentSignature config agents now_ms request = inl agent)
  /\ (timeDiff = W + 1 ->
      verifyAgentSignature config agents now_ms request = inr expired_reply)
  /\ signatureTimestampWindow (loadConfig None) = Some 300.
Proof.
  intros Hid Hts Hsig Hparse HW now timeDiff.
  unfold verifyAgentSignature. rewrite Hid, Hts, Hsig, Hparse, HW.
  cbn [negb orb js_gt]. fold now. fold timeDiff.
  split; [|split; [|split]].
  - destruct (Z.ltb_spec W timeDiff) as [Hlt|Hle].
    + split; [lia | done].
    + split; [|lia].
      destruct (Agents.findById _ _) as [agent|]; [|discriminate].
      destruct (negb _); [discriminate|].
      destruct (ed25519_verify _ _ _) as [[|]|msg]; discriminate.
  - intros Heq agent Hagent Hactive Hverify.
    rewrite (proj2 (Z.ltb_ge _ _)) by lia.
    rewrite Hagent, Hactive, Hverify. done.
  - intros Heq. by rewrite (proj2 (Z.ltb_lt _ _)) by lia.
  - reflexivity.
Qed.

End AuthProofs.

Section AuthExamples.
Import Model Auth AuthSpec.

Lemma verifyAgentSignature_window_witness :
  str_truthy (x_agent_id Examples.signed_request) = true
  /\ str_truthy (x_timestamp Examples.signed_request) = true
  /\ str_truthy (x_signature Examples.signed_request) = true
  /\ parseInt (default EmptyString (x_timestamp Examples.signed_request))
     = Some 1000000
  /\ signatureTimestampWindow (loadConfig None) = Some 300
  /\ Z.abs (1000300999 / 1000 - 1000000) = 300
  /\ verifyAgentSignature (loadConfig None) [Examples.alice] 1000300999
       Examples.signed_request = inl Examples.alice.
Proof.
  repeat (split; [reflexivity|]).
  exact (proj1 (proj2 (verifyAgentSignature_window (loadConfig None)
                         [Examples.alice] 1000300999 Examples.signed_request
                         1000000 300 eq_refl eq_refl eq_refl eq_refl eq_refl))
           eq_refl Examples.alice eq_refl eq_refl eq_refl).
Defined.

(** At exactly 300 seconds the request is accepted ... *)
Example verifyAgentSignature_at_window :
  verifyAgentSignature (loadConfig None) [Examples.alice] 1000300999
    Examples.signed_request = inl Examples.alice.
Proof. vm_compute. reflexivity. Qed.

(** ... also when the request is 300 seconds ahead of the server ... *)
Example verifyAgentSignature_at_window_ahead :
  verifyAgentSignature (loadConfig None) [Examples.alice] 999700000
    Examples.signed_request = inl Examples.alice.
Proof. vm_compute. reflexivity. Qed.

(** ... and at 301 seconds it is rejected. *)
Example verifyAgentSignature_past_window :
  verifyAgentSignature (loadConfig None) [Examples.alice] 1000301000
    Examples.signed_request = inr expired_reply.
Proof. vm_compute. reflexivity. Qed.

End AuthExamples.

(** ** Event query route *)

Section QueryProofs.
Context `{Primitives}.
Import Events EventRoutes QuerySpec.

Lemma str_truthy_false (s : option string) :
  str_truthy s = false <-> s = None \/ s = Some EmptyString.
Proof.
  destruct s as [[|c s]|]; simpl.
  - split; [by right | done].
  - split; [done | by intros [|]].
  - split; [by left | done].
Qed.

Lemma count_filters_matches (query : Query) (e : Event) :
  matches (count_filters query) e = matches (query_filters query) e.
Proof. reflexivity. Qed.

(** With [limit=0] the repository builds the query it builds without a
    limit. *)
Lemma query_limit_zero (events : list Event) (query : Query) :
  limit query = Some "0" ->
  limit_clause (query_filters query) = None
  /\ Events.query events (query_filters query)
     = Events.query events (without_limit (query_filters query)).
Proof.
  intros Hlimit.
  assert (limit_clause (query_filters query) = None) as Hclause.
  { unfold limit_clause, query_filters, number_param. cbn [f_limit].
    by rewrite Hlimit. }
  split; [done|]. unfold Events.query. by rewrite Hclause.
Qed.

Lemma get_events_limit_zero_all (events : list Event) (query : Query) :
  limit query = Some "0" ->
  str_truthy (offset query) = false ->
  has_invalid_date (query_filters query) = false ->
  let rows := sort_by newest_first (matching events (query_filters query)) in
  get_events events query = Ok rows (length rows) (length rows)
  /\ Permutation rows (matching events (query_filters query))
  /\ length rows = length (matching events (query_filters query)).
Proof.
  intros Hlimit Hoffset Hdates rows. subst rows.
  split; [|split; [apply sort_by_Permutation | apply sort_by_length]].
  unfold get_events, Events.query, Events.count.
  rewrite Hdates.
  assert (has_invalid_date (count_filters query) = false) as -> by exact Hdates.
  destruct (query_limit_zero events query Hlimit) as [-> _].
  assert (offset_clause (query_filters query) = None) as ->.
  { unfold offset_clause, query_filters, number_param. cbn [f_offset].
    by rewrite Hoffset. }
  cbn [negative apply_limit apply_offset]. unfold matching.
  by rewrite sort_by_length.
Qed.

(** C10.  [GET /events] with [limit=0]: the route parses [0], the
    repository adds no [LIMIT] clause, and (without an offset) the reply
    holds every matching event; the default of 100 is passed to the
    repository exactly when the parameter is omitted or empty. *)
Theorem get_events_limit_zero :
  parseInt "0" = Some 0
  /\ (forall (events : list Event) (query : Query),
        limit query = Some "0" ->
        f_limit (query_filters query) = Some (Some 0)
        /\ limit_clause (query_filters query) = None
        /\ Events.query events (query_filters query)
           = Events.query events (without_limit (query_filters query)))
  /\ (forall (events : list Event) (query : Query),
        limit query = Some "0" ->
        str_truthy (offset query) = false ->
        has_invalid_date (query_filters query) = false ->
        let rows := sort_by newest_first (matching events (query_filters query)) in
        get_events events query = Ok rows (length rows) (length rows)
        /\ Permutation rows (matching events (query_filters query))
        /\ length rows = length (matching events (query_filters query)))
  /\ (forall query : Query,
        limit_omitted query ->
        f_limit (query_filters query) = Some (Some 100)
        /\ limit_clause (query_filters query) = Some 100)
  /\ (forall query : Query,
        ~ limit_omitted query ->
        f_limit (query_filters query)
        = Some (parseInt (default EmptyString (limit query)))).
Proof.
  split; [reflexivity|]. split; [|split; [|split]].
  - intros events query Hlimit. split.
    + unfold query_filters, number_param. cbn [f_limit]. by rewrite Hlimit.
    + by apply query_limit_zero.
  - apply get_events_limit_zero_all.
  - intros query Homitted%str_truthy_false.
    unfold limit_clause, query_filters, number_param. cbn [f_limit].
    by rewrite Homitted.
  - intros query Hgiven.
    unfold query_filters, number_param. cbn [f_limit].
    destruct (str_truthy (limit query)) eqn:Ht; [done|].
    by apply str_truthy_false in Ht.
Qed.

End QueryProofs.

Section QueryExamples.
Import Model Events EventRoutes.

(** With 101 events of the agent, [limit=0] returns all 101, not none
    and not 100; without the parameter the reply holds 100. *)
Example get_events_limit_zero_101 :
  match get_events (Examples.many_events 101) (Examples.events_query (Some "0")) with
  | Ok rows count total => (count, total)
  | QueryFailed _ => (0%nat, 0%nat)
  end = (101%nat, 101%nat).
Proof. vm_compute. reflexivity. Qed.

Example get_events_default_limit_101 :
  match get_events (Examples.many_events 101) (Examples.events_query None) with
  | Ok rows count total => (count, total)
  | QueryFailed _ => (0%nat, 0%nat)
  end = (100%nat, 101%nat).
Proof. vm_compute. reflexivity. Qed.

End QueryExamples.

(** * Properties of the further functions *)

(** ** Linkage check and signing *)

Section LinkageProofs.
Import Verification Linkage LedgerSpec.

Lemma link_step_nil (events : list SignedEvent) (i : nat) (errors : list LinkError) :
  link_step events (S i) errors = [] <->
  errors = []
  /\ forall p e, events !! i = Some p -> events !! S i = Some e ->
                 prev_hash e = Some (hash p).
Proof.
  unfold link_step. replace (S i - 1)%nat with i by lia.
  destruct (events !! S i) as [e|] eqn:He.
  - destruct (events !! i) as [p|] eqn:Hp.
    + destruct (option_string_eqb (prev_hash e) (Some (hash p))) eqn:Hl.
      * apply option_string_eqb_eq in Hl. split.
        -- intros ->. split; [done|]. by intros ? ? [= <-] [= <-].
        -- by intros [-> _].
      * split.
        -- intros Hnil. by apply app_nil in Hnil as [_ ?].
        -- intros [_ Hok]. specialize (Hok p e eq_refl eq_refl).
           apply option_string_eqb_eq in Hok. congruence.
    + split; [by intros -> | by intros [-> _]].
  - split; [by intros -> | by intros [-> _]].
Qed.

Lemma link_loop_nil (events : list SignedEvent) (n i : nat) (errors : list LinkError) :
  link_loop events n (S i) errors = [] <->
  errors = []
  /\ forall j p e, (i <= j < i + n)%nat -> events !! j = Some p ->
                   events !! S j = Some e -> prev_hash e = Some (hash p).
Proof.
  revert i errors. induction n as [|n IH]; intros i errors; simpl.
  - split; [|by intros [-> _]]. intros ->. split; [done|]. lia.
  - rewrite IH, link_step_nil. split.
    + intros [[-> Hi] Hrest]. split; [done|]. intros j p e Hj.
      destruct (decide (j = i)) as [->|]; [apply Hi | apply Hrest; lia].
    + intros [-> Hall]. split; [split; [done|]|].
      * intros p e. apply (Hall i). lia.
      * intros j p e Hj. apply Hall. lia.
Qed.

Lemma verifyChainLinkage_ok (events : list SignedEvent) :
  l_valid (verifyChainLinkage events) = true <-> linkage_ok events.
Proof.
  unfold verifyChainLinkage, linkage_ok.
  destruct events as [|first rest]; [by split|].
  cbn [l_valid]. rewrite is_nil_true.
  replace (length (first :: rest) - 1)%nat with (0 + length rest)%nat
    by (simpl; lia).
  rewrite link_loop_nil. split.
  - intros [Hfirst Hlinks]. split.
    + intros e [= <-]. by destruct (prev_hash first).
    + intros i p e Hp He. apply (Hlinks i); [|done..].
      apply lookup_lt_Some in He. simpl in He. lia.
  - intros [Hfirst Hlinks]. split.
    + by rewrite (Hfirst first eq_refl).
    + intros j p e _. apply Hlinks.
Qed.

End LinkageProofs.

Section SigningProofs.
Context `{SignatureScheme}.
Import Verification Linkage LedgerSpec Signing ChainSpec.

(** X1.  The quick linkage check accepts exactly the chains whose first
    event has a null [prev_hash] and whose every later event names its
    predecessor's hash; full verification accepts exactly the chains
    that pass the quick check and whose every event verifies, so a chain
    refused by the quick check is refused by full verification. *)
Theorem linkage_check_necessary (events : list SignedEvent) (pk : string) :
  (l_valid (verifyChainLinkage events) = true <-> linkage_ok events)
  /\ (c_valid (verifyEventChain events pk) = true
      <-> l_valid (verifyChainLinkage events) = true
          /\ forall i e, events !! i = Some e -> valid (verifyEvent e pk) = true)
  /\ (l_valid (verifyChainLinkage events) = false ->
      c_valid (verifyEventChain events pk) = false).
Proof.
  assert (c_valid (verifyEventChain events pk) = true
          <-> l_valid (verifyChainLinkage events) = true
              /\ forall i e, events !! i = Some e -> valid (verifyEvent e pk) = true)
    as Hfull.
  { rewrite verifyEventChain_valid_ok, verifyChainLinkage_ok.
    unfold chain_ok, linkage_ok. split.
    - intros (Hfirst & Hev & Hlinks). split; [by split|].
      intros i e He. by apply verifyEvent_valid, (Hev i).
    - intros [[Hfirst Hlinks] Hev]. split; [done|]. split; [|done].
      intros i e He. by apply verifyEvent_valid, (Hev i). }
  split; [apply verifyChainLinkage_ok|]. split; [exact Hfull|].
  intros Hbad. apply not_true_is_false. intros Hv.
  apply Hfull in Hv as [Hv _]. congruence.
Qed.

Lemma verifyEventChain_total (events : list SignedEvent) (pk : string) :
  totalEvents (verifyEventChain events pk) = length events.
Proof. unfold verifyEventChain. by destruct events. Qed.

Lemma signEvent_ok (event : UnsignedEvent) (privateKeyHex : string)
    (signed : SignedEvent) :
  signEvent event privateKeyHex = Some signed ->
  prepareForSigning signed = event
  /\ hash signed = sha256 (toCanonicalJSON event)
  /\ event_ok (ed25519_getPublicKey privateKeyHex) signed.
Proof.
  unfold signEvent.
  destruct (ed25519_sign privateKeyHex (toCanonicalJSON event)) as [sig|] eqn:Hsig;
    [|done].
  intros [= <-].
  assert (prepareForSigning
            (with_signature event (sha256 (toCanonicalJSON event)) sig) = event)
    as Hprep by (by destruct event).
  split; [done|]. split; [done|].
  unfold event_ok. rewrite Hprep. split; [done|]. by apply sign_verify.
Qed.

(** X2.  An event signed by [signEvent] verifies under the public key of
    the signing key: [verifyEvent] reports no error, the hash is the
    digest of the canonical form of the event that was signed, and
    removing hash and signature gives that event back. *)
Theorem signEvent_verifies (event : UnsignedEvent) (privateKeyHex : string)
    (signed : SignedEvent) :
  signEvent event privateKeyHex = Some signed ->
  verifyEvent signed (ed25519_getPublicKey privateKeyHex)
  = {| valid := true; errors := [] |}
  /\ prepareForSigning signed = event
  /\ hash signed = sha256 (toCanonicalJSON event).
Proof.
  intros Hsigned. destruct (signEvent_ok _ _ _ Hsigned) as (Hprep & Hhash & Hok).
  split; [|done].
  destruct Hok as [Hh Hs]. unfold verifyEvent.
  rewrite Hs. by rewrite (proj2 (String.eqb_eq _ _) Hh).
Qed.

Lemma sign_chain_ok (privateKeyHex : string) (prev : option string)
    (events : list UnsignedEvent) (chain : list SignedEvent) :
  sign_chain privateKeyHex prev events = Some chain ->
  length chain = length events
  /\ (forall e, chain !! 0%nat = Some e -> prev_hash e = prev)
  /\ (forall i e, chain !! i = Some e ->
        event_ok (ed25519_getPublicKey privateKeyHex) e)
  /\ (forall i p e, chain !! i = Some p -> chain !! S i = Some e ->
        prev_hash e = Some (hash p)).
Proof.
  revert prev chain. induction events as [|event events IH]; intros prev chain; simpl.
  - intros [= <-]. repeat split; by intros.
  - destruct (signEventInChain event prev privateKeyHex) as [signed|] eqn:Hsigned;
      [|done].
    destruct (sign_chain privateKeyHex (Some (hash signed)) events) as [rest|] eqn:Hrest;
      [|done].
    intros [= <-].
    destruct (IH _ _ Hrest) as (Hlen & Hfirst & Hev & Hlinks).
    destruct (signEvent_ok _ _ _ Hsigned) as (Hprep & _ & Hok).
    split; [simpl; lia|]. split; [|split].
    + intros e [= <-]. exact (f_equal u_prev_hash Hprep).
    + intros [|i] e; simpl; [by intros [= <-] | apply Hev].
    + intros [|i] p e; simpl.
      * intros [= <-] He. by apply Hfirst.
      * apply Hlinks.
Qed.

(** X3.  A chain built by signing each event over the hash of the one
    before, starting from a null [prev_hash], verifies: no error, no
    invalid index, and as many events as were signed. *)
Theorem sign_chain_verifies (privateKeyHex : string) (events : list UnsignedEvent)
    (chain : list SignedEvent) :
  sign_chain privateKeyHex None events = Some chain ->
  verifyEventChain chain (ed25519_getPublicKey privateKeyHex)
  = {| c_valid := true; c_errors := []; firstInvalidEvent := None;
       totalEvents := length events |}.
Proof.
  intros Hchain. destruct (sign_chain_ok _ _ _ _ Hchain) as (Hlen & Hfirst & Hev & Hl).
  assert (c_valid (verifyEventChain chain (ed25519_getPublicKey privateKeyHex)) = true)
    as Hvalid by (by apply verifyEventChain_valid_ok).
  pose proof (proj2 (verifyEventChain_first_none _ _) Hvalid) as Hnone.
  pose proof Hvalid as Herrs. rewrite verifyEventChain_valid, is_nil_true in Herrs.
  assert (totalEvents (verifyEventChain chain (ed25519_getPublicKey privateKeyHex))
          = length events) as Htotal.
  { rewrite <- Hlen. apply verifyEventChain_total. }
  destruct (verifyEventChain chain (ed25519_getPublicKey privateKeyHex)).
  simpl in *. by subst.
Qed.

(** X4.  When an event signed over anything but the hash of the last
    event is added to such a chain, verification fails and reports the
    index of the added event as the first invalid one. *)
Theorem broken_link_detected (privateKeyHex : string) (events : list UnsignedEvent)
    (chain : list SignedEvent) (event : UnsignedEvent) (wrong : option string)
    (signed : SignedEvent) :
  sign_chain privateKeyHex None events = Some chain ->
  signEventInChain event wrong privateKeyHex = Some signed ->
  wrong <> hash <$> last chain ->
  let r := verifyEventChain (chain ++ [signed]) (ed25519_getPublicKey privateKeyHex) in
  c_valid r = false
  /\ firstInvalidEvent r = Some (length chain)
  /\ totalEvents r = S (length chain).
Proof.
  intros Hchain Hsigned Hwrong r. subst r.
  destruct (sign_chain_ok _ _ _ _ Hchain) as (Hlen & Hfirst & Hev & Hl).
  destruct (signEvent_ok _ _ _ Hsigned) as (Hprep & _ & Hok).
  assert (prev_hash signed = wrong) as Hprev
    by exact (f_equal u_prev_hash Hprep).
  set (pk := ed25519_getPublicKey privateKeyHex) in *.
  assert ((chain ++ [signed]) !! length chain = Some signed) as Hat
    by (by rewrite lookup_app_r, Nat.sub_diag by lia).
  assert (firstInvalidEvent (verifyEventChain (chain ++ [signed]) pk)
          = Some (length chain)) as Hfirst_bad.
  { apply verifyEventChain_first_least. split.
    - destruct chain as [|e0 chain'] using rev_ind.
      + exists FirstPrevHashNotNull. split; [|done].
        exists signed. split; [done|]. by rewrite Hprev.
      + clear IHchain'. rewrite last_snoc in Hwrong.
        exists (PrevHashMismatch (length (chain' ++ [e0])) (hash e0) (prev_hash signed)).
        split; [|done].
        exists (length chain'), e0, signed.
        split; [rewrite length_app; simpl; lia|].
        split; [|split; [done|]].
        * rewrite <- app_assoc, lookup_app_r, Nat.sub_diag by lia. done.
        * repeat split; try done. by rewrite Hprev.
    - intros j Hj (err & Hrep & Hidx).
      destruct err as [|k errs|k expected got]; simpl in Hidx, Hrep; subst.
      + destruct Hrep as (e & He & Hbad).
        rewrite lookup_app_l in He by lia. by apply Hbad, Hfirst.
      + destruct Hrep as (e & He & Hbad & _).
        rewrite lookup_app_l in He by lia. by apply Hbad, (Hev j).
      + destruct Hrep as (k & p & e & -> & Hp & He & _ & _ & Hbad).
        rewrite lookup_app_l in He by lia. rewrite lookup_app_l in Hp by lia.
        by apply Hbad, (Hl k). }
  split; [|split; [done|]].
  - destruct (c_valid (verifyEventChain (chain ++ [signed]) pk)) eqn:Hv; [|done].
    apply verifyEventChain_first_none in Hv. congruence.
  - rewrite verifyEventChain_total, length_app. simpl. lia.
Qed.

End SigningProofs.

Section SigningExamples.
Import Model ModelSigner Verification Signing.

Lemma model_scheme : @SignatureScheme Model.primitives ModelSigner.signer.
Proof.
  constructor. intros privateKeyHex message sig. cbn.
  destruct (String.eqb privateKeyHex EmptyString); [done|].
  intros [= <-]. unfold Model.verify, Model.sign. cbn.
  by rewrite String.eqb_refl.
Qed.

Lemma signEvent_verifies_witness :
  signEvent (MoreExamples.unsigned 1 1000) "pkA" = Some MoreExamples.signed1
  /\ verifyEvent MoreExamples.signed1 "pkA" = {| valid := true; errors := [] |}.
Proof.
  split; [reflexivity|].
  exact (proj1 (signEvent_verifies (H1 := model_scheme) (MoreExamples.unsigned 1 1000)
                  "pkA" MoreExamples.signed1 eq_refl)).
Defined.

Lemma sign_chain_verifies_witness :
  sign_chain "pkA" None [MoreExamples.unsigned 1 1000; MoreExamples.unsigned 2 2000]
  = Some MoreExamples.chain2
  /\ verifyEventChain MoreExamples.chain2 "pkA"
     = {| c_valid := true; c_errors := []; firstInvalidEvent := None;
          totalEvents := 2 |}.
Proof.
  split; [reflexivity|].
  exact (sign_chain_verifies (H1 := model_scheme) "pkA"
           [MoreExamples.unsigned 1 1000; MoreExamples.unsigned 2 2000]
           MoreExamples.chain2 eq_refl).
Defined.

Lemma broken_link_detected_witness :
  sign_chain "pkA" None [MoreExamples.unsigned 1 1000; MoreExamples.unsigned 2 2000]
  = Some MoreExamples.chain2
  /\ signEventInChain (MoreExamples.unsigned 3 3000) None "pkA"
     = Some MoreExamples.unlinked3
  /\ None <> hash <$> last MoreExamples.chain2
  /\ firstInvalidEvent
       (verifyEventChain (MoreExamples.chain2 ++ [MoreExamples.unlinked3]) "pkA")
     = Some 2%nat.
Proof.
  split; [reflexivity|]. split; [reflexivity|].
  assert (None <> hash <$> last MoreExamples.chain2) as Hwrong
    by (vm_compute; discriminate).
  split; [exact Hwrong|].
  exact (proj1 (proj2 (broken_link_detected (H1 := model_scheme) "pkA"
                         [MoreExamples.unsigned 1 1000; MoreExamples.unsigned 2 2000]
                         MoreExamples.chain2 (MoreExamples.unsigned 3 3000) None
                         MoreExamples.unlinked3 eq_refl eq_refl Hwrong))).
Defined.

End SigningExamples.

(** ** The ledger: admission, head and chain invariants *)

Section SortFacts.
Context {A : Type} (le : A -> A -> bool).

Lemma insert_by_snoc (y x : A) (s : list A) :
  le y x = true -> insert_by le y (s ++ [x]) = insert_by le y s ++ [x].
Proof.
  intros Hyx. induction s as [|z s IH]; simpl.
  - by rewrite Hyx.
  - destruct (le y z); [done|]. by rewrite IH.
Qed.

(** An element that every other one precedes is sorted to the end. *)
Lemma sort_by_snoc_last (x : A) (l : list A) :
  (forall y, y ∈ l -> le y x = true) ->
  sort_by le (l ++ [x]) = sort_by le l ++ [x].
Proof.
  intros Hall. unfold sort_by. rewrite foldr_app. simpl.
  induction l as [|y l IH]; simpl; [done|].
  rewrite IH by (intros z Hz; apply Hall, elem_of_cons; by right).
  apply insert_by_snoc, Hall, elem_of_cons. by left.
Qed.

(** An element that precedes every other one is sorted to the front. *)
Lemma sort_by_snoc_first (x : A) (l : list A) :
  (forall y, y ∈ l -> le y x = false) ->
  sort_by le (l ++ [x]) = x :: sort_by le l.
Proof.
  intros Hall. unfold sort_by. rewrite foldr_app. simpl.
  induction l as [|y l IH]; simpl; [done|].
  rewrite IH by (intros z Hz; apply Hall, elem_of_cons; by right).
  simpl. rewrite Hall; [done|]. apply elem_of_cons. by left.
Qed.

End SortFacts.

Section LedgerFacts.
Import LedgerSpec.

Lemma next_id_gt (events : list Events.Event) (e : Events.Event) :
  e ∈ events -> Events.id e < Events.next_id events.
Proof.
  unfold Events.next_id. induction events as [|x events IH]; simpl.
  - by intros Hin%elem_of_nil.
  - intros [->|Hin]%elem_of_cons; [lia|]. specialize (IH Hin). lia.
Qed.

Lemma existsb_hash (events : list Events.Event) (h : string) :
  existsb (fun e => String.eqb (Events.hash e) h) events = false <->
  forall e, e ∈ events -> Events.hash e <> h.
Proof.
  induction events as [|x events IH]; simpl.
  - split; [|done]. by intros _ e Hin%elem_of_nil.
  - rewrite orb_false_iff, IH, String.eqb_neq. split.
    + intros [Hx Hall] e [->|Hin]%elem_of_cons; [done | by apply Hall].
    + intros Hall. split; [apply Hall, elem_of_cons; by left|].
      intros e Hin. apply Hall, elem_of_cons. by right.
Qed.

(** The agent's events after a row was added at the end. *)
Lemma filter_agent_snoc (events : list Events.Event) (row : Events.Event)
    (agent : string) :
  filter (fun e => Events.agentId e = agent) (events ++ [row])
  = filter (fun e => Events.agentId e = agent) events
    ++ (if decide (Events.agentId row = agent) then [row] else []).
Proof.
  by rewrite filter_app.
Qed.

Lemma getAgentChain_snoc (events : list Events.Event) (row : Events.Event) :
  (forall e, e ∈ events -> Events.id e < Events.id row) ->
  not_before events (Events.agentId row) (Events.timestamp row) ->
  Events.getAgentChain (events ++ [row]) (Events.agentId row)
  = Events.getAgentChain events (Events.agentId row) ++ [row].
Proof.
  intros Hid Hts. unfold Events.getAgentChain.
  rewrite filter_agent_snoc, decide_True by done.
  apply sort_by_snoc_last. intros y [Hy Hin]%list_elem_of_filter.
  specialize (Hid y Hin). specialize (Hts y Hin Hy).
  unfold Events.earlier_first. lia.
Qed.

Lemma getLastEventForAgent_snoc (events : list Events.Event) (row : Events.Event) :
  (forall e, e ∈ events -> Events.id e < Events.id row) ->
  not_before events (Events.agentId row) (Events.timestamp row) ->
  Events.getLastEventForAgent (events ++ [row]) (Events.agentId row) = Some row.
Proof.
  intros Hid Hts. unfold Events.getLastEventForAgent.
  rewrite filter_agent_snoc, decide_True by done.
  rewrite sort_by_snoc_first; [done|].
  intros y [Hy Hin]%list_elem_of_filter.
  specialize (Hid y Hin). specialize (Hts y Hin Hy).
  unfold Events.later_first. lia.
Qed.

Lemma other_agent_snoc (events : list Events.Event) (row : Events.Event)
    (agent : string) :
  Events.agentId row <> agent ->
  Events.getAgentChain (events ++ [row]) agent = Events.getAgentChain events agent
  /\ Events.getLastEventForAgent (events ++ [row]) agent
     = Events.getLastEventForAgent events agent.
Proof.
  intros Hne. unfold Events.getAgentChain, Events.getLastEventForAgent.
  by rewrite filter_agent_snoc, decide_False, app_nil_r.
Qed.

End LedgerFacts.

Section HeadFacts.
Import LedgerSpec.

Lemma same_id_same_event (events : list Events.Event) (x y : Events.Event) :
  unique_ids events -> x ∈ events -> y ∈ events ->
  Events.id x = Events.id y -> x = y.
Proof.
  unfold unique_ids. induction events as [|z events IH]; simpl.
  - by intros _ Hx%elem_of_nil.
  - intros [Hz Hnodup]%NoDup_cons Hx Hy Hid.
    assert (forall e, e ∈ events -> Events.id e <> Events.id z) as Hfresh.
    { intros e He Heq. apply Hz. rewrite <- Heq.
      apply list_elem_of_fmap. by exists e. }
    apply elem_of_cons in Hx as [->|Hx]; apply elem_of_cons in Hy as [->|Hy].
    + done.
    + by destruct (Hfresh y Hy).
    + by destruct (Hfresh x Hx).
    + by apply IH.
Qed.

Lemma earlier_trans :
  Transitive (fun a b : Events.Event => Events.earlier_first a b = true).
Proof. intros a b c. unfold Events.earlier_first. lia. Qed.

Lemma later_trans :
  Transitive (fun a b : Events.Event => Events.later_first a b = true).
Proof. intros a b c. unfold Events.later_first. lia. Qed.

Lemma later_is_earlier (a b : Events.Event) :
  Events.later_first a b = Events.earlier_first b a.
Proof. reflexivity. Qed.

Lemma later_first_total (a b : Events.Event) :
  Events.later_first a b = false -> Events.later_first b a = true.
Proof. unfold Events.later_first. lia. Qed.

Lemma StronglySorted_snoc_all {A} (R : A -> A -> Prop) (s : list A) (m : A) :
  StronglySorted R (s ++ [m]) -> forall y, y ∈ s -> R y m.
Proof.
  induction s as [|z s IH]; simpl.
  - by intros _ y Hy%elem_of_nil.
  - intros [Hs Hall]%StronglySorted_inv y [->|Hy]%elem_of_cons.
    + rewrite Forall_forall in Hall. apply Hall, elem_of_app. right.
      by apply list_elem_of_singleton.
    + by apply IH.
Qed.

(** With unique ids, the event that [getLastEventForAgent] returns is
    the last event of the chain [getAgentChain] returns. *)
Lemma getLastEventForAgent_last (events : list Events.Event) (agent : string) :
  unique_ids events ->
  Events.getLastEventForAgent events agent
  = last (Events.getAgentChain events agent).
Proof.
  intros Hids. unfold Events.getLastEventForAgent, Events.getAgentChain.
  set (l := filter (fun e => Events.agentId e = agent) events).
  assert (forall e, e ∈ l -> e ∈ events) as Hsub
    by (by intros e [_ ?]%list_elem_of_filter).
  pose proof (sort_by_Permutation Events.later_first l) as Hpd.
  pose proof (sort_by_Permutation Events.earlier_first l) as Hpa.
  pose proof (sort_by_Sorted Events.later_first l later_first_total) as Hsd.
  pose proof (sort_by_Sorted Events.earlier_first l earlier_first_total) as Hsa.
  destruct (sort_by Events.later_first l) as [|m' d] eqn:Hd.
  - apply Permutation_nil_l in Hpd. rewrite <- Hpd. done.
  - destruct (last (sort_by Events.earlier_first l)) as [m|] eqn:Hlast.
    2: { apply last_None in Hlast. rewrite Hlast in Hpa.
         apply Permutation_nil_l in Hpa. rewrite <- Hpa in Hpd.
         by apply Permutation_nil_r in Hpd. }
    simpl. f_equal.
    apply last_Some in Hlast as [s Hs]. rewrite Hs in Hsa, Hpa.
    assert (m' ∈ l) as Hm'l by (rewrite <- Hpd; apply elem_of_cons; by left).
    assert (m ∈ l) as Hml
      by (rewrite <- Hpa; apply elem_of_app; right; by apply list_elem_of_singleton).
    assert (Events.earlier_first m' m = true) as H1.
    { rewrite <- Hpa in Hm'l. apply elem_of_app in Hm'l as [Hin|Hin].
      - apply Sorted_StronglySorted in Hsa; [|exact earlier_trans].
        by apply (StronglySorted_snoc_all _ _ _ Hsa).
      - apply list_elem_of_singleton in Hin as ->.
        unfold Events.earlier_first. lia. }
    assert (Events.earlier_first m m' = true) as H2.
    { rewrite <- Hpd in Hml. apply elem_of_cons in Hml as [->|Hin].
      - unfold Events.earlier_first. lia.
      - apply Sorted_StronglySorted in Hsd; [|exact later_trans].
        apply StronglySorted_inv in Hsd as [_ Hall].
        rewrite Forall_forall in Hall. rewrite <- later_is_earlier.
        by apply Hall. }
    apply (same_id_same_event events); [done | by apply Hsub | by apply Hsub |].
    unfold Events.earlier_first in H1, H2. lia.
Qed.

End HeadFacts.

Section AdmissionProofs.
Context `{Primitives}.
Import Verification ChainSpec LedgerSpec.

Lemma chain_ok_snoc (l : list SignedEvent) (e : SignedEvent) (pk : string) :
  chain_ok (l ++ [e]) pk <->
  chain_ok l pk /\ event_ok pk e /\ prev_hash e = hash <$> last l.
Proof.
  assert ((l ++ [e]) !! length l = Some e) as Hat
    by (by rewrite lookup_app_r, Nat.sub_diag by lia).
  split.
  - intros (Hfirst & Hev & Hlinks). split; [split; [|split]|split].
    + intros e0 He0. apply Hfirst. rewrite lookup_app_l; [done|].
      by apply lookup_lt_Some in He0.
    + intros i e0 He0. apply (Hev i). rewrite lookup_app_l; [done|].
      by apply lookup_lt_Some in He0.
    + intros i p e0 Hp He0. apply (Hlinks i).
      * rewrite lookup_app_l; [done|]. by apply lookup_lt_Some in Hp.
      * rewrite lookup_app_l; [done|]. by apply lookup_lt_Some in He0.
    + by apply (Hev (length l)).
    + destruct l as [|x l'] using rev_ind; [by apply Hfirst|].
      rewrite last_snoc. simpl. apply (Hlinks (length l')).
      * rewrite <- app_assoc, lookup_app_r, Nat.sub_diag by lia. done.
      * rewrite length_app in Hat. simpl in Hat.
        by replace (S (length l')) with (length l' + 1)%nat by lia.
  - intros ((Hfirst & Hev & Hlinks) & Hok & Hprev). split; [|split].
    + destruct l as [|x l']; simpl; [by intros ? [= <-] | apply Hfirst].
    + intros i e0 He0. destruct (decide (i < length l)%nat) as [Hi|Hi].
      * rewrite lookup_app_l in He0 by done. by apply (Hev i).
      * assert (i = length l) as ->.
        { apply lookup_lt_Some in He0. rewrite length_app in He0. simpl in He0. lia. }
        rewrite Hat in He0. by injection He0 as <-.
    + intros i p e0 Hp He0.
      assert (S i < length (l ++ [e]))%nat as Hlt by (by apply lookup_lt_Some in He0).
      rewrite length_app in Hlt. simpl in Hlt.
      rewrite lookup_app_l in Hp by lia.
      destruct (decide (S i < length l)%nat) as [Hi|Hi].
      * rewrite lookup_app_l in He0 by done. by apply (Hlinks i).
      * assert (S i = length l) as Hsi by lia.
        rewrite Hsi, Hat in He0. injection He0 as <-.
        rewrite Hprev, last_lookup, <- Hsi. simpl. by rewrite Hp.
Qed.

Lemma appendEvent_admitted (db : EventService.Db) (now1 now2 : Z)
    (request : EventService.AppendEventRequest) :
  admissible db now1 request ->
  EventService.appendEvent db now1 now2 request
  = ({| EventService.agents := EventService.agents db;
        EventService.events := EventService.events db ++ [new_row db now2 request] |},
     inl (new_row db now2 request)).
Proof.
  intros [(agent & Hagent & Hactive & Hok) Hfresh].
  apply verifyEvent_valid in Hok. unfold server_view in Hok.
  unfold EventService.appendEvent. rewrite Hagent, Hactive. cbn [Agents.status_eqb negb].
  rewrite Hok. cbn [negb prev_hash].
  rewrite (proj2 (option_string_eqb_eq _ _) eq_refl). cbn [negb].
  unfold Events.append. cbn [Events.n_hash].
  by rewrite (proj2 (existsb_hash _ _) Hfresh).
Qed.

Lemma appendEvent_inl_inv (db db' : EventService.Db) (now1 now2 : Z)
    (request : EventService.AppendEventRequest) (event : Events.Event) :
  EventService.appendEvent db now1 now2 request = (db', inl event) ->
  admissible db now1 request.
Proof.
  unfold EventService.appendEvent, admissible.
  destruct (Agents.findById _ _) as [agent|] eqn:Hagent; [|done].
  destruct (Agents.status agent) eqn:Hstatus; [|done]. cbn [Agents.status_eqb negb].
  destruct (valid _) eqn:Hvalid; [|done]. cbn [negb].
  destruct (negb (option_string_eqb _ _)); [done|].
  unfold Events.append. cbn [Events.n_hash].
  destruct (existsb _ _) eqn:Hex; [done|]. intros _. split.
  - exists agent. split; [done|]. split; [done|]. by apply verifyEvent_valid.
  - by apply existsb_hash.
Qed.


End AdmissionProofs.

Section InvariantProofs.
Context `{Primitives}.
Import Verification ChainSpec LedgerSpec.

Lemma filter_none {A} (P : A -> Prop) `{forall x, Decision (P x)} (l : list A) :
  (forall x, x ∈ l -> ~ P x) -> filter P l = [].
Proof.
  intros Hall. apply elem_of_nil_inv. intros x [HP Hin]%list_elem_of_filter.
  by apply (Hall x).
Qed.

Lemma appendEvent_success (db db' : EventService.Db) (now1 now2 : Z)
    (request : EventService.AppendEventRequest) (event : Events.Event) :
  EventService.appendEvent db now1 now2 request = (db', inl event) ->
  admissible db now1 request
  /\ event = new_row db now2 request
  /\ db' = {| EventService.agents := EventService.agents db;
              EventService.events := EventService.events db ++ [event] |}.
Proof.
  intros Hres. pose proof (appendEvent_inl_inv _ _ _ _ _ _ Hres) as Hadm.
  split; [done|]. rewrite (appendEvent_admitted _ _ now2 _ Hadm) in Hres.
  by injection Hres as <- <-.
Qed.

Lemma new_row_fresh_id (db : EventService.Db) (now2 : Z)
    (request : EventService.AppendEventRequest) (e : Events.Event) :
  e ∈ EventService.events db -> Events.id e < Events.id (new_row db now2 request).
Proof. intros He. by apply next_id_gt. Qed.

Lemma append_unique (db db' : EventService.Db) (now1 now2 : Z)
    (request : EventService.AppendEventRequest) (event : Events.Event) :
  EventService.appendEvent db now1 now2 request = (db', inl event) ->
  EventService.agents db' = EventService.agents db
  /\ (unique_ids (EventService.events db) -> unique_ids (EventService.events db'))
  /\ (unique_hashes (EventService.events db) ->
      unique_hashes (EventService.events db')).
Proof.
  intros Hres. destruct (appendEvent_success _ _ _ _ _ _ Hres) as ([_ Hfresh] & -> & ->).
  cbn [EventService.agents EventService.events]. split; [done|]. split.
  - unfold unique_ids. rewrite map_app. intros Hnodup. apply NoDup_app.
    split; [done|]. split; [|apply NoDup_singleton].
    intros i [e [-> He]]%list_elem_of_fmap Heq%list_elem_of_singleton.
    pose proof (new_row_fresh_id db now2 request e He). lia.
  - unfold unique_hashes. rewrite map_app. intros Hnodup. apply NoDup_app.
    split; [done|]. split; [|apply NoDup_singleton].
    intros h [e [-> He]]%list_elem_of_fmap Heq%list_elem_of_singleton.
    by apply (Hfresh e He).
Qed.

Lemma append_chain (db db' : EventService.Db) (now1 now2 : Z)
    (request : EventService.AppendEventRequest) (event : Events.Event) :
  EventService.appendEvent db now1 now2 request = (db', inl event) ->
  not_before (EventService.events db) (EventService.agentId request)
             (default now2 (EventService.timestamp request)) ->
  Events.getAgentChain (EventService.events db') (EventService.agentId request)
  = Events.getAgentChain (EventService.events db) (EventService.agentId request)
    ++ [event]
  /\ (forall agent, agent <> EventService.agentId request ->
        Events.getLastEventForAgent (EventService.events db') agent
        = Events.getLastEventForAgent (EventService.events db) agent
        /\ Events.getAgentChain (EventService.events db') agent
           = Events.getAgentChain (EventService.events db) agent).
Proof.
  intros Hres Hts. destruct (appendEvent_success _ _ _ _ _ _ Hres) as (_ & -> & ->).
  cbn [EventService.events]. split.
  - apply (getAgentChain_snoc _ (new_row db now2 request)); [|done].
    intros e He. by apply new_row_fresh_id.
  - intros agent Hne.
    destruct (other_agent_snoc (EventService.events db) (new_row db now2 request) agent)
      as [Hchain Hlast]; [by simpl|].
    by rewrite Hchain, Hlast.
Qed.

Lemma toSignedEvent_new_row (db : EventService.Db) (now1 now2 t : Z)
    (request : EventService.AppendEventRequest) :
  EventService.timestamp request = Some t ->
  EventService.correlationId request <> Some EmptyString ->
  EventService.toSignedEvent (new_row db now2 request) = server_view db now1 request.
Proof.
  intros Ht Hc. unfold EventService.toSignedEvent, new_row, server_view.
  cbn [Events.agentId Events.eventType Events.timestamp Events.prevHash Events.hash
       Events.payload Events.signature Events.correlationId].
  rewrite Ht. cbn [default]. f_equal.
  destruct (EventService.correlationId request) as [[|c s]|]; done.
Qed.

Lemma chain_valid_eq (db : EventService.Db) (agent : string) (a : Agents.Agent) :
  Agents.findById (EventService.agents db) agent = Some a ->
  chain_valid db agent
  = c_valid (verifyEventChain
               (map EventService.toSignedEvent
                    (Events.getAgentChain (EventService.events db) agent))
               (Agents.publicKey a)).
Proof.
  intros Ha. unfold chain_valid. by rewrite (verifyAgentChain_eq db agent a Ha).
Qed.

Lemma chain_valid_unknown (db : EventService.Db) (agent : string) :
  Agents.findById (EventService.agents db) agent = None ->
  chain_valid db agent = false.
Proof.
  intros Ha. unfold chain_valid, EventService.verifyAgentChain. by rewrite Ha.
Qed.

Lemma append_keeps_valid (db db' : EventService.Db) (now1 now2 t : Z)
    (request : EventService.AppendEventRequest) (event : Events.Event) :
  EventService.appendEvent db now1 now2 request = (db', inl event) ->
  EventService.timestamp request = Some t ->
  EventService.correlationId request <> Some EmptyString ->
  unique_ids (EventService.events db) ->
  not_before (EventService.events db) (EventService.agentId request) t ->
  forall agent, chain_valid db' agent = chain_valid db agent.
Proof.
  intros Hres Ht Hc Hids Hts agent.
  assert (not_before (EventService.events db) (EventService.agentId request)
                     (default now2 (EventService.timestamp request))) as Hts'
    by (by rewrite Ht).
  destruct (append_chain _ _ _ _ _ _ Hres Hts') as (Hchain & Hother).
  destruct (appendEvent_success _ _ _ _ _ _ Hres) as (Hadm & Hevent & Hdb').
  assert (EventService.agents db' = EventService.agents db) as Hagents by (by subst db').
  destruct (Agents.findById (EventService.agents db) agent) as [a|] eqn:Ha.
  2: { rewrite !chain_valid_unknown; [done..|]. by rewrite Hagents. }
  rewrite (chain_valid_eq db' agent a) by (by rewrite Hagents).
  rewrite (chain_valid_eq db agent a) by done.
  destruct (decide (agent = EventService.agentId request)) as [->|Hne].
  2: { by destruct (Hother agent Hne) as [_ ->]. }
  rewrite Hchain, map_app. cbn [map].
  apply eq_true_iff_eq. rewrite !verifyEventChain_valid_ok, chain_ok_snoc.
  destruct Hadm as [(a' & Ha' & _ & Hok) _].
  assert (a' = a) as -> by congruence.
  rewrite Hevent, (toSignedEvent_new_row db now1 now2 t) by done.
  split; [tauto|]. intros Hold. split; [done|]. split; [done|].
  unfold server_view at 1. cbn [prev_hash].
  rewrite (getLastEventForAgent_last _ _ Hids), fmap_last.
  destruct (last _); done.
Qed.

(** X6.  An admitted event gets an id above every stored id, and the
    ledger stays free of duplicate ids and duplicate hashes; the new
    event is then found by its hash and by its id, and the registered
    agents are untouched. *)
Theorem appendEvent_keeps_unique (db db' : EventService.Db) (now1 now2 : Z)
    (request : EventService.AppendEventRequest) (event : Events.Event) :
  EventService.appendEvent db now1 now2 request = (db', inl event) ->
  EventService.agents db' = EventService.agents db
  /\ (forall e, e ∈ EventService.events db -> Events.id e < Events.id event)
  /\ (unique_ids (EventService.events db) -> unique_ids (EventService.events db'))
  /\ (unique_hashes (EventService.events db) ->
      unique_hashes (EventService.events db'))
  /\ Ledger.findByHash (EventService.events db') (EventService.hash request)
     = Some event
  /\ Ledger.getEvent db' (Events.id event) = inl event.
Proof.
  intros Hres. destruct (append_unique _ _ _ _ _ _ Hres) as (Hagents & Hids & Hhashes).
  destruct (appendEvent_success _ _ _ _ _ _ Hres) as ([_ Hfresh] & -> & ->).
  cbn [EventService.agents EventService.events] in *.
  split; [done|]. split; [intros e He; by apply new_row_fresh_id|].
  split; [done|]. split; [done|]. split.
  - unfold Ledger.findByHash. rewrite filter_app, filter_none.
    + by rewrite filter_cons_True.
    + intros e He. by apply Hfresh.
  - unfold Ledger.getEvent, Ledger.findById.
    cbn [EventService.events]. rewrite filter_app, filter_none.
    + by rewrite filter_cons_True.
    + intros e He Heq. pose proof (new_row_fresh_id db now2 request e He). lia.
Qed.

(** X7.  When no stored event of the agent is later than the admitted
    one, the admitted event becomes the head: it is the last event of
    the agent's chain, its [prev_hash] is the former head, and
    [getLastEventHash] now returns its hash.  The heads and chains of
    the other agents do not change. *)
Theorem appendEvent_moves_head (db db' : EventService.Db) (now1 now2 : Z)
    (request : EventService.AppendEventRequest) (event : Events.Event) :
  EventService.appendEvent db now1 now2 request = (db', inl event) ->
  not_before (EventService.events db) (EventService.agentId request)
             (default now2 (EventService.timestamp request)) ->
  Events.prevHash event = Ledger.getLastEventHash db (EventService.agentId request)
  /\ Ledger.getLastEventHash db' (EventService.agentId request)
     = Some (EventService.hash request)
  /\ Events.getAgentChain (EventService.events db') (EventService.agentId request)
     = Events.getAgentChain (EventService.events db) (EventService.agentId request)
       ++ [event]
  /\ (forall agent, agent <> EventService.agentId request ->
        Ledger.getLastEventHash db' agent = Ledger.getLastEventHash db agent
        /\ Events.getAgentChain (EventService.events db') agent
           = Events.getAgentChain (EventService.events db) agent).
Proof.
  intros Hres Hts. destruct (append_chain _ _ _ _ _ _ Hres Hts) as (Hchain & Hother).
  destruct (appendEvent_success _ _ _ _ _ _ Hres) as (_ & Hevent & Hdb').
  split; [by subst event|]. split; [|split; [done|]].
  - subst event db'. unfold Ledger.getLastEventHash. cbn [EventService.events].
    rewrite (getLastEventForAgent_snoc _ (new_row db now2 request)); [done| |done].
    intros e He. by apply new_row_fresh_id.
  - intros agent Hne. destruct (Hother agent Hne) as [Hlast Hch].
    unfold Ledger.getLastEventHash. by rewrite Hlast, Hch.
Qed.



End InvariantProofs.

Section ClientProofs.
Context `{SignatureScheme}.
Import Verification ChainSpec LedgerSpec.

(** X10.  A request built by [TrustClient.appendEvent] is admitted when
    the client's [lastEventHash] is the agent's stored head, the agent
    is registered and active under the public key of the client's
    private key, and the hash is new.  If no stored event of the agent
    is later, the hash the client keeps as its next [lastEventHash] is
    the new stored head. *)
Theorem client_append_admitted (db : EventService.Db) (now1 now2 : Z)
    (agent : Agents.Agent) (privateKey : string) (lastEventHash : option string)
    (eventType : string) (timestamp : Z) (payload : jsval)
    (correlationId : option string) (request : EventService.AppendEventRequest) :
  Agents.findById (EventService.agents db) (Agents.agentId agent) = Some agent ->
  Agents.status agent = Agents.active ->
  Agents.publicKey agent = ed25519_getPublicKey privateKey ->
  lastEventHash = Ledger.getLastEventHash db (Agents.agentId agent) ->
  Ledger.client_append (Agents.agentId agent) privateKey lastEventHash eventType
    timestamp payload correlationId = Some request ->
  (forall e, e ∈ EventService.events db ->
             Events.hash e <> EventService.hash request) ->
  exists db' event,
    EventService.appendEvent db now1 now2 request = (db', inl event)
    /\ Events.hash event = EventService.hash request
    /\ Events.prevHash event = lastEventHash
    /\ (not_before (EventService.events db) (Agents.agentId agent) timestamp ->
        Ledger.getLastEventHash db' (Agents.agentId agent)
        = Some (EventService.hash request)).
Proof.
  intros Hagent Hactive Hkey Hlast Hreq Hfresh.
  unfold Ledger.client_append in Hreq.
  destruct (Signing.signEventInChain _ lastEventHash privateKey) as [signed|]
    eqn:Hsigned; [|done].
  injection Hreq as <-.
  destruct (signEvent_ok _ _ _ Hsigned) as (Hprep & _ & Hok).
  set (request := {| EventService.agentId := Agents.agentId agent;
                     EventService.hash := hash signed |}) in *.
  assert (server_view db now1 request = signed) as Hview.
  { unfold server_view, request. cbn [EventService.agentId EventService.eventType
      EventService.timestamp EventService.payload EventService.correlationId
      EventService.hash EventService.signature default].
    fold (Ledger.getLastEventHash db (Agents.agentId agent)). rewrite <- Hlast.
    destruct signed. unfold prepareForSigning, Signing.linkToPrevious in Hprep.
    cbn in Hprep. injection Hprep as -> -> -> -> -> ->. done. }
  assert (admissible db now1 request) as Hadm.
  { split; [|done]. exists agent. split; [done|]. split; [done|].
    by rewrite Hview, Hkey. }
  exists {| EventService.agents := EventService.agents db;
            EventService.events := EventService.events db ++ [new_row db now2 request] |},
         (new_row db now2 request).
  split; [by apply appendEvent_admitted|]. split; [done|]. split.
  - cbn [new_row Events.prevHash]. by rewrite Hlast.
  - intros Hts. unfold Ledger.getLastEventHash. cbn [EventService.events].
    rewrite (getLastEventForAgent_snoc _ (new_row db now2 request)); [done| |done].
    intros e He. by apply next_id_gt.
Qed.

End ClientProofs.

Section LedgerExamples.
Import Model ModelSigner Verification LedgerSpec.

Lemma ledger1_events : EventService.events Examples.ledger1 = [MoreExamples.row1].
Proof. vm_compute. reflexivity. Qed.

Lemma ledger1_not_before (t : Z) :
  1000 <= t -> not_before (EventService.events Examples.ledger1) "a11ce" t.
Proof.
  intros Ht e He _. rewrite ledger1_events in He.
  apply list_elem_of_singleton in He as ->. exact Ht.
Qed.

Lemma ledger1_unique_ids : unique_ids (EventService.events Examples.ledger1).
Proof.
  unfold unique_ids. rewrite ledger1_events. apply NoDup_singleton.
Qed.

Lemma ledger1_append :
  EventService.appendEvent Examples.ledger1 5000 5000 Examples.request2
  = (MoreExamples.ledger2, inl MoreExamples.row2).
Proof. vm_compute. reflexivity. Qed.

Lemma ledger2_reachable : reachable [Examples.alice] MoreExamples.ledger2.
Proof.
  apply (reachable_append _ Examples.ledger1 5000 5000 Examples.request2 2000
           MoreExamples.ledger2 MoreExamples.row2).
  - apply (reachable_append _ Examples.empty_ledger 5000 5000 Examples.request1 1000
             Examples.ledger1 MoreExamples.row1).
    + apply reachable_empty.
    + vm_compute. reflexivity.
    + reflexivity.
    + discriminate.
    + intros e He. by apply elem_of_nil in He.
  - exact ledger1_append.
  - reflexivity.
  - discriminate.
  - apply ledger1_not_before. lia.
Qed.

Lemma appendEvent_keeps_unique_witness :
  EventService.appendEvent Examples.ledger1 5000 5000 Examples.request2
  = (MoreExamples.ledger2, inl MoreExamples.row2)
  /\ Ledger.getEvent MoreExamples.ledger2 (Events.id MoreExamples.row2)
     = inl MoreExamples.row2.
Proof.
  split; [exact ledger1_append|].
  exact (proj2 (proj2 (proj2 (proj2 (proj2
           (appendEvent_keeps_unique Examples.ledger1 MoreExamples.ledger2 5000 5000
              Examples.request2 MoreExamples.row2 ledger1_append)))))).
Defined.

Lemma appendEvent_moves_head_witness :
  EventService.appendEvent Examples.ledger1 5000 5000 Examples.request2
  = (MoreExamples.ledger2, inl MoreExamples.row2)
  /\ not_before (EventService.events Examples.ledger1) "a11ce" 2000
  /\ Ledger.getLastEventHash MoreExamples.ledger2 "a11ce"
     = Some (EventService.hash Examples.request2).
Proof.
  assert (1000 <= 2000) as Hle by lia.
  split; [exact ledger1_append|]. split; [exact (ledger1_not_before 2000 Hle)|].
  exact (proj1 (proj2 (appendEvent_moves_head Examples.ledger1 MoreExamples.ledger2
                         5000 5000 Examples.request2 MoreExamples.row2 ledger1_append
                         (ledger1_not_before 2000 Hle)))).
Defined.



Lemma client_append_admitted_witness :
  Agents.findById (EventService.agents Examples.ledger1) "a11ce" = Some Examples.alice
  /\ Agents.status Examples.alice = Agents.active
  /\ Agents.publicKey Examples.alice = ed25519_getPublicKey "pkA"
  /\ Some (EventService.hash Examples.request1)
     = Ledger.getLastEventHash Examples.ledger1 "a11ce"
  /\ Ledger.client_append "a11ce" "pkA" (Some (EventService.hash Examples.request1))
       "input_received" 2000 (JObj [("i", JNum 2)]) None = Some Examples.request2
  /\ (forall e, e ∈ EventService.events Examples.ledger1 ->
                Events.hash e <> EventService.hash Examples.request2)
  /\ exists db' event,
       EventService.appendEvent Examples.ledger1 5000 5000 Examples.request2
       = (db', inl event)
       /\ Events.hash event = EventService.hash Examples.request2
       /\ Events.prevHash event = Some (EventService.hash Examples.request1)
       /\ (not_before (EventService.events Examples.ledger1) "a11ce" 2000 ->
           Ledger.getLastEventHash db' "a11ce"
           = Some (EventService.hash Examples.request2)).
Proof.
  assert (forall e, e ∈ EventService.events Examples.ledger1 ->
                    Events.hash e <> EventService.hash Examples.request2) as Hfresh.
  { intros e He. rewrite ledger1_events in He.
    apply list_elem_of_singleton in He as ->. vm_compute. discriminate. }
  repeat (split; [reflexivity|]). split; [exact Hfresh|].
  exact (client_append_admitted (H1 := model_scheme) Examples.ledger1 5000 5000
           Examples.alice "pkA" (Some (EventService.hash Examples.request1))
           "input_received" 2000 (JObj [("i", JNum 2)]) None Examples.request2
           eq_refl eq_refl eq_refl eq_refl eq_refl Hfresh).
Defined.

(** Without the condition on the timestamps the head does not move: an
    event dated before the stored one is admitted, and the stored one
    stays the agent's last event. *)
Example backdated_event_not_head :
  exists db' event,
    EventService.appendEvent Examples.ledger1 5000 5000 MoreExamples.backdated_request
    = (db', inl event)
    /\ Ledger.getLastEventHash db' "a11ce" = Some (EventService.hash Examples.request1)
    /\ chain_valid db' "a11ce" = false.
Proof. eexists _, _. vm_compute. done. Qed.

End LedgerExamples.

(** ** Capability lifecycle *)

Section ListFacts.
Context {A : Type}.

Lemma filter_map_preserving (P : A -> Prop) `{forall x, Decision (P x)}
    (f : A -> A) (l : list A) :
  (forall x, P (f x) <-> P x) -> filter P (map f l) = map f (filter P l).
Proof.
  intros Hf. induction l as [|x l IH]; [done|]. simpl.
  destruct (decide (P x)) as [Hx|Hx].
  - rewrite (filter_cons_True P (f x)) by (by apply Hf).
    rewrite (filter_cons_True P x) by done. simpl. by rewrite IH.
  - rewrite (filter_cons_False P (f x)) by (by rewrite Hf).
    by rewrite (filter_cons_False P x).
Qed.

Lemma existsb_false_elem_of (p : A -> bool) (l : list A) :
  existsb p l = false <-> forall x, x ∈ l -> p x = false.
Proof.
  induction l as [|y l IH]; simpl.
  - split; [|done]. intros _ x Hx. by apply elem_of_nil in Hx.
  - rewrite orb_false_iff, IH. split.
    + intros [Hy Hl] x [->|Hx]%elem_of_cons; auto.
    + intros Hall. split; [apply Hall; by left|].
      intros x Hx. apply Hall. by right.
Qed.

Lemma filter_map_fixed (P Q : A -> Prop) `{forall x, Decision (P x)}
    `{forall x, Decision (Q x)} (f : A -> A) (l : list A) :
  (forall x, Q x -> f x = x) -> (forall x, ~ Q x -> ~ P (f x)) ->
  filter P (map f l) = filter Q (filter P l).
Proof.
  intros Hfix Hout. induction l as [|x l IH]; [done|]. simpl.
  destruct (decide (Q x)) as [Hq|Hq].
  - rewrite (Hfix x Hq). destruct (decide (P x)) as [Hp|Hp].
    + rewrite !(filter_cons_True P x) by done.
      rewrite (filter_cons_True Q x) by done. by rewrite IH.
    + by rewrite !(filter_cons_False P x).
  - rewrite (filter_cons_False P (f x)) by (by apply Hout).
    destruct (decide (P x)) as [Hp|Hp].
    + rewrite (filter_cons_True P x) by done.
      by rewrite (filter_cons_False Q x).
    + by rewrite (filter_cons_False P x).
Qed.

Lemma filter_map_same (P : A -> Prop) `{forall x, Decision (P x)}
    (f : A -> A) (l : list A) :
  (forall x, f x = x \/ (~ P (f x) /\ ~ P x)) ->
  filter P (map f l) = filter P l.
Proof.
  intros Hf. induction l as [|x l IH]; [done|]. simpl.
  destruct (Hf x) as [Hx|[Hfx Hx]].
  - rewrite Hx. destruct (decide (P x)).
    + rewrite !(filter_cons_True P x) by done. by rewrite IH.
    + by rewrite !(filter_cons_False P x).
  - rewrite (filter_cons_False P (f x)) by done.
    by rewrite (filter_cons_False P x).
Qed.

End ListFacts.

Section LifecycleProofs.
Context `{Primitives}.
Import Capabilities CapabilitySpec CapabilityService LifecycleSpec.

Lemma findByTokenHash_map (f : Capability -> Capability) (caps : list Capability)
    (h : string) :
  (forall c, tokenHash (f c) = tokenHash c) ->
  findByTokenHash (map f caps) h = f <$> findByTokenHash caps h.
Proof.
  intros Hf. unfold findByTokenHash.
  rewrite (filter_map_preserving (fun c => tokenHash c = h) f).
  - by destruct (filter _ caps).
  - intros c. by rewrite Hf.
Qed.

Lemma findByTokenHash_snoc_other (caps : list Capability) (row : Capability)
    (h : string) :
  h <> tokenHash row ->
  findByTokenHash (caps ++ [row]) h = findByTokenHash caps h.
Proof.
  intros Hne. unfold findByTokenHash.
  rewrite filter_app, filter_cons_False by congruence.
  by rewrite filter_nil, app_nil_r.
Qed.

Lemma findByTokenHash_snoc_new (caps : list Capability) (row : Capability) :
  (forall c, c ∈ caps -> tokenHash c <> tokenHash row) ->
  findByTokenHash (caps ++ [row]) (tokenHash row) = Some row.
Proof.
  intros Hfresh. unfold findByTokenHash.
  rewrite filter_app, filter_none by done. by rewrite filter_cons_True.
Qed.

Lemma create_inl (agents : list Agents.Agent) (caps caps' : list Capability)
    (row capability : Capability) :
  create agents caps row = (caps', inl capability) ->
  capability = row /\ caps' = caps ++ [row]
  /\ is_Some (Agents.findById agents (agentId row))
  /\ (forall c, c ∈ caps -> id c <> id row)
  /\ (forall c, c ∈ caps -> tokenHash c <> tokenHash row).
Proof.
  unfold create. destruct (Agents.findById agents (agentId row)) as [a|]; [|done].
  destruct (existsb (fun c => String.eqb (id c) (id row)) caps) eqn:Hid; [done|].
  destruct (existsb (fun c => String.eqb (tokenHash c) (tokenHash row)) caps) eqn:Hh;
    [done|].
  intros [= <- <-]. split; [done|]. split; [done|]. split; [by eexists|].
  rewrite existsb_false_elem_of in Hid. rewrite existsb_false_elem_of in Hh.
  split; intros c Hc Heq.
  - specialize (Hid c Hc). apply String.eqb_neq in Hid. done.
  - specialize (Hh c Hc). apply String.eqb_neq in Hh. done.
Qed.

(** X11.  A minted token validates until its expiry: after a successful
    [mintCapability], [validateToken] on the returned token gives the
    new capability at every time up to and including [expiresAt] and
    [Token expired] afterwards; tokens with another digest are answered
    as before; and the capability is listed for its agent, among the
    active ones exactly up to [expiresAt]. *)
Theorem mintCapability_roundtrip (agents : list Agents.Agent)
    (caps caps' : list Capability) (entropy : MintEntropy) (now : Z)
    (request : MintCapabilityRequest) (capability : Capability) (token : string) :
  mintCapability agents caps entropy now request = (caps', inl (capability, token)) ->
  caps' = caps ++ [capability]
  /\ token = Keystore.to_hex (random_token entropy)
  /\ (forall t, validateToken caps' t token
               = if (m_expiresAt request <? t)%Z
                 then Invalid (Some capability) "Token expired"
                 else Valid capability)
  /\ (forall t token', sha256 token' <> sha256 token ->
        validateToken caps' t token' = validateToken caps t token')
  /\ capability ∈ listCapabilities caps' now (m_agentId request) false
  /\ (forall t, capability ∈ listCapabilities caps' t (m_agentId request) true
               <-> t <= m_expiresAt request).
Proof.
  unfold mintCapability.
  destruct (create agents caps _) as [caps1 [c|e]] eqn:Hcreate; [|done].
  intros [= <- <- <-].
  apply create_inl in Hcreate as (-> & -> & _ & _ & Hfresh).
  set (row := {| id := random_uuid entropy; revokedAt := None |}) in *.
  split; [done|]. split; [done|]. split; [|split; [|split]].
  - intros t. unfold validateToken.
    change (sha256 (Keystore.to_hex (random_token entropy))) with (tokenHash row).
    by rewrite (findByTokenHash_snoc_new caps row Hfresh).
  - intros t token' Hne. unfold validateToken.
    by rewrite (findByTokenHash_snoc_other caps row (sha256 token')).
  - unfold listCapabilities, findAllForAgent. apply list_elem_of_filter.
    split; [done|]. apply elem_of_app. right. by apply list_elem_of_singleton.
  - intros t. unfold listCapabilities. rewrite findActiveForAgent_elem_of.
    unfold active_for. split; [tauto|]. intros Ht.
    split; [|done]. apply elem_of_app. right. by apply list_elem_of_singleton.
Qed.

Lemma findById_map (f : Capability -> Capability) (caps : list Capability)
    (capabilityId : string) :
  (forall c, id (f c) = id c) ->
  findById (map f caps) capabilityId = f <$> findById caps capabilityId.
Proof.
  intros Hf. unfold findById.
  rewrite (filter_map_preserving (fun c => id c = capabilityId) f).
  - by destruct (filter _ caps).
  - intros c. by rewrite Hf.
Qed.

Lemma findById_Some (caps : list Capability) (capabilityId : string) (c : Capability) :
  findById caps capabilityId = Some c -> c ∈ caps /\ id c = capabilityId.
Proof.
  unfold findById. intros Hhead.
  apply head_Some_elem_of, list_elem_of_filter in Hhead. tauto.
Qed.

Lemma findById_None (caps : list Capability) (capabilityId : string) :
  findById caps capabilityId = None <-> forall c, c ∈ caps -> id c <> capabilityId.
Proof.
  unfold findById. rewrite head_None. split.
  - intros Hnil c Hin Hh. by apply (filter_nil_not_elem_of _ _ c Hnil).
  - intros Hall. by apply filter_none.
Qed.

Lemma revokeCapability_inl (caps caps' : list Capability) (now : Z)
    (capabilityId : string) (returned : option Capability) :
  revokeCapability caps now capabilityId = (caps', inl returned) ->
  exists c, findById caps capabilityId = Some c /\ status c <> revoked
            /\ returned = Some (revoked_row now c)
            /\ caps' = map (fun c => if String.eqb (id c) capabilityId
                                     then revoked_row now c else c) caps.
Proof.
  unfold revokeCapability.
  destruct (findById caps capabilityId) as [c|] eqn:Hfind; [|done].
  destruct (status_eqb (status c) revoked) eqn:Hst; [done|].
  unfold revoke. intros [= <- <-]. exists c. split; [done|]. split.
  - intros Hrev. by rewrite Hrev in Hst.
  - split; [|done]. unfold findById in Hfind.
    by destruct (filter _ caps); simplify_eq/=.
Qed.

(** X12.  [revokeCapability] fails, changing nothing, exactly when no
    capability has the id or the one found is already revoked; a
    capability that is active or expired is revoked.  Afterwards its
    token is answered [Token revoked] at every time, every other token
    is answered as before, the capability is no longer among the active
    ones of any agent, and revoking it again fails. *)
Theorem revokeCapability_spec (caps : list Capability) (now : Z)
    (capabilityId : string) :
  (forall caps' e, revokeCapability caps now capabilityId = (caps', inr e) ->
     caps' = caps
     /\ ((e = CapabilityNotFound capabilityId
          /\ forall c, c ∈ caps -> id c <> capabilityId)
         \/ (e = AlreadyRevoked
             /\ exists c, findById caps capabilityId = Some c /\ status c = revoked)))
  /\ (forall caps' returned,
       revokeCapability caps now capabilityId = (caps', inl returned) ->
       (exists c, findById caps capabilityId = Some c /\ status c <> revoked
                  /\ returned = Some (revoked_row now c))
       /\ (forall t token c, findByTokenHash caps (sha256 token) = Some c ->
             id c = capabilityId ->
             validateToken caps' t token
             = Invalid (Some (revoked_row now c)) "Token revoked")
       /\ (forall t token,
             (forall c, findByTokenHash caps (sha256 token) = Some c ->
                        id c <> capabilityId) ->
             validateToken caps' t token = validateToken caps t token)
       /\ (forall t agent,
             findActiveForAgent caps' t agent
             = filter (fun c => id c <> capabilityId) (findActiveForAgent caps t agent))
       /\ (forall now', revokeCapability caps' now' capabilityId
                        = (caps', inr AlreadyRevoked))).
Proof.
  split.
  - intros caps' e. unfold revokeCapability.
    destruct (findById caps capabilityId) as [c|] eqn:Hfind.
    + destruct (status_eqb (status c) revoked) eqn:Hst.
      * intros [= <- <-]. split; [done|]. right. split; [done|].
        exists c. split; [done|]. by apply status_eqb_eq.
      * unfold revoke. done.
    + intros [= <- <-]. split; [done|]. left. split; [done|].
      by apply findById_None.
  - intros caps' returned Hres.
    destruct (revokeCapability_inl _ _ _ _ _ Hres) as (c & Hfind & Hst & -> & ->).
    set (f := fun c => if String.eqb (id c) capabilityId then revoked_row now c else c).
    assert (forall c, tokenHash (f c) = tokenHash c) as Hhash
      by (intros c0; unfold f; by destruct (String.eqb (id c0) capabilityId)).
    assert (forall c, id (f c) = id c) as Hid
      by (intros c0; unfold f; by destruct (String.eqb (id c0) capabilityId)).
    split; [by exists c|]. split; [|split; [|split]].
    + intros t token c0 Hc0 Hc0id. unfold validateToken.
      rewrite (findByTokenHash_map f), Hc0 by done. simpl.
      unfold f. by rewrite (proj2 (String.eqb_eq _ _) Hc0id).
    + intros t token Hother. unfold validateToken.
      rewrite (findByTokenHash_map f) by done.
      destruct (findByTokenHash caps (sha256 token)) as [c0|] eqn:Hc0; [|done].
      simpl. unfold f.
      by rewrite (proj2 (String.eqb_neq _ _) (Hother c0 eq_refl)).
    + intros t agent. unfold findActiveForAgent.
      apply (filter_map_fixed _ (fun c => id c <> capabilityId)).
      * intros c0 Hne. unfold f. by rewrite (proj2 (String.eqb_neq _ _) Hne).
      * intros c0 Heq. apply dec_stable in Heq. unfold f.
        rewrite (proj2 (String.eqb_eq _ _) Heq). simpl.
        by rewrite andb_false_r.
    + intros now'. unfold revokeCapability.
      rewrite (findById_map f), Hfind by done. simpl.
      apply findById_Some in Hfind as [_ Hcid]. unfold f.
      by rewrite (proj2 (String.eqb_eq _ _) Hcid).
Qed.

Lemma sweep_unseen (c : Capability) (s t : Z) :
  s < t ->
  let c' := if status_eqb (status c) active && (expiresAt c <=? s)%Z
            then {| id := id c; agentId := agentId c; scope := scope c;
                    issuedBy := issuedBy c; issuedAt := issuedAt c;
                    expiresAt := expiresAt c; status := expired;
                    tokenHash := tokenHash c; revokedAt := revokedAt c |}
            else c in
  c' = c
  \/ (status c = active /\ expiresAt c < t /\ status c' = expired
      /\ id c' = id c /\ tokenHash c' = tokenHash c /\ expiresAt c' = expiresAt c).
Proof.
  intros Hst. simpl.
  destruct (status_eqb (status c) active) eqn:Hact; [|by left].
  destruct (expiresAt c <=? s)%Z eqn:Hexp; [|by left].
  right. apply status_eqb_eq in Hact. apply Z.leb_le in Hexp. simpl.
  repeat split; try done. lia.
Qed.

(** X13.  The periodic sweep is not observable after its own instant:
    at any time later than the sweep, [checkPermission] answers as it
    would have without the sweep, and [validateToken] gives the same
    verdict (validity, reason and capability id).  At no time does a
    sweep make a token valid, and two sweeps amount to one sweep at the
    later of the two times. *)
Theorem expireOldCapabilities_unobservable (caps : list Capability) (s t : Z) :
  s < t ->
  (forall agent action,
      checkPermission (expireOldCapabilities caps s) t agent action
      = checkPermission caps t agent action)
  /\ (forall token,
        verdict (validateToken (expireOldCapabilities caps s) t token)
        = verdict (validateToken caps t token))
  /\ (forall t' token,
        is_valid (validateToken (expireOldCapabilities caps s) t' token) = true ->
        is_valid (validateToken caps t' token) = true)
  /\ (forall s', expireOldCapabilities (expireOldCapabilities caps s) s'
                 = expireOldCapabilities caps (Z.max s s')).
Proof.
  intros Hst. split; [|split; [|split]].
  - intros agent action. unfold checkPermission, expireOldCapabilities.
    f_equal. unfold findActiveForAgent. apply filter_map_same.
    intros c. destruct (sweep_unseen c s t Hst) as [Hc|(Hact & Hexp & Hst' & _)];
      [by left|right].
    simpl in *. split.
    + rewrite Hst'. simpl. by rewrite andb_false_r.
    + destruct (Z.leb_spec t (expiresAt c)); [lia|]. by rewrite andb_false_r.
  - intros token. unfold validateToken, expireOldCapabilities.
    rewrite findByTokenHash_map
      by (intros c; by destruct (status_eqb (status c) active && (expiresAt c <=? s)%Z)).
    destruct (findByTokenHash caps (sha256 token)) as [c|]; [|done]. simpl.
    destruct (status_eqb (status c) active) eqn:Hact; [|done].
    destruct (Z.leb_spec (expiresAt c) s) as [Hle|Hgt]; [|done]. simpl.
    apply status_eqb_eq in Hact. rewrite Hact. simpl.
    by destruct (Z.ltb_spec (expiresAt c) t); [|lia].
  - intros t' token. unfold validateToken, expireOldCapabilities.
    rewrite findByTokenHash_map
      by (intros c; by destruct (status_eqb (status c) active && (expiresAt c <=? s)%Z)).
    destruct (findByTokenHash caps (sha256 token)) as [c|]; [|done]. simpl.
    destruct (status_eqb (status c) active) eqn:Hact; [|done].
    destruct (expiresAt c <=? s)%Z; [done|done].
  - intros s'. unfold expireOldCapabilities. rewrite map_map.
    apply map_ext. intros c.
    destruct (status_eqb (status c) active) eqn:Hact; simpl; [|by rewrite Hact].
    destruct (Z.leb_spec (expiresAt c) s) as [Hle|Hgt]; simpl.
    + destruct (Z.leb_spec (expiresAt c) (Z.max s s')); [done|lia].
    + rewrite Hact. simpl.
      destruct (Z.leb_spec (expiresAt c) s'), (Z.leb_spec (expiresAt c) (Z.max s s'));
        (done || lia).
Qed.

(** X14.  After [revokeAllForAgent], [checkPermission] denies the agent
    every action at every time and none of its tokens validates; the
    active capabilities and the tokens of the other agents are not
    affected. *)
Theorem revokeAllForAgent_denies (caps : list Capability) (now : Z) (agent : string) :
  (forall t action,
      checkPermission (revokeAllForAgent caps now agent) t agent action
      = Denied ("No capability grants permission for: " +:+ action))
  /\ (forall t token c, findByTokenHash caps (sha256 token) = Some c ->
        agentId c = agent ->
        is_valid (validateToken (revokeAllForAgent caps now agent) t token) = false)
  /\ (forall t other, other <> agent ->
        findActiveForAgent (revokeAllForAgent caps now agent) t other
        = findActiveForAgent caps t other)
  /\ (forall t token,
        (forall c, findByTokenHash caps (sha256 token) = Some c -> agentId c <> agent) ->
        validateToken (revokeAllForAgent caps now agent) t token
        = validateToken caps t token).
Proof.
  set (f := fun c => if String.eqb (agentId c) agent && status_eqb (status c) active
                     then revoked_row now c else c).
  assert (forall c, tokenHash (f c) = tokenHash c) as Hhash.
  { intros c. unfold f.
    by destruct (String.eqb (agentId c) agent && status_eqb (status c) active). }
  split; [|split; [|split]].
  - intros t action. unfold checkPermission.
    replace (findActiveForAgent (revokeAllForAgent caps now agent) t agent)
      with (@nil Capability); [done|].
    symmetry. apply filter_none. intros c [c0 [-> Hc0]]%list_elem_of_fmap.
    destruct (String.eqb (agentId c0) agent) eqn:Hag; simpl.
    + destruct (status_eqb (status c0) active) eqn:Hact; simpl.
      * rewrite Hag. simpl. done.
      * rewrite Hag, Hact. simpl. done.
    + rewrite Hag. simpl. done.
  - intros t token c Hc Hag. unfold validateToken, revokeAllForAgent.
    rewrite (findByTokenHash_map f), Hc by done. simpl. unfold f.
    rewrite (proj2 (String.eqb_eq _ _) Hag). simpl.
    destruct (status c) eqn:Hst; simpl; [done| |]; by rewrite Hst.
  - intros t other Hne. unfold findActiveForAgent, revokeAllForAgent.
    apply filter_map_same. intros c.
    destruct (String.eqb (agentId c) agent) eqn:Hag; [|by left].
    apply String.eqb_eq in Hag.
    destruct (status_eqb (status c) active); [|by left]. right. simpl.
    assert (String.eqb (agentId c) other = false) as ->
      by (apply String.eqb_neq; congruence).
    done.
  - intros t token Hother. unfold validateToken, revokeAllForAgent.
    rewrite (findByTokenHash_map f) by done.
    destruct (findByTokenHash caps (sha256 token)) as [c|] eqn:Hc; [|done].
    simpl. unfold f.
    by rewrite (proj2 (String.eqb_neq _ _) (Hother c eq_refl)).
Qed.

End LifecycleProofs.

Section LifecycleExamples.
Import Model Capabilities CapabilityService LifecycleSpec.

Lemma mintCapability_roundtrip_witness :
  mintCapability [Examples.alice] [] MoreExamples.mint_entropy 0
    MoreExamples.mint_request
  = ([MoreExamples.minted], inl (MoreExamples.minted, MoreExamples.minted_token))
  /\ validateToken [MoreExamples.minted] 1000 MoreExamples.minted_token
     = Valid MoreExamples.minted
  /\ validateToken [MoreExamples.minted] 1001 MoreExamples.minted_token
     = Invalid (Some MoreExamples.minted) "Token expired".
Proof.
  split; [reflexivity|]. split.
  - exact (proj1 (proj2 (proj2 (mintCapability_roundtrip [Examples.alice] []
                                  [MoreExamples.minted] MoreExamples.mint_entropy 0
                                  MoreExamples.mint_request MoreExamples.minted
                                  MoreExamples.minted_token eq_refl))) 1000).
  - exact (proj1 (proj2 (proj2 (mintCapability_roundtrip [Examples.alice] []
                                  [MoreExamples.minted] MoreExamples.mint_entropy 0
                                  MoreExamples.mint_request MoreExamples.minted
                                  MoreExamples.minted_token eq_refl))) 1001).
Defined.

Lemma expireOldCapabilities_unobservable_witness :
  1000 < 1001
  /\ verdict (validateToken (expireOldCapabilities [Examples.boundary_capability] 1000)
                1001 "tok")
     = verdict (validateToken [Examples.boundary_capability] 1001 "tok").
Proof.
  assert (1000 < 1001) as Hlt by lia.
  split; [exact Hlt|].
  exact (proj1 (proj2 (expireOldCapabilities_unobservable
                         [Examples.boundary_capability] 1000 1001 Hlt)) "tok").
Defined.

(** A capability that has expired and was swept can still be revoked,
    and its token is then answered as revoked. *)
Example revoke_after_sweep :
  let swept := expireOldCapabilities [Examples.boundary_capability] 2000 in
  exists caps' c,
    revokeCapability swept 3000 "c1" = (caps', inl (Some c))
    /\ status c = revoked
    /\ LifecycleSpec.verdict (validateToken swept 3000 "tok")
       = (Some "Token expired", Some "c1")
    /\ LifecycleSpec.verdict (validateToken caps' 3000 "tok")
       = (Some "Token revoked", Some "c1").
Proof. eexists _, _. vm_compute. done. Qed.

End LifecycleExamples.

(** ** Hex encoding of keys, and the agent registry *)

Section HexRoundTrip.
Import Keystore Keys AgentService HexSpec.

Lemma hex_value_char (c : ascii) (v : N) :
  hex_value c = Some v ->
  (v < 16)%N /\ hex_char v = lower c /\ hex_value (lower c) = Some v.
Proof.
  destruct c as [[] [] [] [] [] [] [] []]; intros Hv; vm_compute in Hv;
    try discriminate; injection Hv as <-; vm_compute; done.
Qed.

Lemma from_hex_pair (a b : ascii) (hi lo : N) (rest : string) :
  hex_value a = Some hi -> hex_value b = Some lo ->
  exists x, from_hex (String a (String b rest)) = x :: from_hex rest
            /\ byte_to_hex x = String (lower a) (String (lower b) EmptyString).
Proof.
  intros Ha Hb.
  destruct (hex_value_char a hi Ha) as (Hhi & Hca & _).
  destruct (hex_value_char b lo Hb) as (Hlo & Hcb & _).
  cbn [from_hex]. rewrite Ha, Hb.
  destruct (Byte.of_N (16 * hi + lo)) as [x|] eqn:Hx.
  - exists x. split; [done|]. apply Byte.to_of_N in Hx.
    unfold byte_to_hex. rewrite Hx.
    rewrite <- (N.div_unique (16 * hi + lo) 16 hi lo) by done.
    rewrite <- (N.mod_unique (16 * hi + lo) 16 hi lo) by done.
    by rewrite Hca, Hcb.
  - apply Byte.of_N_None_iff in Hx. lia.
Qed.

Lemma hex_roundtrip_n (n : nat) (hex : string) :
  String.length hex = (2 * n)%nat -> all_hex hex = true ->
  to_hex (from_hex hex) = toLowerCase hex
  /\ from_hex (toLowerCase hex) = from_hex hex
  /\ length (from_hex hex) = n.
Proof.
  revert hex. induction n as [|n IH]; intros hex Hlen Hall.
  - destruct hex; [done|simpl in Hlen; lia].
  - destruct hex as [|a [|b rest]]; simpl in Hlen; try lia.
    cbn [all_hex] in Hall. apply andb_true_iff in Hall as [Ha Hall].
    apply andb_true_iff in Hall as [Hb Hall].
    unfold hex_digit in Ha, Hb.
    destruct (hex_value a) as [hi|] eqn:Hhi; [|done].
    destruct (hex_value b) as [lo|] eqn:Hlo; [|done].
    destruct (IH rest) as (Hto & Hfrom & Hn); [lia|done|].
    destruct (from_hex_pair a b hi lo rest Hhi Hlo) as (x & Hx & Hxhex).
    destruct (hex_value_char a hi Hhi) as (_ & _ & Hla).
    destruct (hex_value_char b lo Hlo) as (_ & _ & Hlb).
    destruct (from_hex_pair (lower a) (lower b) hi lo (toLowerCase rest) Hla Hlb)
      as (y & Hy & Hyhex).
    split; [|split].
    + rewrite Hx. cbn [to_hex toLowerCase]. rewrite Hxhex, Hto. done.
    + cbn [toLowerCase]. rewrite Hy, Hx, Hfrom. f_equal.
      cbn [from_hex] in Hx, Hy. rewrite Hhi, Hlo in Hx. rewrite Hla, Hlb in Hy.
      destruct (Byte.of_N (16 * hi + lo)); [|done]. congruence.
    + rewrite Hx. simpl. by rewrite Hn.
Qed.

(** X15.  Hex encoding of keys: [hexToBytes] undoes [bytesToHex]; on an
    even number of hex digits [bytesToHex] after [hexToBytes] gives the
    string back in lower case, one byte for every two digits, and
    upper-case digits decode to the same bytes as lower-case ones. *)
Theorem keys_hex_roundtrip (hex : string) :
  wellformed hex ->
  (forall b, hexToBytes (bytesToHex b) = b)
  /\ bytesToHex (hexToBytes hex) = toLowerCase hex
  /\ hexToBytes (toLowerCase hex) = hexToBytes hex
  /\ (2 * length (hexToBytes hex))%nat = String.length hex.
Proof.
  intros [Hall [n Hn]]. unfold hexToBytes, bytesToHex.
  destruct (hex_roundtrip_n n hex Hn Hall) as (Hto & Hfrom & Hlen).
  split; [apply from_hex_to_hex|]. split; [done|]. split; [done|]. lia.
Qed.

Lemma keys_hex_roundtrip_witness :
  wellformed "00FFa1"
  /\ bytesToHex (hexToBytes "00FFa1") = "00ffa1".
Proof.
  assert (wellformed "00FFa1") as Hwf.
  { split; [reflexivity|]. exists 3%nat. reflexivity. }
  split; [exact Hwf|].
  exact (proj1 (proj2 (keys_hex_roundtrip "00FFa1" Hwf))).
Defined.

End HexRoundTrip.

Section RegistryProofs.
Context `{Primitives}.
Import Agents AgentService LedgerSpec.

Lemma agent_findById_Some (agents : list Agent) (id : string) (a : Agent) :
  findById agents id = Some a -> a ∈ agents /\ agentId a = id.
Proof.
  unfold findById. intros Hhead.
  apply head_Some_elem_of, list_elem_of_filter in Hhead. tauto.
Qed.

Lemma agent_findById_map (f : Agent -> Agent) (agents : list Agent) (id : string) :
  (forall a, agentId (f a) = agentId a) ->
  findById (map f agents) id = f <$> findById agents id.
Proof.
  intros Hf. unfold findById.
  rewrite (filter_map_preserving (fun a => agentId a = id) f).
  - by destruct (filter _ agents).
  - intros a. by rewrite Hf.
Qed.

Lemma findById_snoc (agents : list Agent) (row : Agent) (id : string) :
  findById (agents ++ [row]) id
  = match findById agents id with
    | Some a => Some a
    | None => if decide (agentId row = id) then Some row else None
    end.
Proof.
  unfold findById. rewrite filter_app.
  destruct (filter (fun a => agentId a = id) agents) as [|a l]; [|done].
  simpl. destruct (decide (agentId row = id)).
  - by rewrite filter_cons_True.
  - by rewrite filter_cons_False.
Qed.

Lemma agent_create_inl (agents agents' : list Agent) (row agent : Agent) :
  create agents row = (agents', inl agent) ->
  agent = row /\ agents' = agents ++ [row]
  /\ (forall a, a ∈ agents -> agentId a <> agentId row)
  /\ (forall a, a ∈ agents -> publicKey a <> publicKey row).
Proof.
  unfold create.
  destruct (existsb (fun a => String.eqb (agentId a) (agentId row)) agents) eqn:Hid;
    [done|].
  destruct (existsb (fun a => String.eqb (publicKey a) (publicKey row)) agents) eqn:Hk;
    [done|].
  intros [= <- <-]. split; [done|]. split; [done|].
  rewrite existsb_false_elem_of in Hid. rewrite existsb_false_elem_of in Hk.
  split; intros a Ha Heq.
  - specialize (Hid a Ha). by apply String.eqb_neq in Hid.
  - specialize (Hk a Ha). by apply String.eqb_neq in Hk.
Qed.

Lemma create_taken (agents : list Agent) (row a : Agent) :
  a ∈ agents -> agentId a = agentId row ->
  create agents row = (agents, inr (UniqueViolation "agent_id")).
Proof.
  intros Ha Hid. unfold create.
  destruct (existsb (fun a => String.eqb (agentId a) (agentId row)) agents) eqn:Hex;
    [done|].
  rewrite existsb_false_elem_of in Hex. specialize (Hex a Ha).
  apply String.eqb_neq in Hex. done.
Qed.

(** X16.  A successful [registerAgent] stores one active agent whose id
    is the digest of the decoded key, leaves the others as they were and
    keeps ids and keys free of duplicates.  Afterwards every key string
    that decodes to the same bytes (the same key in another case of hex
    digits) is refused. *)
Theorem registerAgent_spec (agents agents' : list Agent) (key : string)
    (agent : Agent) :
  registerAgent agents key = (agents', inl agent) ->
  agent = {| agentId := Keys.deriveAgentId (Keys.hexToBytes key);
             publicKey := key; status := active |}
  /\ agents' = agents ++ [agent]
  /\ findById agents' (agentId agent) = Some agent
  /\ verifyAgentActive agents' (agentId agent) = None
  /\ (forall id, id <> agentId agent -> findById agents' id = findById agents id)
  /\ (NoDup (map agentId agents) -> NoDup (map agentId agents'))
  /\ (NoDup (map publicKey agents) -> NoDup (map publicKey agents'))
  /\ (forall key', Keys.hexToBytes key' = Keys.hexToBytes key ->
        exists e, registerAgent agents' key' = (agents', inr e)).
Proof.
  unfold registerAgent.
  destruct (public_key_format key); [|done]. simpl.
  destruct (findByPublicKey agents key); [done|].
  intros Hcreate. apply agent_create_inl in Hcreate as (-> & -> & Hid & Hkey).
  set (row := {| agentId := Keys.deriveAgentId (Keystore.from_hex key);
                 publicKey := key; status := active |}) in *.
  assert (findById agents (agentId row) = None) as Hnone.
  { unfold findById. by rewrite filter_none. }
  assert (findById (agents ++ [row]) (agentId row) = Some row) as Hfound.
  { rewrite findById_snoc, Hnone. by rewrite decide_True. }
  split; [done|]. split; [done|]. split; [done|]. split; [|split; [|split; [|split]]].
  - unfold verifyAgentActive, getAgent. by rewrite Hfound.
  - intros id Hne. rewrite findById_snoc.
    destruct (findById agents id); [done|]. by rewrite decide_False.
  - rewrite map_app. intros Hnodup. apply NoDup_app.
    split; [done|]. split; [|apply NoDup_singleton].
    intros i [a [-> Ha]]%list_elem_of_fmap Heq%list_elem_of_singleton.
    by apply (Hid a Ha).
  - rewrite map_app. intros Hnodup. apply NoDup_app.
    split; [done|]. split; [|apply NoDup_singleton].
    intros i [a [-> Ha]]%list_elem_of_fmap Heq%list_elem_of_singleton.
    by apply (Hkey a Ha).
  - intros key' Hsame. unfold Keys.hexToBytes in Hsame.
    destruct (public_key_format key'); [|by eexists]. simpl.
    destruct (findByPublicKey (agents ++ [row]) key'); [by eexists|].
    eexists. apply (create_taken _ _ row).
    + apply elem_of_app. right. by apply list_elem_of_singleton.
    + simpl. by rewrite Hsame.
Qed.

Lemma revokeAgent_inl (agents agents' : list Agent) (id : string)
    (returned : option Agent) :
  revokeAgent agents id = (agents', inl returned) ->
  exists a, findById agents id = Some a /\ status a = active
            /\ returned = Some (revoked_row a)
            /\ agents' = map (fun a => if String.eqb (agentId a) id
                                       then revoked_row a else a) agents.
Proof.
  unfold revokeAgent, getAgent.
  destruct (findById agents id) as [a|] eqn:Hfind; [|done].
  destruct (status a) eqn:Hst; [|done]. simpl.
  intros [= <- <-]. exists a. split; [done|]. split; [done|]. split; [|done].
  unfold findById in Hfind. by destruct (filter _ agents); simplify_eq/=.
Qed.

(** X17.  Revoking an agent freezes its ledger and keeps it auditable:
    after a successful [revokeAgent] every [appendEvent] for the agent
    is refused with [Agent is not active], whatever the request, no
    request signed in its name passes [verifyAgentSignature], and
    [verifyAgentChain] answers for every agent exactly as before.  The
    other agents are untouched, and a second revocation fails. *)
Theorem revokeAgent_freezes (agents agents' : list Agent) (id : string)
    (returned : option Agent) :
  revokeAgent agents id = (agents', inl returned) ->
  (exists a, findById agents id = Some a /\ status a = active
             /\ returned = Some (revoked_row a)
             /\ findById agents' id = Some (revoked_row a))
  /\ (forall events now1 now2 request,
        EventService.agentId request = id ->
        EventService.appendEvent
          {| EventService.agents := agents'; EventService.events := events |}
          now1 now2 request
        = ({| EventService.agents := agents'; EventService.events := events |},
           inr (EventService.AgentNotActive revoked)))
  /\ (forall config now request,
        Auth.x_agent_id request = Some id ->
        forall a, Auth.verifyAgentSignature config agents' now request <> inl a)
  /\ (forall events agent,
        EventService.verifyAgentChain
          {| EventService.agents := agents'; EventService.events := events |} agent
        = EventService.verifyAgentChain
            {| EventService.agents := agents; EventService.events := events |} agent)
  /\ (forall other, other <> id -> findById agents' other = findById agents other)
  /\ verifyAgentActive agents' id = Some (NotActive revoked)
  /\ revokeAgent agents' id = (agents', inr AlreadyRevoked).
Proof.
  intros Hres. destruct (revokeAgent_inl _ _ _ _ Hres) as (a & Hfind & Hact & -> & ->).
  set (f := fun a => if String.eqb (agentId a) id then revoked_row a else a).
  assert (forall a, agentId (f a) = agentId a) as Hfid
    by (intros a0; unfold f; by destruct (String.eqb (agentId a0) id)).
  assert (forall a, publicKey (f a) = publicKey a) as Hfkey
    by (intros a0; unfold f; by destruct (String.eqb (agentId a0) id)).
  assert (findById (map f agents) id = Some (revoked_row a)) as Hfind'.
  { rewrite (agent_findById_map f), Hfind by done. simpl. unfold f.
    apply agent_findById_Some in Hfind as [_ Hid].
    by rewrite (proj2 (String.eqb_eq _ _) Hid). }
  split; [by exists a|]. split; [|split; [|split; [|split; [|split]]]].
  - intros events now1 now2 request Hid. unfold EventService.appendEvent.
    cbn [EventService.agents]. by rewrite Hid, Hfind'.
  - intros config now request Hid a0. unfold Auth.verifyAgentSignature.
    destruct (negb _ || negb _ || negb _); [done|].
    rewrite Hid. change (default EmptyString (Some id)) with id.
    destruct (parseInt _); [|done].
    destruct (js_gt _ _); [done|].
    by rewrite Hfind'.
  - intros events agent. unfold EventService.verifyAgentChain.
    cbn [EventService.agents EventService.events].
    rewrite (agent_findById_map f) by done.
    destruct (findById agents agent) as [a0|]; [|done]. simpl.
    by rewrite Hfkey.
  - intros other Hne. rewrite (agent_findById_map f) by done.
    destruct (findById agents other) as [a0|] eqn:Ha0; [|done]. simpl.
    apply agent_findById_Some in Ha0 as [_ Hid]. unfold f.
    by rewrite (proj2 (String.eqb_neq _ _)) by congruence.
  - unfold verifyAgentActive, getAgent. by rewrite Hfind'.
  - unfold revokeAgent, getAgent. by rewrite Hfind'.
Qed.

Lemma to_hex_format (b : bytes) :
  all_hex (Keystore.to_hex b) = true
  /\ String.length (Keystore.to_hex b) = (2 * length b)%nat.
Proof.
  induction b as [|x b [IHhex IHlen]]; [done|].
  cbn [Keystore.to_hex length].
  assert (forall rest, all_hex (Keystore.byte_to_hex x +:+ rest) = all_hex rest
                       /\ String.length (Keystore.byte_to_hex x +:+ rest)
                          = S (S (String.length rest))) as Hx
    by (intros rest; by destruct x).
  destruct (Hx (Keystore.to_hex b)) as [-> ->]. split; [done|]. lia.
Qed.

(** X28.  An identity made by [generateAgentIdentity] registers under
    its own id: the hex form of a 32-byte public key passes the format
    test of [registerAgent], registration succeeds whenever neither the
    id nor the key is taken, and the id the server derives is the id
    the identity carries. *)
Theorem generated_identity_registers (agents : list Agent)
    (privateKey publicKey : bytes) :
  length publicKey = 32%nat ->
  let identity := Keys.generateAgentIdentity privateKey publicKey in
  let row := {| agentId := Keys.i_agentId identity;
                Agents.publicKey := Keys.i_publicKey identity;
                status := active |} in
  public_key_format (Keys.i_publicKey identity) = true
  /\ ((forall a, a ∈ agents ->
          agentId a <> Keys.i_agentId identity
          /\ Agents.publicKey a <> Keys.i_publicKey identity) ->
      registerAgent agents (Keys.i_publicKey identity) = (agents ++ [row], inl row))
  /\ (forall agents' agent,
        registerAgent agents (Keys.i_publicKey identity) = (agents', inl agent) ->
        agent = row).
Proof.
  intros Hlen identity row.
  destruct (to_hex_format publicKey) as [Hhex Hlength].
  assert (public_key_format (Keys.i_publicKey identity) = true) as Hformat.
  { unfold public_key_format. cbn [identity Keys.generateAgentIdentity Keys.i_publicKey].
    unfold Keys.bytesToHex. rewrite Hhex, Hlength, Hlen. done. }
  assert ({| agentId := Keys.deriveAgentId
                          (Keystore.from_hex (Keys.i_publicKey identity));
             Agents.publicKey := Keys.i_publicKey identity; status := active |} = row)
    as Hrow.
  { unfold row. cbn [identity Keys.generateAgentIdentity Keys.i_publicKey Keys.i_agentId].
    unfold Keys.bytesToHex. by rewrite from_hex_to_hex. }
  split; [done|]. split.
  - intros Hnew. unfold registerAgent. rewrite Hformat. cbn [negb].
    assert (findByPublicKey agents (Keys.i_publicKey identity) = None) as ->.
    { unfold findByPublicKey. rewrite filter_none; [done|].
      intros a Ha. by apply Hnew. }
    rewrite Hrow. unfold create.
    assert (existsb (fun a => String.eqb (agentId a) (agentId row)) agents = false)
      as ->.
    { apply existsb_false_elem_of. intros a Ha. apply String.eqb_neq.
      by apply Hnew. }
    assert (existsb (fun a => String.eqb (Agents.publicKey a) (Agents.publicKey row))
              agents = false) as ->.
    { apply existsb_false_elem_of. intros a Ha. apply String.eqb_neq.
      by apply Hnew. }
    done.
  - intros agents' agent. unfold registerAgent. rewrite Hformat. cbn [negb].
    destruct (findByPublicKey agents (Keys.i_publicKey identity)); [done|].
    rewrite Hrow. intros Hcreate. by apply agent_create_inl in Hcreate as (-> & _).
Qed.

End RegistryProofs.

Section RegistryExamples.
Import Model Agents AgentService.

Lemma registerAgent_spec_witness :
  registerAgent [] MoreExamples.key_lower
  = ([MoreExamples.registered], inl MoreExamples.registered)
  /\ Keys.hexToBytes MoreExamples.key_upper = Keys.hexToBytes MoreExamples.key_lower
  /\ exists e, registerAgent [MoreExamples.registered] MoreExamples.key_upper
               = ([MoreExamples.registered], inr e).
Proof.
  split; [reflexivity|]. split; [reflexivity|].
  exact (proj2 (proj2 (proj2 (proj2 (proj2 (proj2 (proj2
           (registerAgent_spec [] [MoreExamples.registered] MoreExamples.key_lower
              MoreExamples.registered eq_refl)))))))
           MoreExamples.key_upper eq_refl).
Defined.

(** The upper-case form passes the format test and is not found by
    [findByPublicKey]; it is the primary key that refuses it. *)
Example registerAgent_other_case :
  registerAgent [MoreExamples.registered] MoreExamples.key_upper
  = ([MoreExamples.registered], inr (UniqueViolation "agent_id")).
Proof. vm_compute. reflexivity. Qed.

Lemma revokeAgent_freezes_witness :
  revokeAgent [Examples.alice] "a11ce"
  = ([revoked_row Examples.alice], inl (Some (revoked_row Examples.alice)))
  /\ EventService.appendEvent
       {| EventService.agents := [revoked_row Examples.alice];
          EventService.events := [] |} 5000 5000 Examples.request1
     = ({| EventService.agents := [revoked_row Examples.alice];
           EventService.events := [] |},
        inr (EventService.AgentNotActive revoked)).
Proof.
  split; [reflexivity|].
  exact (proj1 (proj2 (revokeAgent_freezes [Examples.alice]
                         [revoked_row Examples.alice] "a11ce"
                         (Some (revoked_row Examples.alice)) eq_refl))
           [] 5000 5000 Examples.request1 eq_refl).
Defined.

Lemma no_agent_yet (P : Agent -> Prop) (a : Agent) : a ∈ [] -> P a.
Proof. by intros ?%elem_of_nil. Qed.

Lemma generated_identity_registers_witness :
  length (repeat x2a 32) = 32%nat
  /\ exists row,
       registerAgent []
         (Keys.i_publicKey (Keys.generateAgentIdentity (repeat x17 32) (repeat x2a 32)))
       = ([row], inl row)
       /\ agentId row
          = Keys.i_agentId (Keys.generateAgentIdentity (repeat x17 32) (repeat x2a 32)).
Proof.
  split; [reflexivity|]. eexists. split.
  - exact (proj1 (proj2 (generated_identity_registers [] (repeat x17 32)
                           (repeat x2a 32) eq_refl))
             (no_agent_yet _)).
  - reflexivity.
Defined.

End RegistryExamples.

(** ** Rate limiter *)

Section RateLimitProofs.
Import RateLimit RateLimitSpec.

Lemma rateLimiter_store (options : Options) (store : Store) (key : string) (now : Z) :
  (rateLimiter options store key now).1
  = <[key := {| count := count (current options store key now) + 1;
                resetAt := resetAt (current options store key now) |}]> store.
Proof. unfold rateLimiter. by destruct (js_gt _ _). Qed.

Lemma rateLimiter_outcome (options : Options) (m : Z) (store : Store) (key : string)
    (now : Z) :
  maxRequests options = Some m ->
  (rateLimiter options store key now).2
  = let record := current options store key now in
    if (count record + 1 <=? m)%Z
    then Passed (Some m) (Some (m - (count record + 1))) (ceil_seconds (resetAt record))
    else TooManyRequests (ceil_seconds (resetAt record - now)).
Proof.
  intros Hm. unfold rateLimiter. rewrite Hm. cbn [count resetAt js_gt js_sub].
  destruct (Z.ltb_spec m (count (current options store key now) + 1)),
           (Z.leb_spec (count (current options store key now) + 1) m);
    (done || lia).
Qed.

Lemma run_cons (options : Options) (store : Store) (key : string) (now : Z)
    (rest : list (string * Z)) :
  run options store ((key, now) :: rest)
  = ((run options (rateLimiter options store key now).1 rest).1,
     (rateLimiter options store key now).2
       :: (run options (rateLimiter options store key now).1 rest).2).
Proof.
  cbn [run]. destruct (rateLimiter options store key now) as [store' outcome].
  simpl. by destruct (run options store' rest).
Qed.

Lemma current_running (options : Options) (store : Store) (key : string) (now : Z)
    (record : Entry) :
  store !! key = Some record -> now <= resetAt record ->
  current options store key now = record.
Proof.
  intros Hrec Hnow. unfold current. rewrite Hrec.
  by destruct (Z.ltb_spec (resetAt record) now); [lia|].
Qed.

Lemma current_fresh (options : Options) (store : Store) (key : string) (now : Z) :
  no_window store key now ->
  current options store key now
  = {| count := 0; resetAt := now + windowMs options |}.
Proof.
  intros Hfresh. unfold current.
  destruct (store !! key) as [record|] eqn:Hrec; [|done].
  specialize (Hfresh record Hrec).
  by destruct (Z.ltb_spec (resetAt record) now); [|lia].
Qed.

Lemma requests_of_cons (key : string) (r : string * Z) (requests : list (string * Z)) :
  requests_of key (r :: requests)
  = (if decide (r.1 = key) then 1 else 0) + requests_of key requests.
Proof.
  unfold requests_of. destruct (decide (r.1 = key)).
  - rewrite filter_cons_True by done. simpl. lia.
  - rewrite filter_cons_False by done. lia.
Qed.

Lemma run_window (options : Options) (m R : Z) (key : string)
    (requests : list (string * Z)) :
  maxRequests options = Some m ->
  (forall t, (key, t) ∈ requests -> t <= R) ->
  forall (store : Store) (c : Z) (i : nat) (t : Z),
    store !! key = Some {| count := c; resetAt := R |} ->
    requests !! i = Some (key, t) ->
    (run options store requests).2 !! i
    = Some (let n := c + requests_of key (take (S i) requests) in
            if (n <=? m)%Z
            then Passed (Some m) (Some (m - n)) (ceil_seconds R)
            else TooManyRequests (ceil_seconds (R - t))).
Proof.
  intros Hm. induction requests as [|[k t'] rest IH]; intros Hin store c i t Hrec Hi;
    [done|].
  assert (forall t, (key, t) ∈ rest -> t <= R) as Hrest
    by (intros t0 Ht0; apply Hin, elem_of_cons; by right).
  rewrite run_cons. cbn [snd]. destruct (decide (k = key)) as [->|Hne].
  - assert (t' <= R) as Ht' by (apply Hin, elem_of_cons; by left).
    pose proof (current_running options store key t' _ Hrec Ht') as Hcur.
    destruct i as [|j].
    + injection Hi as <-. cbn [lookup list_lookup take].
      rewrite (rateLimiter_outcome options m) by done. rewrite Hcur.
      cbn [count resetAt]. rewrite requests_of_cons. cbn [fst].
      rewrite decide_True by done.
      unfold requests_of. simpl. by rewrite Z.add_0_r.
    + cbn [lookup list_lookup] in Hi |- *.
      rewrite (IH Hrest _ (c + 1) j t); [|by rewrite rateLimiter_store, Hcur,
                                             lookup_insert_eq|done].
      change (take (S (S j)) ((key, t') :: rest))
        with ((key, t') :: take (S j) rest).
      rewrite requests_of_cons. cbn [fst]. rewrite decide_True by done.
      by rewrite Z.add_assoc.
  - destruct i as [|j]; [simpl in Hi; congruence|].
    cbn [lookup list_lookup] in Hi |- *.
    rewrite (IH Hrest _ c j t); [|by rewrite rateLimiter_store,
                                      lookup_insert_ne|done].
    change (take (S (S j)) ((k, t') :: rest)) with ((k, t') :: take (S j) rest).
    rewrite requests_of_cons. cbn [fst]. by rewrite decide_False.
Qed.

(** X18.  Inside one window exactly the first [maxRequests] requests of
    a key pass.  When a key has no running window and its later
    requests come no later than the reset of the window the first one
    opens, each request of the key passes if it is among the first
    [maxRequests] of the key and is answered 429 otherwise, whatever
    requests of other keys come in between; [X-RateLimit-Remaining]
    counts down from [maxRequests - 1], and [retryAfter] is the time to
    the reset in seconds, rounded up. *)
Theorem rateLimiter_window (options : Options) (m : Z) (store : Store) (key : string)
    (t0 : Z) (rest : list (string * Z)) (i : nat) (t : Z) :
  maxRequests options = Some m ->
  no_window store key t0 ->
  (forall t, (key, t) ∈ rest -> t <= t0 + windowMs options) ->
  ((key, t0) :: rest) !! i = Some (key, t) ->
  (run options store ((key, t0) :: rest)).2 !! i
  = Some (let n := requests_of key (take (S i) ((key, t0) :: rest)) in
          if (n <=? m)%Z
          then Passed (Some m) (Some (m - n)) (ceil_seconds (t0 + windowMs options))
          else TooManyRequests (ceil_seconds (t0 + windowMs options - t))).
Proof.
  intros Hm Hfresh Hin Hi. rewrite run_cons. cbn [snd].
  pose proof (current_fresh options store key t0 Hfresh) as Hcur.
  change (take (S i) ((key, t0) :: rest)) with ((key, t0) :: take i rest).
  rewrite requests_of_cons. cbn [fst]. rewrite decide_True by done.
  destruct i as [|j].
  - injection Hi as <-. cbn [lookup list_lookup take].
    rewrite (rateLimiter_outcome options m) by done. rewrite Hcur.
    cbn [count resetAt]. unfold requests_of. simpl. by rewrite Z.add_0_r.
  - cbn [lookup list_lookup] in Hi |- *.
    rewrite (run_window options m (t0 + windowMs options) key rest Hm Hin _ 1 j t);
      [done| |done].
    by rewrite rateLimiter_store, Hcur, lookup_insert_eq.
Qed.

Lemma run_fresh_keys (options : Options) (m : Z) (requests : list (string * Z)) :
  maxRequests options = Some m -> 1 <= m ->
  NoDup (map fst requests) ->
  forall store : Store,
    (forall k, k ∈ map fst requests -> store !! k = None) ->
    forall o, o ∈ (run options store requests).2 -> passed o = true.
Proof.
  intros Hm Hpos. induction requests as [|[k t] rest IH]; intros Hnodup store Hnew o.
  - simpl. by intros ?%elem_of_nil.
  - rewrite run_cons. cbn [snd]. cbn [map fst] in Hnodup, Hnew.
    apply NoDup_cons in Hnodup as [Hk Hnodup].
    intros [->|Ho]%elem_of_cons.
    + rewrite (rateLimiter_outcome options m) by done.
      unfold current. rewrite (Hnew k) by (by left). cbn [count resetAt].
      change (0 + 1) with 1. by destruct (Z.leb_spec 1 m); [|lia].
    + apply (IH Hnodup (rateLimiter options store k t).1); [|done].
      intros k' Hk'. rewrite rateLimiter_store, lookup_insert_ne.
      * apply Hnew. by right.
      * intros ->. done.
Qed.

(** X19.  A sender that names a new agent in [X-Agent-Id] with every
    request is never limited: the global limiter keys on the header
    whenever it is not empty, before any signature is checked, so
    requests from one address whose header values are pairwise distinct
    and unknown to the store all pass, for any limit of at least one. *)
Theorem rateLimiter_distinct_headers (options : Options) (m : Z) (store : Store)
    (ip : string) (requests : list (string * Z)) :
  maxRequests options = Some m -> 1 <= m ->
  NoDup (map fst requests) ->
  (forall h, h ∈ map fst requests -> h <> EmptyString /\ store !! h = None) ->
  forall o,
    o ∈ (run options store
           (map (fun r => (keyGenerator (Some r.1) ip, r.2)) requests)).2 ->
    passed o = true.
Proof.
  intros Hm Hpos Hnodup Hnew o.
  assert (map (fun r : string * Z => (keyGenerator (Some r.1) ip, r.2)) requests
          = requests) as ->.
  { rewrite <- (map_id requests) at 2. apply map_ext_in. intros [h t] Hin.
    destruct (Hnew h) as [Hne _].
    { apply list_elem_of_fmap. exists (h, t). split; [done|].
      by apply list_elem_of_In. }
    unfold keyGenerator. simpl. by destruct h. }
  apply (run_fresh_keys options m requests Hm Hpos Hnodup store).
  intros k Hk. by apply Hnew.
Qed.

(** Two stores that differ only by records more than a minute past
    their reset at time [c]. *)
Lemma agree_step (options : Options) (c : Z) (s1 s2 : Store) (key : string) (t : Z) :
  (forall k, s1 !! k = s2 !! k
             \/ (s1 !! k = None
                 /\ exists r, s2 !! k = Some r /\ resetAt r + 60000 < c)) ->
  c <= t ->
  (rateLimiter options s1 key t).2 = (rateLimiter options s2 key t).2
  /\ (forall k, (rateLimiter options s1 key t).1 !! k
                = (rateLimiter options s2 key t).1 !! k
                \/ ((rateLimiter options s1 key t).1 !! k = None
                    /\ exists r, (rateLimiter options s2 key t).1 !! k = Some r
                                 /\ resetAt r + 60000 < c)).
Proof.
  intros Hagree Hct.
  assert (current options s1 key t = current options s2 key t) as Hcur.
  { unfold current. destruct (Hagree key) as [->|[-> (r & -> & Hr)]]; [done|].
    by destruct (Z.ltb_spec (resetAt r) t); [|lia]. }
  split.
  - unfold rateLimiter. rewrite Hcur. by destruct (js_gt _ _).
  - intros k. rewrite !rateLimiter_store, Hcur.
    destruct (decide (key = k)) as [->|Hne].
    + left. by rewrite !lookup_insert_eq.
    + rewrite !lookup_insert_ne by done. apply Hagree.
Qed.

Lemma agree_run (options : Options) (c : Z) (requests : list (string * Z)) :
  (forall k t, (k, t) ∈ requests -> c <= t) ->
  forall s1 s2 : Store,
    (forall k, s1 !! k = s2 !! k
               \/ (s1 !! k = None
                   /\ exists r, s2 !! k = Some r /\ resetAt r + 60000 < c)) ->
    (run options s1 requests).2 = (run options s2 requests).2.
Proof.
  induction requests as [|[k t] rest IH]; intros Hin s1 s2 Hagree; [done|].
  rewrite !run_cons. cbn [snd].
  destruct (agree_step options c s1 s2 k t Hagree) as [Hout Hagree'].
  { apply (Hin k). by left. }
  rewrite Hout. f_equal. apply IH; [|done].
  intros k' t' Hin'. apply (Hin k'). by right.
Qed.

(** X20.  The periodic cleanup cannot be observed: it deletes exactly
    the records that are more than a minute past their reset, and every
    sequence of requests that arrive at or after the cleanup is answered
    the same with and without it. *)
Theorem cleanup_unobservable (options : Options) (store : Store) (c : Z)
    (requests : list (string * Z)) :
  (forall k t, (k, t) ∈ requests -> c <= t) ->
  (run options (cleanup store c) requests).2 = (run options store requests).2
  /\ (forall k r, store !! k = Some r ->
        (cleanup store c !! k = None <-> resetAt r + 60000 < c)
        /\ (cleanup store c !! k = Some r <-> c <= resetAt r + 60000)).
Proof.
  intros Hin. split.
  - apply (agree_run options c requests Hin). intros k. unfold cleanup.
    destruct (store !! k) as [r|] eqn:Hr.
    + destruct (decide (resetAt r + 60000 < c)) as [Hold|Hlive].
      * right. split; [|by exists r].
        apply map_lookup_filter_None. right. intros r' Hr'. simpl.
        assert (r' = r) as -> by congruence. by intros Hnot.
      * left. apply map_lookup_filter_Some. by split.
    + left. apply map_lookup_filter_None. by left.
  - intros k r Hr. unfold cleanup. split.
    + rewrite map_lookup_filter_None. split.
      * intros [Hnone|Hall]; [congruence|].
        specialize (Hall r Hr). simpl in Hall. by apply dec_stable in Hall.
      * intros Hold. right. intros r' Hr'. simpl.
        assert (r' = r) as -> by congruence. by intros Hnot.
    + rewrite map_lookup_filter_Some. simpl. split; [intros [_ ?]; lia|].
      intros Hlive. split; [done|lia].
Qed.

End RateLimitProofs.

Section RateLimitExamples.
Import RateLimit RateLimitSpec.

Lemma empty_no_window (key : string) (now : Z) : no_window ∅ key now.
Proof. intros record Hrec. by rewrite lookup_empty in Hrec. Qed.

Lemma later_requests_in_window (t : Z) :
  ("a", t) ∈ MoreExamples.later_requests ->
  t <= 0 + windowMs MoreExamples.two_a_minute.
Proof.
  unfold MoreExamples.later_requests. rewrite !elem_of_cons, elem_of_nil. simpl.
  intros [[=]|[[= ->]|[[= ->]|[]]]]; lia.
Qed.

Lemma rateLimiter_window_witness :
  maxRequests MoreExamples.two_a_minute = Some 2
  /\ no_window ∅ "a" 0
  /\ (("a", 0) :: MoreExamples.later_requests) !! 3%nat = Some ("a", 20)
  /\ (run MoreExamples.two_a_minute ∅ (("a", 0) :: MoreExamples.later_requests)).2
       !! 3%nat
     = Some (TooManyRequests 60).
Proof.
  split; [reflexivity|]. split; [exact (empty_no_window "a" 0)|].
  split; [reflexivity|].
  exact (rateLimiter_window MoreExamples.two_a_minute 2 ∅ "a" 0
           MoreExamples.later_requests 3 20 eq_refl (empty_no_window "a" 0)
           later_requests_in_window eq_refl).
Defined.

Lemma two_headers (h : string) :
  h ∈ map fst [("x", 0); ("y", 0)] ->
  h <> EmptyString /\ (∅ : gmap string Entry) !! h = None.
Proof.
  simpl. rewrite !elem_of_cons, elem_of_nil.
  intros [->|[->|[]]]; by rewrite lookup_empty.
Qed.

Lemma two_headers_distinct : NoDup (map fst [("x", 0); ("y", 0)]).
Proof.
  simpl. apply NoDup_cons. split; [|apply NoDup_singleton].
  by intros [=]%list_elem_of_singleton.
Qed.

Lemma rateLimiter_distinct_headers_witness :
  1 <= 1
  /\ forall o,
       o ∈ (run {| maxRequests := Some 1; windowMs := 60000 |} ∅
              (map (fun r => (keyGenerator (Some r.1) "10.0.0.1", r.2))
                   [("x", 0); ("y", 0)])).2 ->
       passed o = true.
Proof.
  assert (1 <= 1) as Hle by lia.
  split; [exact Hle|].
  exact (rateLimiter_distinct_headers {| maxRequests := Some 1; windowMs := 60000 |}
           1 ∅ "10.0.0.1" [("x", 0); ("y", 0)] eq_refl Hle two_headers_distinct
           two_headers).
Defined.

Lemma after_cleanup (k : string) (t : Z) : (k, t) ∈ [("k", 70000)] -> 70000 <= t.
Proof. intros [= -> ->]%list_elem_of_singleton. lia. Qed.

Lemma cleanup_unobservable_witness :
  (run MoreExamples.two_a_minute (cleanup MoreExamples.old_store 70000)
     [("k", 70000)]).2
  = (run MoreExamples.two_a_minute MoreExamples.old_store [("k", 70000)]).2.
Proof.
  exact (proj1 (cleanup_unobservable MoreExamples.two_a_minute MoreExamples.old_store
                  70000 [("k", 70000)] after_cleanup)).
Defined.

(** A limit that is not a number (an unparsable [RATE_LIMIT_MAX]) never
    rejects, and the count keeps growing. *)
Example rateLimiter_nan_limit :
  (run {| maxRequests := None; windowMs := 60000 |} ∅
     [("a", 0); ("a", 1); ("a", 2)]).2
  = [Passed None None 60; Passed None None 60; Passed None None 60].
Proof. vm_compute. reflexivity. Qed.

(** A request at the very instant of the reset still counts in the old
    window; one millisecond later a new window opens. *)
Example rateLimiter_at_reset :
  (run {| maxRequests := Some 1; windowMs := 1000 |} ∅
     [("a", 0); ("a", 1000); ("a", 1001)]).2
  = [Passed (Some 1) (Some 0) 1; TooManyRequests 0; Passed (Some 1) (Some 0) 3].
Proof. vm_compute. reflexivity. Qed.

End RateLimitExamples.

(** ** Downgrade rule and domain scores *)

Section DowngradeProofs.
Import Reputation ReputationService.

Lemma record_all_counters (row : Reputation) (outcomes : list (Outcome * Z)) :
  harmfulActions (record_all row outcomes)
  = harmfulActions row + count_where isHarmful outcomes
  /\ userCorrections (record_all row outcomes)
     = userCorrections row + count_where isUserCorrected outcomes
  /\ breakdown (record_all row outcomes) = breakdown row
  /\ agentId (record_all row outcomes) = agentId row.
Proof.
  induction outcomes as [|o outcomes IH] using rev_ind.
  - cbn. unfold count_where. simpl. repeat split; lia.
  - destruct IH as (Hh & Hu & Hb & Ha).
    rewrite record_all_snoc, !count_where_snoc.
    cbn [updated harmfulActions userCorrections breakdown agentId].
    rewrite Hh, Hu, Hb, Ha. repeat split; lia.
Qed.

Lemma half_rate (rate : Q) (n f : Z) :
  0 < n -> (rate * inject_Z n == inject_Z f)%Q ->
  (HIGH_FAILURE_RATE < rate)%Q <-> n < 2 * f.
Proof.
  intros Hn Hrate. unfold HIGH_FAILURE_RATE.
  assert (0 < inject_Z n)%Q as Hpos by (unfold Qlt; simpl; lia).
  assert (rate == inject_Z f / inject_Z n)%Q as ->.
  { rewrite <- Hrate. field. lra. }
  split.
  - intros Hlt. destruct (Z_lt_le_dec n (2 * f)) as [Hn2|Hge]; [done|]. exfalso.
    assert (inject_Z f / inject_Z n <= 5 # 10)%Q as Hle.
    { apply Qle_shift_div_r; [done|]. unfold Qle. simpl. lia. }
    lra.
  - intros Hlt. apply Qlt_shift_div_l; [done|].
    unfold Qlt. simpl. lia.
Qed.


Lemma findByAgentId_Some (rows : list Reputation) (agent : string) (r : Reputation) :
  findByAgentId rows agent = Some r -> agentId r = agent.
Proof.
  unfold findByAgentId. intros Hhead.
  apply head_Some_elem_of, list_elem_of_filter in Hhead. tauto.
Qed.

Lemma findByAgentId_replace (rows : list Reputation) (agent : string)
    (current row : Reputation) :
  findByAgentId rows agent = Some current -> agentId row = agent ->
  findByAgentId (map (fun r => if String.eqb (agentId r) agent then row else r) rows)
    agent = Some row.
Proof.
  intros Hfind Hrow. unfold findByAgentId in *.
  induction rows as [|r rows IH]; [done|]. simpl.
  destruct (decide (agentId r = agent)) as [Hr|Hr].
  - rewrite (proj2 (String.eqb_eq _ _) Hr). by rewrite filter_cons_True.
  - rewrite (proj2 (String.eqb_neq _ _) Hr).
    rewrite filter_cons_False in Hfind |- * by done. by apply IH.
Qed.

Lemma replace_twice (rows : list Reputation) (agent : string) (row1 row2 : Reputation) :
  agentId row1 = agent ->
  map (fun r => if String.eqb (agentId r) agent then row2 else r)
      (map (fun r => if String.eqb (agentId r) agent then row1 else r) rows)
  = map (fun r => if String.eqb (agentId r) agent then row2 else r) rows.
Proof.
  intros Hrow. rewrite map_map. apply map_ext. intros r.
  destruct (String.eqb (agentId r) agent) eqn:Hr; [|by rewrite Hr].
  by rewrite (proj2 (String.eqb_eq _ _) Hrow).
Qed.

(** X22.  [updateDomainScore] sets one entry of the breakdown and
    nothing else: score, rates, counters and with them the downgrade
    verdict stay as they were, and the other domains keep their values.
    [recordOutcome] in turn never changes the breakdown, so the two
    calls can be made in either order with the same table and the same
    returned row. *)
Theorem updateDomainScore_spec (rows : list Reputation) (agent domain : string)
    (score : Q) :
  (forall now rows' row,
      updateDomainScore rows now agent domain score = (rows', inl row) ->
      breakdown row !! domain = Some score
      /\ (forall current other,
            findByAgentId rows agent = Some current -> other <> domain ->
            breakdown row !! other = breakdown current !! other)
      /\ findByAgentId rows' agent = Some row
      /\ shouldDowngrade rows' agent = shouldDowngrade rows agent)
  /\ (forall now rows' e,
        updateDomainScore rows now agent domain score = (rows', inr e) ->
        rows' = rows /\ findByAgentId rows agent = None)
  /\ (forall row outcomes, breakdown (record_all row outcomes) = breakdown row)
  /\ (forall now1 now2 outcomeType customImpactScore,
        recordOutcome (updateDomainScore rows now1 agent domain score).1 now2 agent
          outcomeType customImpactScore
        = updateDomainScore
            (recordOutcome rows now1 agent outcomeType customImpactScore).1
            now2 agent domain score).
Proof.
  split; [|split; [|split]].
  - intros now rows' row. unfold updateDomainScore, getReputation.
    destruct (findByAgentId rows agent) as [current|] eqn:Hfind; [|done].
    intros [= <- <-]. pose proof (findByAgentId_Some _ _ _ Hfind) as Hid.
    split; [apply lookup_insert_eq|]. split; [|split].
    + intros current' other [= <-] Hne. simpl. by rewrite lookup_insert_ne.
    + by apply (findByAgentId_replace rows agent current).
    + unfold shouldDowngrade, getReputation.
      rewrite (findByAgentId_replace rows agent current) by done.
      by rewrite Hfind.
  - intros now rows' e. unfold updateDomainScore, getReputation.
    destruct (findByAgentId rows agent); [done|]. by intros [= <- <-].
  - intros row outcomes. apply record_all_counters.
  - intros now1 now2 outcomeType customImpactScore.
    unfold updateDomainScore, recordOutcome, getReputation.
    destruct (findByAgentId rows agent) as [current|] eqn:Hfind.
    + pose proof (findByAgentId_Some _ _ _ Hfind) as Hid. cbn [fst].
      rewrite (findByAgentId_replace rows agent current) by done.
      rewrite (findByAgentId_replace rows agent current) by done.
      by rewrite !replace_twice.
    + cbn [fst]. by rewrite Hfind.
Qed.

(** One failure as the first recorded outcome already asks for a
    downgrade: the failure rate is then 1. *)
Example downgrade_after_first_failure :
  downgrade (record_all (initial "a11ce" 0) [((failure, None), 1)])
  = Some (FailureRateTooHigh (1 # 1)).
Proof. vm_compute. reflexivity. Qed.

End DowngradeProofs.

(** ** Replay inside the window, and the service key *)

Section ReplayProofs.
Context `{Primitives}.
Import Auth AuthHooks.

Lemma verifyAgentSignature_inl (config : Config) (agents : list Agents.Agent)
    (now_ms : Z) (request : Request) (agent : Agents.Agent) :
  verifyAgentSignature config agents now_ms request = inl agent <->
  str_truthy (x_agent_id request) = true
  /\ str_truthy (x_timestamp request) = true
  /\ str_truthy (x_signature request) = true
  /\ (exists requestTime,
        parseInt (default EmptyString (x_timestamp request)) = Some requestTime
        /\ js_gt (Some (Z.abs (now_ms / 1000 - requestTime)))
                 (signatureTimestampWindow config) = false)
  /\ Agents.findById agents (default EmptyString (x_agent_id request)) = Some agent
  /\ Agents.status agent = Agents.active
  /\ ed25519_verify (default EmptyString (x_signature request))
       (method request +:+ ":" +:+ url request +:+ ":"
        +:+ body_text (body request) +:+ ":"
        +:+ default EmptyString (x_timestamp request))
       (Agents.publicKey agent) = inl true.
Proof.
  unfold verifyAgentSignature.
  destruct (str_truthy (x_agent_id request)); [|by split; [|intros (? & _)]].
  destruct (str_truthy (x_timestamp request)); [|by split; [|intros (_ & ? & _)]].
  destruct (str_truthy (x_signature request)); [|by split; [|intros (_ & _ & ? & _)]].
  cbn [negb orb].
  destruct (parseInt _) as [requestTime|].
  2: { split; [done|]. by intros (_ & _ & _ & (rt & Hrt & _) & _). }
  destruct (js_gt _ _) eqn:Hgt.
  { split; [done|]. intros (_ & _ & _ & (rt & [= <-] & Hrt) & _). congruence. }
  destruct (Agents.findById _ _) as [a|].
  2: { split; [done|]. by intros (_ & _ & _ & _ & ? & _). }
  destruct (Agents.status a) eqn:Hst; cbn [Agents.status_eqb negb].
  2: { split; [done|]. intros (_ & _ & _ & _ & [= <-] & ? & _). congruence. }
  destruct (ed25519_verify _ _ _) as [[|]|msg] eqn:Hv.
  - split.
    + intros [= <-]. repeat split; try done. by exists requestTime.
    + by intros (_ & _ & _ & _ & [= <-] & _).
  - split; [done|]. intros (_ & _ & _ & _ & [= <-] & _ & ?). congruence.
  - split; [done|]. intros (_ & _ & _ & _ & [= <-] & _ & ?). congruence.
Qed.

(** X23.  A request that [verifyAgentSignature] accepted once is
    accepted again at every later or earlier instant inside the
    timestamp window, and only there: nothing but the clock
    distinguishes a repeated request from the first one.  With a window
    of [W] seconds the request is good for the [2 W + 1] seconds around
    its timestamp; with a window that is not a number it never
    expires. *)
Theorem verifyAgentSignature_replay (config : Config) (agents : list Agents.Agent)
    (now_ms : Z) (request : Request) (agent : Agents.Agent) :
  verifyAgentSignature config agents now_ms request = inl agent ->
  exists requestTime,
    parseInt (default EmptyString (x_timestamp request)) = Some requestTime
    /\ (forall W, signatureTimestampWindow config = Some W ->
          forall now_ms',
            verifyAgentSignature config agents now_ms' request = inl agent
            <-> requestTime - W <= now_ms' / 1000 <= requestTime + W)
    /\ (signatureTimestampWindow config = None ->
        forall now_ms', verifyAgentSignature config agents now_ms' request = inl agent).
Proof.
  intros Hok. apply verifyAgentSignature_inl in Hok
    as (Hid & Hts & Hsig & (requestTime & Hparse & Hwin) & Hagent & Hact & Hv).
  exists requestTime. split; [done|]. split.
  - intros W HW now_ms'. rewrite verifyAgentSignature_inl, HW. cbn [js_gt].
    split.
    + intros (_ & _ & _ & (rt & Hrt & Hgt) & _).
      assert (rt = requestTime) as -> by congruence.
      apply Z.ltb_ge in Hgt. lia.
    + intros Hnow. repeat split; try done. exists requestTime.
      split; [done|]. apply Z.ltb_ge. lia.
  - intros HW now_ms'. apply verifyAgentSignature_inl. rewrite HW.
    repeat split; try done. by exists requestTime.
Qed.

(** X24.  The service key: the configured key is never empty, and when
    [SERVICE_API_KEY] is unset or empty it is the development key of the
    source; [verifyServiceKey] lets a request through exactly when the
    header equals the configured key.  In [verifyAuth] a non-empty
    [X-Service-Key] header decides alone: a wrong key is answered 401
    even when the agent headers would verify, and a right key passes
    with no agent attached. *)
Theorem verifyServiceKey_spec (env : option string) (config : Config)
    (agents : list Agents.Agent) (now_ms : Z) :
  let key := serviceApiKey env in
  key <> EmptyString
  /\ (str_truthy env = false -> key = "dev-service-key-change-in-production")
  /\ (forall header, verifyServiceKey key header = None <-> header = Some key)
  /\ (forall r, str_truthy (x_service_key r) = true ->
        verifyAuth key config agents now_ms r
        = if bool_decide (x_service_key r = Some key) then inl None
          else inr unauthorized)
  /\ (forall r, str_truthy (x_service_key r) = false ->
        forall agent,
          verifyAuth key config agents now_ms r = inl (Some agent)
          <-> verifyAgentSignature config agents now_ms (request r) = inl agent)
  /\ (forall r, verifyAuth key config agents now_ms r = inl None ->
        x_service_key r = Some key).
Proof.
  intros key.
  assert (key <> EmptyString) as Hkey.
  { unfold key, serviceApiKey. destruct env as [[|c s]|]; done. }
  assert (forall header, verifyServiceKey key header = None <-> header = Some key)
    as Hservice.
  { intros header. unfold verifyServiceKey. split.
    - destruct (str_truthy header); [|done]. cbn [negb orb].
      destruct (bool_decide_reflect (header = Some key)); done.
    - intros ->. rewrite bool_decide_eq_true_2 by done.
      unfold str_truthy. by rewrite (proj2 (String.eqb_neq _ _) Hkey). }
  split; [done|]. split; [|split; [done|split; [|split]]].
  - intros Henv. unfold key, serviceApiKey. by rewrite Henv.
  - intros r Hr. unfold verifyAuth, verifyServiceKey. rewrite Hr. cbn [negb orb].
    by destruct (bool_decide (x_service_key r = Some key)).
  - intros r Hr agent. unfold verifyAuth. rewrite Hr.
    destruct (str_truthy (x_agent_id (request r))) eqn:Hid; cbn [andb].
    2: { split; [done|]. intros Hv. apply verifyAgentSignature_inl in Hv. 
         destruct Hv as (? & _). congruence. }
    destruct (str_truthy (x_timestamp (request r))) eqn:Hts; cbn [andb].
    2: { split; [done|]. intros Hv. apply verifyAgentSignature_inl in Hv.
         destruct Hv as (_ & ? & _). congruence. }
    destruct (str_truthy (x_signature (request r))) eqn:Hsig.
    2: { split; [done|]. intros Hv. apply verifyAgentSignature_inl in Hv.
         destruct Hv as (_ & _ & ? & _). congruence. }
    destruct (verifyAgentSignature config agents now_ms (request r)); split; congruence.
  - intros r. unfold verifyAuth.
    destruct (str_truthy (x_service_key r)).
    + destruct (verifyServiceKey key (x_service_key r)) eqn:Hv; [done|].
      intros _. by apply Hservice.
    + destruct (_ && _ && _); [|done].
      by destruct (verifyAgentSignature _ _ _ _).
Qed.

End ReplayProofs.

Section ReplayExamples.
Import Model Auth AuthHooks.

Lemma verifyAgentSignature_replay_witness :
  verifyAgentSignature (loadConfig None) [Examples.alice] 1000000999
    Examples.signed_request = inl Examples.alice
  /\ exists requestTime,
       parseInt (default EmptyString (x_timestamp Examples.signed_request))
       = Some requestTime
       /\ (forall W, signatureTimestampWindow (loadConfig None) = Some W ->
             forall now_ms',
               verifyAgentSignature (loadConfig None) [Examples.alice] now_ms'
                 Examples.signed_request = inl Examples.alice
               <-> requestTime - W <= now_ms' / 1000 <= requestTime + W)
       /\ (signatureTimestampWindow (loadConfig None) = None ->
           forall now_ms',
             verifyAgentSignature (loadConfig None) [Examples.alice] now_ms'
               Examples.signed_request = inl Examples.alice).
Proof.
  split; [reflexivity|].
  exact (verifyAgentSignature_replay (loadConfig None) [Examples.alice] 1000000999
           Examples.signed_request Examples.alice eq_refl).
Defined.

(** With [SIGNATURE_TIMESTAMP_WINDOW] set to something that is not a
    number, a signed request is accepted a year later. *)
Example verifyAgentSignature_nan_window :
  verifyAgentSignature (loadConfig (Some "five minutes")) [Examples.alice]
    (1000000999 + 31536000000) Examples.signed_request = inl Examples.alice.
Proof. vm_compute. reflexivity. Qed.

End ReplayExamples.

(** ** Event queries *)

Section QueryMoreProofs.
Context `{Primitives}.
Import Events EventRoutes QuerySpec FilterSpec.

Lemma cond_eq_spec (f : option string) (col : string) :
  cond_eq f col = true <-> forall a, f = Some a -> a <> EmptyString -> col = a.
Proof.
  unfold cond_eq. destruct f as [[|c s]|]; simpl.
  - split; [|done]. by intros _ a [= <-].
  - rewrite bool_decide_eq_true. split.
    + by intros [= <-] a [= <-] _.
    + intros Hall. by rewrite (Hall (String c s)).
  - by split.
Qed.

Lemma cond_opt_eq_spec (f : option string) (col : option string) :
  cond_opt_eq f col = true
  <-> forall a, f = Some a -> a <> EmptyString -> col = Some a.
Proof.
  unfold cond_opt_eq. destruct f as [[|c s]|]; simpl.
  - split; [|done]. by intros _ a [= <-].
  - rewrite bool_decide_eq_true. split.
    + by intros <- a [= <-] _.
    + intros Hall. by rewrite (Hall (String c s)).
  - by split.
Qed.

Lemma matches_satisfies (filters : EventFilters) (e : Event) :
  matches filters e = true <-> satisfies filters e.
Proof.
  unfold matches, satisfies.
  rewrite !andb_true_iff, !cond_eq_spec, cond_opt_eq_spec.
  assert (cond_since (f_since filters) (timestamp e) = true
          <-> forall s, f_since filters = Some (Some s) -> s <= timestamp e) as ->.
  { unfold cond_since. destruct (f_since filters) as [[s|]|]; [|by split..].
    rewrite Z.leb_le. split; [by intros ? ? [= <-]|auto]. }
  assert (cond_until (f_until filters) (timestamp e) = true
          <-> forall u, f_until filters = Some (Some u) -> timestamp e <= u) as ->.
  { unfold cond_until. destruct (f_until filters) as [[u|]|]; [|by split..].
    rewrite Z.leb_le. split; [by intros ? ? [= <-]|auto]. }
  tauto.
Qed.

Lemma StronglySorted_lookup {A} (R : A -> A -> Prop) (l : list A) (i j : nat)
    (x y : A) :
  StronglySorted R l -> (i < j)%nat -> l !! i = Some x -> l !! j = Some y -> R x y.
Proof.
  intros Hsorted. revert i j. induction Hsorted as [|a l Hsorted IH Hall];
    intros i j Hij Hi Hj; [done|].
  destruct j as [|j]; [lia|]. destruct i as [|i]; simpl in *.
  - injection Hi as <-. rewrite Forall_forall in Hall. apply Hall.
    by eapply list_elem_of_lookup_2.
  - apply (IH i j); [lia|done..].
Qed.

Lemma newest_first_sorted (l : list Event) :
  StronglySorted (fun a b => timestamp b <= timestamp a) (sort_by newest_first l).
Proof.
  assert (Sorted (fun a b => newest_first a b = true) (sort_by newest_first l))
    as Hsorted.
  { apply sort_by_Sorted. intros a b. unfold newest_first. lia. }
  apply Sorted_StronglySorted in Hsorted.
  - induction Hsorted as [|a l' Hs IH Hall]; constructor; [done|].
    eapply Forall_impl; [done|]. intros b. unfold newest_first. lia.
  - intros a b c. unfold newest_first. lia.
Qed.

Lemma query_inl (events : list Event) (filters : EventFilters) (rows : list Event) :
  query events filters = inl rows ->
  has_invalid_date filters = false
  /\ rows = apply_limit (limit_clause filters)
              (apply_offset (offset_clause filters)
                 (sort_by newest_first (matching events filters)))
  /\ (forall n, limit_clause filters = Some n -> 0 <= n)
  /\ (forall m, offset_clause filters = Some m -> 0 <= m).
Proof.
  unfold query. destruct (has_invalid_date filters); [done|].
  destruct (negative (limit_clause filters)) eqn:Hl; [done|].
  destruct (negative (offset_clause filters)) eqn:Ho; [done|].
  intros [= <-]. split; [done|]. split; [done|]. split.
  - intros n Hn. rewrite Hn in Hl. simpl in Hl. lia.
  - intros m Hm. rewrite Hm in Ho. simpl in Ho. lia.
Qed.

Lemma page_length (events : list Event) (filters : EventFilters) :
  length (apply_limit (limit_clause filters)
            (apply_offset (offset_clause filters)
               (sort_by newest_first (matching events filters))))
  = page_size filters (length (matching events filters)).
Proof.
  unfold page_size, skipped, apply_limit, apply_offset.
  destruct (limit_clause filters), (offset_clause filters);
    rewrite ?length_take, ?length_drop, sort_by_length; lia.
Qed.


Lemma number_param_cases (s : option string) (dflt : Z) :
  (str_truthy s = false -> number_param s dflt = Some dflt)
  /\ (str_truthy s = true ->
      number_param s dflt = parseInt (default EmptyString s)).
Proof. unfold number_param. by destruct (str_truthy s). Qed.


End QueryMoreProofs.

Section QueryMoreExamples.
Import Model Events EventRoutes QuerySpec FilterSpec.


(** A limit that is not a number is no limit, like [limit=0]; a
    negative one makes the request fail. *)
Example get_events_unparsable_limit :
  get_events (Examples.many_events 3) (Examples.events_query (Some "all"))
  = Ok (Examples.many_events 3) 3 3
  /\ get_events (Examples.many_events 3) (Examples.events_query (Some "-1"))
     = QueryFailed (InvalidRowCount "LIMIT").
Proof. split; vm_compute; reflexivity. Qed.

End QueryMoreExamples.

(** ** The head hash and the history *)

Section BindingProofs.
Context `{Primitives}.
Import Verification ChainSpec BindingSpec.

Lemma prepareForSigning_prev_hash (a b : SignedEvent) :
  prepareForSigning a = prepareForSigning b -> prev_hash a = prev_hash b.
Proof. intros Heq. exact (f_equal u_prev_hash Heq). Qed.

Lemma chain_ok_same_history (chain1 chain2 : list SignedEvent) (pk1 pk2 : string) :
  chain_ok chain1 pk1 -> chain_ok chain2 pk2 ->
  collision_free chain1 chain2 ->
  hash <$> last chain1 = hash <$> last chain2 ->
  map prepareForSigning chain1 = map prepareForSigning chain2
  /\ map hash chain1 = map hash chain2.
Proof.
  revert chain2. induction chain1 as [|a l1 IH] using rev_ind; intros chain2 Hok1 Hok2 Hfree.
  - simpl. intros Hlast. symmetry in Hlast. apply fmap_None, last_None in Hlast.
    by subst chain2.
  - rewrite last_snoc. destruct chain2 as [|b l2 _] using rev_ind; [done|].
    rewrite last_snoc. intros [= Hhash].
    apply chain_ok_snoc in Hok1 as (Hok1 & _ & Hprev1).
    apply chain_ok_snoc in Hok2 as (Hok2 & _ & Hprev2).
    assert (prepareForSigning a = prepareForSigning b) as Hsame.
    { apply Hfree; [| |done]; apply elem_of_app; right; by apply list_elem_of_singleton. }
    pose proof (prepareForSigning_prev_hash a b Hsame) as Hprev.
    destruct (IH l2 Hok1 Hok2) as [Hpre Hhashes].
    + intros x y Hx Hy. apply Hfree; apply elem_of_app; by left.
    + congruence.
    + rewrite !map_app. simpl. by rewrite Hpre, Hhashes, Hsame, Hhash.
Qed.

(** X27.  The hash of the last event commits to the whole history: two
    chains that both pass [verifyEventChain] (under any keys) and end in
    the same hash have the same length and, position by position, the
    same hashes and the same signed content, provided the digest has no
    collision among their events. *)
Theorem head_hash_commits_history (chain1 chain2 : list SignedEvent)
    (pk1 pk2 : string) :
  c_valid (verifyEventChain chain1 pk1) = true ->
  c_valid (verifyEventChain chain2 pk2) = true ->
  collision_free chain1 chain2 ->
  hash <$> last chain1 = hash <$> last chain2 ->
  length chain1 = length chain2
  /\ map hash chain1 = map hash chain2
  /\ map prepareForSigning chain1 = map prepareForSigning chain2.
Proof.
  intros Hv1 Hv2 Hfree Hlast.
  apply verifyEventChain_valid_ok in Hv1. apply verifyEventChain_valid_ok in Hv2.
  destruct (chain_ok_same_history _ _ _ _ Hv1 Hv2 Hfree Hlast) as [Hpre Hhashes].
  split; [|done]. by rewrite <- (length_map hash chain1), Hhashes, length_map.
Qed.

End BindingProofs.

Section BindingExamples.
Import Model ModelSigner Verification BindingSpec.

Lemma chain2_collision_free :
  collision_free MoreExamples.chain2 MoreExamples.chain2b.
Proof.
  intros x y Hx Hy. set (c := MoreExamples.chain2) in *. vm_compute in c. subst c.
  set (c := MoreExamples.chain2b) in *. vm_compute in c. subst c.
  apply list_elem_of_In in Hx. apply list_elem_of_In in Hy.
  destruct Hx as [<-|[<-|[]]], Hy as [<-|[<-|[]]]; intros Hh;
    first [reflexivity | vm_compute in Hh; discriminate].
Qed.

Lemma head_hash_commits_history_witness :
  c_valid (verifyEventChain MoreExamples.chain2 "pkA") = true
  /\ c_valid (verifyEventChain MoreExamples.chain2b "pkB") = true
  /\ collision_free MoreExamples.chain2 MoreExamples.chain2b
  /\ hash <$> last MoreExamples.chain2 = hash <$> last MoreExamples.chain2b
  /\ map prepareForSigning MoreExamples.chain2
     = map prepareForSigning MoreExamples.chain2b.
Proof.
  split; [reflexivity|]. split; [reflexivity|].
  split; [exact chain2_collision_free|]. split; [reflexivity|].
  exact (proj2 (proj2 (head_hash_commits_history MoreExamples.chain2
                         MoreExamples.chain2b "pkA" "pkB" eq_refl eq_refl
                         chain2_collision_free eq_refl))).
Defined.

End BindingExamples.

(** ** Resubmitted events *)

Section ResubmissionProofs.
Context `{Primitives}.
Import Verification LedgerSpec.

Lemma stored_hash_refused (db : EventService.Db) (now1 now2 : Z)
    (request : EventService.AppendEventRequest) (e : Events.Event) :
  e ∈ EventService.events db -> Events.hash e = EventService.hash request ->
  exists err, EventService.appendEvent db now1 now2 request = (db, inr err).
Proof.
  intros He Hhash.
  destruct (EventService.appendEvent db now1 now2 request) as [db1 [event|err]] eqn:Hres.
  - apply appendEvent_inl_inv in Hres as [_ Hfresh]. by destruct (Hfresh e He).
  - exists err. pose proof (appendEvent_error_keeps_db db now1 now2 request err) as Hkeep.
    rewrite Hres in Hkeep. simpl in Hkeep. by rewrite Hkeep.
Qed.

(** X29.  An event cannot be stored twice: [appendEvent] refuses,
    changing nothing, every request whose hash is the hash of a stored
    event; in particular a request that was admitted is refused when it
    is submitted again, at any time, and so is any other request with
    the same hash. *)
Theorem appendEvent_resubmission_refused (db : EventService.Db) (now1 now2 : Z)
    (request : EventService.AppendEventRequest) :
  (forall e, e ∈ EventService.events db ->
             Events.hash e = EventService.hash request ->
             exists err, EventService.appendEvent db now1 now2 request = (db, inr err))
  /\ (forall db' event,
        EventService.appendEvent db now1 now2 request = (db', inl event) ->
        forall now1' now2' request',
          EventService.hash request' = EventService.hash request ->
          exists err,
            EventService.appendEvent db' now1' now2' request' = (db', inr err)).
Proof.
  split.
  - intros e He Hhash. by apply (stored_hash_refused db now1 now2 request e).
  - intros db' event Hres now1' now2' request' Hsame.
    destruct (appendEvent_success _ _ _ _ _ _ Hres) as (_ & Hevent & Hdb').
    apply (stored_hash_refused db' now1' now2' request' event).
    + subst db'. cbn [EventService.events]. apply elem_of_app. right.
      by apply list_elem_of_singleton.
    + subst event. cbn [new_row Events.hash]. by rewrite Hsame.
Qed.

End ResubmissionProofs.

Section ResubmissionExamples.
Import Model Verification.

(** The second submission of the first request fails at the
    verification step: the server now rebuilds the event over the new
    head. *)
Example resubmission_fails_verification :
  exists computed,
    EventService.appendEvent Examples.ledger1 6000 6000 Examples.request1
    = (Examples.ledger1,
       inr (EventService.EventVerificationFailed
              [HashMismatch (EventService.hash Examples.request1) computed;
               InvalidSignature])).
Proof. eexists. vm_compute. reflexivity. Qed.

End ResubmissionExamples.
